(** * gpioreg: the registry of the known digital pins

    A shallow embedding of [conn/gpio/gpioreg/gpioreg.go] and the
    properties of its registration, lookup and enumeration functions.

    The package keeps five maps behind one mutex: two tiers of pins by
    number, two tiers of pins by name, and the aliases.  Every exported
    function takes the mutex for its whole body, so the functions are
    modelled as transitions on the registry state. *)

From Stdlib Require Import ZArith String Ascii List Lia Bool.
From Stdlib Require Import DecimalString DecimalZ DecimalPos DecimalFacts.
From stdpp Require Import gmap strings list fin_maps sorting.

#[local] Set Warnings "-clear-no-such-hyp".

Local Open Scope string_scope.
Local Open Scope Z_scope.

(** ** The parts of [strconv] the package uses

    [strconv] is Go's standard library.  [Atoi] is [ParseInt(s, 10, 0)]:
    an optional sign, then one or more decimal digits, and the value has
    to fit the platform's [int]; anything else is an error.  [Itoa] is
    the decimal rendering of an [int]. *)
Module strconv.

(** [strconv.IntSize] on the 64-bit targets. *)
Definition IntSize : Z := 64.
Definition minInt : Z := - 2 ^ (IntSize - 1).
Definition maxInt : Z := 2 ^ (IntSize - 1) - 1.

(** The values of Go's [int]. *)
Definition is_int (z : Z) : Prop := minInt <= z <= maxInt.

Definition in_range (z : Z) : bool := (minInt <=? z) && (z <=? maxInt).

(** [ch -= '0'; if ch > 9 { syntax error }] on a byte. *)
Definition digit (c : ascii) : option Z :=
  let n := Z.of_N (N_of_ascii c) in
  if (48 <=? n) && (n <=? 57) then Some (n - 48) else None.

(** [n = n*10 + int(ch)] over the digits, left to right. *)
Fixpoint digits (s : string) (n : Z) : option Z :=
  match s with
  | EmptyString => Some n
  | String c s' =>
      match digit c with
      | Some d => digits s' (n * 10 + d)
      | None => None
      end
  end.

Definition is_sign (c : ascii) : bool :=
  (Ascii.eqb c "-" || Ascii.eqb c "+")%char.

(** [Atoi s]: [Some n] when [err == nil], [None] on a syntax or range
    error. *)
Definition Atoi (s : string) : option Z :=
  match s with
  | EmptyString => None
  | String c rest =>
      let body := if is_sign c then rest else s in
      match body with
      | EmptyString => None
      | _ =>
          match digits body 0 with
          | Some n =>
              let v := if Ascii.eqb c "-" then - n else n in
              if in_range v then Some v else None
          | None => None
          end
      end
  end.

Definition Itoa (i : Z) : string := NilZero.string_of_int (Z.to_int i).

End strconv.

(** ** Pin handles *)

(** Modelled from the spec: the pin handle type [gpio.PinIO] and the
    capability [gpio.RealPin], declared in package [conn/gpio], which is
    not among the sources.  The specification gives the handle a name, a
    number, a descriptor for diagnostics, and optionally the report of
    the real pin under it; the registry reads them through [Name()],
    [Number()], [String()] and the [RealPin] assertion, and treats the
    handle as a read-only source of identity.  [pin_Real] is [Some d]
    for a handle that implements [RealPin], with [d] the descriptor of
    its [Real()] pin. *)
Record Pin := mkPin {
  pin_Name : string;
  pin_Number : Z;
  pin_String : string;
  pin_Real : option string
}.

#[global] Instance Pin_eq_dec : EqDecision Pin.
Proof. solve_decision. Defined.

(** A [gpio.PinIO] value held or returned by the registry: a driver's
    handle, or a [*pinAlias].  [RegisterAlias] allocates one [pinAlias]
    per alias name and never replaces it, so the pointer is identified
    with its key in [byAlias]. *)
Inductive PinIO :=
| Driver (p : Pin)
| AliasPtr (key : string).

#[global] Instance PinIO_eq_dec : EqDecision PinIO.
Proof. solve_decision. Defined.

(** [type pinAlias struct { gpio.PinIO; name string; dest string }];
    the embedded interface is [None] while it is [nil]. *)
Record pinAlias := mkAlias {
  pa_PinIO : option PinIO;
  pa_name : string;
  pa_dest : string
}.

(** ** The registry state

    [byNumber] and [byName] are arrays of two maps, index 0 for the
    preferred pins and index 1 for the limited ones.  [Register] stores a
    handle only after its [RealPin] assertion failed, and a [*pinAlias]
    implements [RealPin], so the tier maps hold drivers' handles. *)
Record Registry := mkRegistry {
  byNumber : gmap Z Pin * gmap Z Pin;
  byName : gmap string Pin * gmap string Pin;
  byAlias : gmap string pinAlias
}.

(** [a[i]] and [a[i] = x] on an array of two. *)
Definition at2 {A} (a : A * A) (i : nat) : A :=
  match i with O => a.1 | _ => a.2 end.

Definition set2 {A} (a : A * A) (i : nat) (x : A) : A * A :=
  match i with O => (x, a.2) | _ => (a.1, x) end.

(** The package's initial state: [{{}, {}}], [{{}, {}}], [{}]. *)
Definition empty_registry : Registry :=
  {| byNumber := (∅, ∅); byName := (∅, ∅); byAlias := ∅ |}.

(** [h.Name()].  On a [*pinAlias] it is the record's [name]. *)
Definition Name (st : Registry) (h : PinIO) : string :=
  match h with
  | Driver p => pin_Name p
  | AliasPtr k =>
      match byAlias st !! k with
      | Some a => pa_name a
      | None => EmptyString
      end
  end.

(** [a.Real()]: the embedded handle of the record behind the pointer. *)
Definition Real (st : Registry) (h : PinIO) : option PinIO :=
  match h with
  | Driver _ => None
  | AliasPtr k =>
      match byAlias st !! k with
      | Some a => pa_PinIO a
      | None => None
      end
  end.

(** [h.Number()].  A [*pinAlias] has no [Number] of its own: the call is
    promoted to the embedded handle, hop by hop; [None] is the nil
    dereference of an unresolved record (or a chain longer than [fuel]). *)
Fixpoint Number (fuel : nat) (st : Registry) (h : PinIO) : option Z :=
  match h with
  | Driver p => Some (pin_Number p)
  | AliasPtr k =>
      match fuel with
      | O => None
      | S fuel' =>
          match Real st h with
          | Some h' => Number fuel' st h'
          | None => None
          end
      end
  end.

(** The [String] method of [pinAlias]. *)
Definition pinAlias_String (st : Registry) (a : pinAlias) : string :=
  match pa_PinIO a with
  | None => pa_name a +:+ "(" +:+ pa_dest a +:+ ")"
  | Some h => pa_name a +:+ "(" +:+ Name st h +:+ ")"
  end.

(** ** Errors

    One constructor per [errors.New] of the package, carrying the values
    the message is built from. *)
Inductive error :=
| ErrPinNoName
| ErrPinNumericName (name : string)
| ErrPinInvalidNumber (name : string) (number : Z)
| ErrPinSameNumber (name : string) (number : Z) (orig : string)
| ErrPinTwice (name orig : string)
| ErrPinIsAlias (name real : string)
| ErrPinAliasExists (name alias : string)
| ErrPinDifferentNumber (name orig : string)
| ErrAliasNoName
| ErrAliasNoDest (alias : string)
| ErrAliasNumericName (alias : string)
| ErrAliasTwice (alias orig : string).

#[global] Instance error_eq_dec : EqDecision error.
Proof. solve_decision. Defined.

(** The text of each error, with [strconv.Quote] as [quote]. *)
Definition Error (quote : string → string) (e : error) : string :=
  match e with
  | ErrPinNoName => "gpioreg: can't register a pin with no name"
  | ErrPinNumericName n =>
      "gpioreg: can't register pin " +:+ quote n +:+ " with name being only a number"
  | ErrPinInvalidNumber n i =>
      "gpioreg: can't register pin " +:+ quote n +:+ " with invalid pin number "
        +:+ strconv.Itoa i
  | ErrPinSameNumber n i o =>
      "gpioreg: can't register pin " +:+ quote n +:+ " twice with the same number "
        +:+ strconv.Itoa i +:+ "; already registered as " +:+ quote o
  | ErrPinTwice n o =>
      "gpioreg: can't register pin " +:+ quote n +:+ " twice; already registered as "
        +:+ quote o
  | ErrPinIsAlias n r =>
      "gpioreg: can't register pin " +:+ quote n +:+ ", it is already an alias: "
        +:+ quote r +:+ "; use RegisterAlias() instead"
  | ErrPinAliasExists n a =>
      "gpioreg: can't register pin " +:+ quote n +:+ "; an alias already exist: "
        +:+ quote a
  | ErrPinDifferentNumber n o =>
      "gpioreg: can't register pin " +:+ quote n
        +:+ " twice with different number; already registered as " +:+ quote o
  | ErrAliasNoName => "gpioreg: can't register an alias with no name"
  | ErrAliasNoDest a =>
      "gpioreg: can't register alias " +:+ quote a +:+ " with no dest"
  | ErrAliasNumericName a =>
      "gpioreg: can't register alias " +:+ quote a +:+ " with name being only a number"
  | ErrAliasTwice a o =>
      "gpioreg: can't register alias " +:+ quote a
        +:+ " twice; it is already an alias: " +:+ quote o
  end.

(** ** Registration *)

(** [Register(p, preferred)]: the new state and the returned error
    ([None] is [nil]). *)
Definition Register (p : Pin) (preferred : bool) (st : Registry)
  : Registry * option error :=
  let name := pin_Name p in
  if Nat.eqb (String.length name) 0 then (st, Some ErrPinNoName) else
  if bool_decide (is_Some (strconv.Atoi name)) then (st, Some (ErrPinNumericName name)) else
  let number := pin_Number p in
  if number <? 0 then (st, Some (ErrPinInvalidNumber name number)) else
  let i := if preferred then 0%nat else 1%nat in
  let other := if preferred then 1%nat else 0%nat in
  match at2 (byNumber st) i !! number with
  | Some orig => (st, Some (ErrPinSameNumber name number (pin_String orig)))
  | None =>
  match at2 (byName st) i !! name with
  | Some orig => (st, Some (ErrPinTwice name (pin_String orig)))
  | None =>
  match pin_Real p with
  | Some r => (st, Some (ErrPinIsAlias name r))
  | None =>
  match byAlias st !! name with
  | Some alias => (st, Some (ErrPinAliasExists name (pinAlias_String st alias)))
  | None =>
  match at2 (byName st) other !! name with
  | Some orig =>
      if bool_decide (number ≠ pin_Number orig)
      then (st, Some (ErrPinDifferentNumber name (pin_String orig)))
      else ({| byNumber := set2 (byNumber st) i (<[number := p]> (at2 (byNumber st) i));
               byName := set2 (byName st) i (<[name := p]> (at2 (byName st) i));
               byAlias := byAlias st |}, None)
  | None =>
      ({| byNumber := set2 (byNumber st) i (<[number := p]> (at2 (byNumber st) i));
          byName := set2 (byName st) i (<[name := p]> (at2 (byName st) i));
          byAlias := byAlias st |}, None)
  end end end end end.

(** [RegisterAlias(alias, dest)]. *)
Definition RegisterAlias (alias dest : string) (st : Registry)
  : Registry * option error :=
  if Nat.eqb (String.length alias) 0 then (st, Some ErrAliasNoName) else
  if Nat.eqb (String.length dest) 0 then (st, Some (ErrAliasNoDest alias)) else
  if bool_decide (is_Some (strconv.Atoi alias)) then (st, Some (ErrAliasNumericName alias)) else
  match byAlias st !! alias with
  | Some orig =>
      if bool_decide (pa_dest orig = dest) then (st, None)
      else (st, Some (ErrAliasTwice alias (pinAlias_String st orig)))
  | None =>
      ({| byNumber := byNumber st;
          byName := byName st;
          byAlias := <[alias := {| pa_PinIO := None; pa_name := alias; pa_dest := dest |}]>
                       (byAlias st) |}, None)
  end.

(** ** Lookup *)

Definition getByNumber (number : Z) (st : Registry) : option PinIO :=
  match (byNumber st).1 !! number with
  | Some p => Some (Driver p)
  | None =>
      match (byNumber st).2 !! number with
      | Some p => Some (Driver p)
      | None => None
      end
  end.

(** [p.PinIO = x] through the pointer [AliasPtr key]. *)
Definition set_PinIO (key : string) (x : option PinIO) (st : Registry) : Registry :=
  {| byNumber := byNumber st;
     byName := byName st;
     byAlias := alter (λ a, {| pa_PinIO := x; pa_name := pa_name a; pa_dest := pa_dest a |})
                  key (byAlias st) |}.

(** [getByName(name)].  The function calls itself on the destination of
    an unresolved alias and Go bounds the recursion by nothing but the
    stack; [fuel] is the number of nested calls allowed, and the outer
    [None] is a call that needs more.  A returning call gives the state
    it leaves and its result ([None] is [nil]). *)
Fixpoint getByName (fuel : nat) (name : string) (st : Registry)
  : option (Registry * option PinIO) :=
  match fuel with
  | O => None
  | S fuel' =>
      match (byName st).1 !! name with
      | Some p => Some (st, Some (Driver p))
      | None =>
      match (byName st).2 !! name with
      | Some p => Some (st, Some (Driver p))
      | None =>
      match byAlias st !! name with
      | Some a =>
          match pa_PinIO a with
          | Some _ => Some (st, Some (AliasPtr name))
          | None =>
              match getByName fuel' (pa_dest a) st with
              | None => None
              | Some (st', r) =>
                  let st'' := set_PinIO name r st' in
                  match r with
                  | None => Some (st'', None)
                  | Some _ => Some (st'', Some (AliasPtr name))
                  end
              end
          end
      | None =>
          match strconv.Atoi name with
          | Some i => Some (st, getByNumber i st)
          | None => Some (st, None)
          end
      end end end
  end.

(** [ByName(name)]: [getByName] under the lock. *)
Definition ByName (fuel : nat) (name : string) (st : Registry)
  : option (Registry * option PinIO) :=
  getByName fuel name st.

(** ** Register: the order of the checks *)

(** The tier [Register] selects, and the other one. *)
Definition tier (preferred : bool) : nat := if preferred then 0%nat else 1%nat.
Definition other_tier (preferred : bool) : nat := if preferred then 1%nat else 0%nat.

(** The eight validation steps as the specification lists them, (a) to
    (h): each is [Some e] when the step fails with [e] on this pin and
    state, [None] when it passes. *)
Definition Register_steps (p : Pin) (preferred : bool) (st : Registry)
  : list (option error) :=
  let name := pin_Name p in
  let number := pin_Number p in
  [ (* a *) if decide (name = EmptyString) then Some ErrPinNoName else None;
    (* b *) if decide (is_Some (strconv.Atoi name)) then Some (ErrPinNumericName name) else None;
    (* c *) if decide (number < 0) then Some (ErrPinInvalidNumber name number) else None;
    (* d *) (λ orig, ErrPinSameNumber name number (pin_String orig))
              <$> at2 (byNumber st) (tier preferred) !! number;
    (* e *) (λ orig, ErrPinTwice name (pin_String orig))
              <$> at2 (byName st) (tier preferred) !! name;
    (* f *) ErrPinIsAlias name <$> pin_Real p;
    (* g *) (λ a, ErrPinAliasExists name (pinAlias_String st a)) <$> byAlias st !! name;
    (* h *) match at2 (byName st) (other_tier preferred) !! name with
            | Some orig =>
                if decide (pin_Number orig = number) then None
                else Some (ErrPinDifferentNumber name (pin_String orig))
            | None => None
            end ].

(** The error of the first step that fails, in the order of the list. *)
Fixpoint first_failure (steps : list (option error)) : option error :=
  match steps with
  | [] => None
  | Some e :: _ => Some e
  | None :: rest => first_failure rest
  end.

(** The position, (a) = 0 to (h) = 7, of the step an error of [Register]
    belongs to. *)
Definition Register_step_of (e : error) : option nat :=
  match e with
  | ErrPinNoName => Some 0%nat
  | ErrPinNumericName _ => Some 1%nat
  | ErrPinInvalidNumber _ _ => Some 2%nat
  | ErrPinSameNumber _ _ _ => Some 3%nat
  | ErrPinTwice _ _ => Some 4%nat
  | ErrPinIsAlias _ _ => Some 5%nat
  | ErrPinAliasExists _ _ => Some 6%nat
  | ErrPinDifferentNumber _ _ => Some 7%nat
  | _ => None
  end.

(** The state after the insertion: the pin under its number and under
    its name in the selected tier, nothing else touched. *)
Definition Register_inserted (p : Pin) (preferred : bool) (st : Registry) : Registry :=
  let i := tier preferred in
  {| byNumber := set2 (byNumber st) i (<[pin_Number p := p]> (at2 (byNumber st) i));
     byName := set2 (byName st) i (<[pin_Name p := p]> (at2 (byName st) i));
     byAlias := byAlias st |}.

(** ** Ordered enumeration *)

(** [search(n, f)]: [lo := 0; for hi := n; lo < hi; { ... }; return lo].
    [int(uint(lo+hi) >> 1)] is the half of [lo+hi] (the detour through
    [uint] only keeps the sum from wrapping).  A round makes [hi - lo]
    smaller, so the loop makes at most [n] rounds; [rounds] counts them
    down. *)
Fixpoint search_loop (rounds : nat) (f : nat → bool) (lo hi : nat) : nat :=
  match rounds with
  | O => lo
  | S rounds' =>
      if (lo <? hi)%nat then
        let i := ((lo + hi) / 2)%nat in
        if negb (f i) then search_loop rounds' f (i + 1) hi
        else search_loop rounds' f lo i
      else lo
  end.

Definition search (n : nat) (f : nat → bool) : nat := search_loop n f 0 n.

(** [l = append(l, nil); copy(l[i+1:], l[i:]); l[i] = p]. *)
Definition insert_at {A} (l : list A) (i : nat) (p : A) : list A :=
  take i l ++ p :: drop i l.

(** The closure the two insertions hand to [search], [gtb p q] being
    the test [q > p] on the sort keys; it reads [l[i]] for [i < len(l)]. *)
Definition after {A} (gtb : A → A → bool) (l : list A) (p : A) (i : nat) : bool :=
  match l !! i with
  | Some q => gtb p q
  | None => false
  end.

(** [insertPinByNumber(l, p)]. *)
Definition insertPinByNumber (l : list Pin) (p : Pin) : list Pin :=
  let n := pin_Number p in
  let i := search (length l) (after (λ _ q, n <? pin_Number q) l p) in
  insert_at l i p.

(** [insertPinByName(l, p)].  Go compares strings byte by byte, as
    [String.ltb] does. *)
Definition insertPinByName (st : Registry) (l : list PinIO) (p : PinIO) : list PinIO :=
  let n := Name st p in
  let i := search (length l) (after (λ _ q, String.ltb n (Name st q)) l p) in
  insert_at l i p.

(** [All()], on the sequences [ps0] and [ps1] in which the two [range]
    loops deliver the values of [byNumber[0]] and [byNumber[1]]. *)
Definition All_from (ps0 ps1 : list Pin) : list Pin :=
  let '(out, seen) :=
    foldl (λ '(out, seen) p, (insertPinByNumber out p, ({[pin_Number p]} ∪ seen) : gset Z))
          ([], ∅) ps0 in
  foldl (λ out p, if decide (pin_Number p ∈ seen) then out else insertPinByNumber out p)
        out ps1.

(** Go leaves the order of a [range] over a map unspecified: any
    sequence of the map's entries without repetition can come. *)
Definition range_of {K A} `{Countable K} (m : gmap K A) (kvs : list (K * A)) : Prop :=
  kvs ≡ₚ map_to_list m.

(** [All()] with the order stdpp's [map_to_list] picks. *)
Definition All (st : Registry) : list Pin :=
  All_from (map_to_list (byNumber st).1).*2 (map_to_list (byNumber st).2).*2.

(** The loop of [Aliases()] over the keys [keys] of [byAlias], in the
    order the [range] delivers them; [p] is the pointer [AliasPtr k] and
    its fields are read from the state of the moment. *)
Fixpoint Aliases_loop (fuel : nat) (keys : list string) (out : list PinIO)
    (st : Registry) : option (Registry * list PinIO) :=
  match keys with
  | [] => Some (st, out)
  | k :: keys' =>
      match byAlias st !! k with
      | None => Aliases_loop fuel keys' out st
      | Some a =>
          match pa_PinIO a with
          | Some _ => Aliases_loop fuel keys' (insertPinByName st out (AliasPtr k)) st
          | None =>
              match getByName fuel (pa_dest a) st with
              | None => None
              | Some (st', r) =>
                  let st'' := set_PinIO k r st' in
                  match r with
                  | None => Aliases_loop fuel keys' out st''
                  | Some _ =>
                      Aliases_loop fuel keys' (insertPinByName st'' out (AliasPtr k)) st''
                  end
              end
          end
      end
  end.

(** [Aliases()]; the outer [None] is a lookup that needs more than
    [fuel] nested calls. *)
Definition Aliases_from (fuel : nat) (keys : list string) (st : Registry)
  : option (Registry * list PinIO) :=
  Aliases_loop fuel keys [] st.

Definition Aliases (fuel : nat) (st : Registry) : option (Registry * list PinIO) :=
  Aliases_from fuel (map_to_list (byAlias st)).*1 st.

(** ** The lookup chain of the specification

    [ByName_chain st name st' r]: looking [name] up in [st] ends in
    [st'] with [r], by the ordered chain of the specification: (1) the
    tier-0 names, (2) the tier-1 names, (3) the aliases, (4) the
    numbers. *)
Inductive ByName_chain : Registry → string → Registry → option PinIO → Prop :=
| chain_tier0 st name p :
    (byName st).1 !! name = Some p →
    ByName_chain st name st (Some (Driver p))
| chain_tier1 st name p :
    (byName st).1 !! name = None →
    (byName st).2 !! name = Some p →
    ByName_chain st name st (Some (Driver p))
| chain_alias_resolved st name a h :
    (byName st).1 !! name = None →
    (byName st).2 !! name = None →
    byAlias st !! name = Some a →
    pa_PinIO a = Some h →
    ByName_chain st name st (Some (AliasPtr name))
| chain_alias_memoize st name a st' h :
    (byName st).1 !! name = None →
    (byName st).2 !! name = None →
    byAlias st !! name = Some a →
    pa_PinIO a = None →
    ByName_chain st (pa_dest a) st' (Some h) →
    ByName_chain st name (set_PinIO name (Some h) st') (Some (AliasPtr name))
| chain_alias_absent st name a st' :
    (byName st).1 !! name = None →
    (byName st).2 !! name = None →
    byAlias st !! name = Some a →
    pa_PinIO a = None →
    ByName_chain st (pa_dest a) st' None →
    ByName_chain st name st None
| chain_number st name i :
    (byName st).1 !! name = None →
    (byName st).2 !! name = None →
    byAlias st !! name = None →
    strconv.Atoi name = Some i →
    ByName_chain st name st
      (match (byNumber st).1 !! i with
       | Some p => Some (Driver p)
       | None => Driver <$> (byNumber st).2 !! i
       end)
| chain_absent st name :
    (byName st).1 !! name = None →
    (byName st).2 !! name = None →
    byAlias st !! name = None →
    strconv.Atoi name = None →
    ByName_chain st name st None.

(** ** The states the package can be in

    The package starts from the empty maps and changes them only through
    its exported functions; [All] changes nothing.  A driver's pin
    number is a Go [int]. *)
Inductive reachable : Registry → Prop :=
| reach_init : reachable empty_registry
| reach_Register st p preferred :
    reachable st →
    strconv.is_int (pin_Number p) →
    reachable (Register p preferred st).1
| reach_RegisterAlias st alias dest :
    reachable st →
    reachable (RegisterAlias alias dest st).1
| reach_ByName st fuel name st' r :
    reachable st →
    ByName fuel name st = Some (st', r) →
    reachable st'
| reach_Aliases st fuel kvs st' out :
    reachable st →
    range_of (byAlias st) kvs →
    Aliases_from fuel kvs.*1 st = Some (st', out) →
    reachable st'.

(** ** What a lookup comes to

    [lookup_ends st name b]: the lookup of [name] in [st] returns, with
    a pin when [b] is [true] and with [nil] when it is [false].  It is
    the chain without the states. *)
Inductive lookup_ends (st : Registry) : string → bool → Prop :=
| ends_tier0 name p :
    (byName st).1 !! name = Some p → lookup_ends st name true
| ends_tier1 name p :
    (byName st).1 !! name = None → (byName st).2 !! name = Some p →
    lookup_ends st name true
| ends_resolved name a h :
    (byName st).1 !! name = None → (byName st).2 !! name = None →
    byAlias st !! name = Some a → pa_PinIO a = Some h →
    lookup_ends st name true
| ends_unresolved name a b :
    (byName st).1 !! name = None → (byName st).2 !! name = None →
    byAlias st !! name = Some a → pa_PinIO a = None →
    lookup_ends st (pa_dest a) b →
    lookup_ends st name b
| ends_number name i :
    (byName st).1 !! name = None → (byName st).2 !! name = None →
    byAlias st !! name = None → strconv.Atoi name = Some i →
    lookup_ends st name (bool_decide (is_Some (getByNumber i st)))
| ends_absent name :
    (byName st).1 !! name = None → (byName st).2 !! name = None →
    byAlias st !! name = None → strconv.Atoi name = None →
    lookup_ends st name false.

(** The destination of an alias resolves: its lookup returns a pin. *)
Definition resolves (st : Registry) (name : string) : Prop :=
  ∃ st' h, ByName_chain st name st' (Some h).

(** [memo_ext st st']: [st'] is [st] with more aliases resolved, each of
    them one whose destination resolves in [st]. *)
Definition memo_ext (st st' : Registry) : Prop :=
  byNumber st' = byNumber st ∧ byName st' = byName st
  ∧ ∀ k, match byAlias st !! k, byAlias st' !! k with
         | None, None => True
         | Some a, Some a' =>
             pa_name a' = pa_name a ∧ pa_dest a' = pa_dest a
             ∧ (pa_PinIO a' = pa_PinIO a
                ∨ (pa_PinIO a = None ∧ is_Some (pa_PinIO a')
                   ∧ lookup_ends st (pa_dest a) true))
         | _, _ => False
         end.

(** ** The invariant of the registry *)
Record wf (st : Registry) : Prop := mkWf {
  (** a pin is filed under its own number, and under its name too *)
  wf_number : ∀ i n p, at2 (byNumber st) i !! n = Some p →
    pin_Number p = n ∧ at2 (byName st) i !! pin_Name p = Some p;
  (** and under its own name, and under its number too *)
  wf_name : ∀ i s p, at2 (byName st) i !! s = Some p →
    pin_Name p = s ∧ at2 (byNumber st) i !! pin_Number p = Some p;
  (** the registered pins passed the checks on the pin alone *)
  wf_pin : ∀ i s p, at2 (byName st) i !! s = Some p →
    s ≠ EmptyString ∧ strconv.Atoi s = None
    ∧ 0 ≤ pin_Number p ∧ strconv.is_int (pin_Number p) ∧ pin_Real p = None;
  (** a name filed in both tiers has one number *)
  wf_tiers : ∀ s p q, (byName st).1 !! s = Some p → (byName st).2 !! s = Some q →
    pin_Number p = pin_Number q;
  (** an alias record carries its key, and passed the checks *)
  wf_alias : ∀ k a, byAlias st !! k = Some a →
    pa_name a = k ∧ k ≠ EmptyString ∧ strconv.Atoi k = None ∧ pa_dest a ≠ EmptyString;
  (** a resolved alias has a destination that resolves *)
  wf_memo : ∀ k a h, byAlias st !! k = Some a → pa_PinIO a = Some h →
    lookup_ends st (pa_dest a) true
}.

(** ** The orders of the enumerations *)

(** Ascending by number, loosely and strictly. *)
Definition le_number (p q : Pin) : Prop := pin_Number p ≤ pin_Number q.
Definition lt_number (p q : Pin) : Prop := pin_Number p < pin_Number q.

(** Ascending by name in [st], byte by byte, loosely and strictly. *)
Definition le_name (st : Registry) (p q : PinIO) : Prop :=
  String.le (Name st p) (Name st q).
Definition lt_name (st : Registry) (p q : PinIO) : Prop :=
  String.ltb (Name st p) (Name st q) = true.

(** ** Sample pins and states *)

(** A memory-mapped pin and the same pin as the OS exposes it, and two
    other pins. *)
Definition GPIO4 : Pin := mkPin "GPIO4" 4 "GPIO4" None.
Definition GPIO4_sysfs : Pin := mkPin "GPIO4" 4 "sysfs GPIO4" None.
Definition GPIO2 : Pin := mkPin "GPIO2" 2 "GPIO2" None.
Definition PWM7 : Pin := mkPin "PWM7" 7 "PWM7" None.

(** The limited pin number 5 under one name, the preferred pin number 5
    under another. *)
Definition LIM5 : Pin := mkPin "x" 5 "sysfs x" None.
Definition PREF5 : Pin := mkPin "y" 5 "y" None.

(** The handle of an alias [LED] of [GPIO2]: a wrapper, whose [Real()]
    is the pin [GPIO2]. *)
Definition LED_wrapper : Pin := mkPin "LED" 2 "LED(GPIO2)" (Some "GPIO2").

(** [GPIO4] in both tiers, [GPIO2] and [PWM7] in one each. *)
Definition two_tiers : Registry :=
  (Register PWM7 true
     (Register GPIO2 false
        (Register GPIO4_sysfs false
           (Register GPIO4 true empty_registry).1).1).1).1.

(** ** Lookups by name and by number, as the specification words them *)

(** The state a sequence of registrations builds from the empty
    registry, when every one of them is valid (returns no error). *)
Fixpoint built_from (regs : list (Pin * bool)) (st : Registry) : option Registry :=
  match regs with
  | [] => Some st
  | (p, preferred) :: regs' =>
      match Register p preferred st with
      | (st', None) => built_from regs' st'
      | (_, Some _) => None
      end
  end.

(** The (tier, number, name) triple of a registration. *)
Definition triple (reg : Pin * bool) : nat * Z * string :=
  (tier reg.2, pin_Number reg.1, pin_Name reg.1).

(** The property of the specification, as it words it: after valid
    registrations with distinct triples, the lookup of a registered
    pin's name and the lookup of the decimal string of its number
    return the same pin. *)
Definition name_and_number_agree_as_stated : Prop :=
  ∀ regs st, built_from regs empty_registry = Some st →
    NoDup (triple <$> regs) →
    ∀ reg, reg ∈ regs →
      ∃ r, ByName 1 (pin_Name reg.1) st = Some (st, r)
           ∧ ByName 1 (strconv.Itoa (pin_Number reg.1)) st = Some (st, r).

(** The limited pin 5 as [x], then the preferred pin 5 as [y]. *)
Definition same_number_two_names : Registry :=
  (Register PREF5 true (Register LIM5 false empty_registry).1).1.

(** ** Operations over time *)

(** One call of an exported function that can change the state. *)
Inductive step : Registry → Registry → Prop :=
| step_Register st p preferred :
    strconv.is_int (pin_Number p) →
    step st (Register p preferred st).1
| step_RegisterAlias st alias dest :
    step st (RegisterAlias alias dest st).1
| step_ByName st fuel name st' r :
    ByName fuel name st = Some (st', r) →
    step st st'
| step_Aliases st fuel kvs st' out :
    range_of (byAlias st) kvs →
    Aliases_from fuel kvs.*1 st = Some (st', out) →
    step st st'.

(** ** The lookup of an alias, as the claims word it *)

(** For every alias whose destination resolves, [ByName] on the alias
    name returns the wrapper of that alias, whose [Real()] is what the
    lookup of the destination returns. *)
Definition alias_lookup_wraps_as_stated : Prop :=
  ∀ st, reachable st →
    ∀ k a, byAlias st !! k = Some a → resolves st (pa_dest a) →
      ∃ fuel st', ByName fuel k st = Some (st', Some (AliasPtr k))
        ∧ Name st' (AliasPtr k) = k
        ∧ ∃ st1, ByName_chain st (pa_dest a) st1 (Real st' (AliasPtr k)).

(** [GPIO2] and [PWM7] registered, then the name [GPIO2] made an alias
    of [PWM7]: [RegisterAlias] does not look at the pin names. *)
Definition alias_under_pin_name : Registry :=
  (RegisterAlias "GPIO2" "PWM7"
     (Register PWM7 true (Register GPIO2 true empty_registry).1).1).1.

(** The pin named [c] that the chain of aliases leads to. *)
Definition pin_c : Pin := mkPin "c" 3 "c" None.

(** [RegisterAlias("a","b")], [RegisterAlias("b","c")], then [Register]
    of a pin, from the empty registry. *)
Definition after_chain (p : Pin) (preferred : bool) : Registry :=
  (Register p preferred
     (RegisterAlias "b" "c" (RegisterAlias "a" "b" empty_registry).1).1).1.

(** The multi-hop example, as the specification words it: the lookup
    of [a] returns the pin named [c]. *)
Definition multi_hop_as_stated : Prop :=
  ∀ p preferred, pin_Name p = "c" →
    (Register p preferred
       (RegisterAlias "b" "c" (RegisterAlias "a" "b" empty_registry).1).1).2 = None →
    ∃ fuel st', ByName fuel "a" (after_chain p preferred) = Some (st', Some (Driver p)).

(** The sample state with [LED] an alias of [GPIO2]. *)
Definition with_LED : Registry := (RegisterAlias "LED" "GPIO2" two_tiers).1.
Definition LED_record : pinAlias :=
  {| pa_PinIO := None; pa_name := "LED"; pa_dest := "GPIO2" |}.

(** ** What [Aliases] is to return *)

(** The alias [k] has a destination that resolves. *)
Definition alias_resolves (st : Registry) (k : string) : Prop :=
  ∃ a, byAlias st !! k = Some a ∧ resolves st (pa_dest a).

(** The lookup of the destination of every unresolved alias returns:
    there is no cycle of unresolved aliases. *)
Definition lookups_return (st : Registry) : Prop :=
  ∀ k a, byAlias st !! k = Some a → pa_PinIO a = None →
    ∃ st' r, ByName_chain st (pa_dest a) st' r.

(** The registry after [RegisterAlias("a","b")] and
    [RegisterAlias("b","a")]. *)
Definition alias_cycle : Registry :=
  (RegisterAlias "b" "a" (RegisterAlias "a" "b" empty_registry).1).1.

(** The registry after [RegisterAlias("a","a")]. *)
Definition self_alias : Registry := (RegisterAlias "a" "a" empty_registry).1.

(** ** A handle of the registry, as a caller hands it back

    [Register] reads its argument through [Name()], [Number()],
    [String()] and the [RealPin] assertion.  [as_Pin fuel st h] is what
    it reads on a handle [h] that came out of the registry; a wrapper
    implements [RealPin]. *)
Definition String_of (st : Registry) (h : PinIO) : string :=
  match h with
  | Driver p => pin_String p
  | AliasPtr k =>
      match byAlias st !! k with
      | Some a => pinAlias_String st a
      | None => EmptyString
      end
  end.

Definition as_Pin (fuel : nat) (st : Registry) (h : PinIO) : option Pin :=
  match h with
  | Driver p => Some p
  | AliasPtr k =>
      match Number fuel st h, Real st h with
      | Some n, Some r =>
          Some {| pin_Name := Name st h; pin_Number := n;
                  pin_String := String_of st h;
                  pin_Real := Some (String_of st r) |}
      | _, _ => None
      end
  end.

(** ** The result of a lookup that ends

    What [getByName] returns for [name] in [st] when the call returns,
    given whether an alias of that name resolves ([found]): the tables
    are consulted in the order of the function. *)
Definition lookup_result (st : Registry) (name : string) (found : bool) : option PinIO :=
  match (byName st).1 !! name with
  | Some p => Some (Driver p)
  | None =>
      match (byName st).2 !! name with
      | Some p => Some (Driver p)
      | None =>
          match byAlias st !! name with
          | Some _ => if found then Some (AliasPtr name) else None
          | None =>
              match strconv.Atoi name with
              | Some i => getByNumber i st
              | None => None
              end
          end
      end
  end.

(** The sample state with one more alias, of a name nothing has. *)
Definition with_dangling : Registry :=
  (RegisterAlias "dangling" "nowhere" with_LED).1.

(** The sample state after [Aliases()] has resolved [LED]. *)
Definition with_dangling_resolved : Registry :=
  set_PinIO "LED" (Some (Driver GPIO2)) with_dangling.

(** ** Handles that lead to a pin

    [grounded st h n]: following [Real()] from the handle [h] ends at a
    driver's pin that is registered, whose number is [n]. *)
Inductive grounded (st : Registry) : PinIO → Z → Prop :=
| grounded_driver p i :
    at2 (byName st) i !! pin_Name p = Some p →
    grounded st (Driver p) (pin_Number p)
| grounded_alias k a h n :
    byAlias st !! k = Some a → pa_PinIO a = Some h →
    grounded st h n →
    grounded st (AliasPtr k) n.

(** Every resolved alias holds a handle that leads to a pin. *)
Definition aliases_grounded (st : Registry) : Prop :=
  ∀ k a h, byAlias st !! k = Some a → pa_PinIO a = Some h → ∃ n, grounded st h n.

(** [st'] has all the pins of [st] and all its resolved aliases. *)
Definition grows (st st' : Registry) : Prop :=
  (∀ i s p, at2 (byName st) i !! s = Some p → at2 (byName st') i !! s = Some p)
  ∧ (∀ k a h, byAlias st !! k = Some a → pa_PinIO a = Some h →
       ∃ a', byAlias st' !! k = Some a' ∧ pa_PinIO a' = Some h).

Example Atoi_42 : strconv.Atoi "42" = Some 42.
Proof. reflexivity. Qed.
Example Atoi_plus7 : strconv.Atoi "+7" = Some 7.
Proof. reflexivity. Qed.
Example Atoi_neg : strconv.Atoi "-0012" = Some (-12).
Proof. reflexivity. Qed.
Example Atoi_sign_only : strconv.Atoi "-" = None.
Proof. reflexivity. Qed.
Example Atoi_name : strconv.Atoi "GPIO2" = None.
Proof. reflexivity. Qed.
Example Atoi_max : strconv.Atoi "9223372036854775807" = Some 9223372036854775807.
Proof. reflexivity. Qed.
Example Atoi_overflow : strconv.Atoi "9223372036854775808" = None.
Proof. reflexivity. Qed.
Example Atoi_min : strconv.Atoi "-9223372036854775808" = Some (-9223372036854775808).
Proof. reflexivity. Qed.
Example Itoa_0 : strconv.Itoa 0 = "0".
Proof. reflexivity. Qed.
Example Itoa_neg : strconv.Itoa (-305) = "-305".
Proof. reflexivity. Qed.

Lemma length_zero_empty (s : string) :
  Nat.eqb (String.length s) 0 = bool_decide (s = EmptyString).
Proof. destruct s; reflexivity. Qed.

Lemma Register_first_failure p preferred st :
  Register p preferred st =
    match first_failure (Register_steps p preferred st) with
    | Some e => (st, Some e)
    | None => (Register_inserted p preferred st, None)
    end.
Proof.
  unfold Register, Register_steps, Register_inserted.
  rewrite length_zero_empty.
  cbn [first_failure].
  destruct (decide (pin_Name p = EmptyString)) as [Ha|Ha];
    [rewrite bool_decide_eq_true_2 by done; reflexivity
    |rewrite bool_decide_eq_false_2 by done].
  destruct (decide (is_Some (strconv.Atoi (pin_Name p)))) as [Hb|Hb];
    [rewrite bool_decide_eq_true_2 by done; reflexivity
    |rewrite bool_decide_eq_false_2 by done].
  destruct (decide (pin_Number p < 0)) as [Hc|Hc].
  { apply Z.ltb_lt in Hc as ->. reflexivity. }
  apply Z.ltb_nlt in Hc as ->.
  destruct preferred; cbn [tier other_tier at2];
    (destruct (_ !! pin_Number p); [reflexivity|]; cbn [fmap option_fmap option_map];
     destruct (_ !! pin_Name p); [reflexivity|]; cbn [fmap option_fmap option_map];
     destruct (pin_Real p); [reflexivity|]; cbn [fmap option_fmap option_map];
     destruct (byAlias st !! pin_Name p); [reflexivity|]; cbn [fmap option_fmap option_map];
     destruct (_ !! pin_Name p) as [orig|]; [|reflexivity];
     destruct (decide (pin_Number orig = pin_Number p)) as [He|He];
       [rewrite bool_decide_eq_false_2 by (intros ?; congruence); reflexivity
       |rewrite bool_decide_eq_true_2 by (intros ?; congruence); reflexivity]).
Qed.

Lemma Register_steps_distinct p preferred st (j : nat) e :
  Register_steps p preferred st !! j = Some (Some e) → Register_step_of e = Some j.
Proof.
  unfold Register_steps. intros H.
  do 8 (destruct j as [|j];
    [cbn in H; repeat case_decide; repeat case_match; simplify_option_eq; reflexivity|]).
  cbn in H. discriminate.
Qed.

(** The other tier's maps are the ones [set2] leaves alone. *)
Lemma at2_set2_tier {A} (a : A * A) preferred (x : A) :
  at2 (set2 a (tier preferred) x) (tier preferred) = x
  ∧ at2 (set2 a (tier preferred) x) (other_tier preferred) = at2 a (other_tier preferred).
Proof. destruct preferred, a; split; reflexivity. Qed.

Lemma Register_error_unchanged p preferred st st' e :
  Register p preferred st = (st', Some e) → st' = st.
Proof.
  rewrite Register_first_failure.
  destruct (first_failure _); intros [= <- ?]; done.
Qed.

Lemma Register_ok_inserted p preferred st st' :
  Register p preferred st = (st', None) → st' = Register_inserted p preferred st.
Proof.
  rewrite Register_first_failure.
  destruct (first_failure _); intros [= <-]; done.
Qed.

(** A successful [Register] means that every step passed. *)
Lemma first_failure_None steps :
  first_failure steps = None ↔ ∀ j c, steps !! j = Some c → c = None.
Proof.
  induction steps as [|[e|] steps IH]; cbn.
  - split; [intros _ j c; rewrite lookup_nil; discriminate | done].
  - split; [discriminate | intros H; discriminate (H 0%nat (Some e) eq_refl)].
  - rewrite IH. split.
    + intros H [|j] c; cbn; [congruence | apply H].
    + intros H j c Hj. apply (H (S j)). exact Hj.
Qed.

(** The first failure is the failure of a step before which every step
    passed. *)
Lemma first_failure_Some steps e :
  first_failure steps = Some e ↔
  ∃ j, steps !! j = Some (Some e) ∧ ∀ k, (k < j)%nat → steps !! k = Some None.
Proof.
  induction steps as [|[e'|] steps IH]; cbn.
  - split; [discriminate | intros (j & Hj & _); rewrite lookup_nil in Hj; discriminate].
  - split.
    + intros [= ->]. exists 0%nat. split; [done | intros k Hk; lia].
    + intros ([|j] & Hj & Hlt); [cbn in Hj; congruence|].
      specialize (Hlt 0%nat ltac:(lia)). cbn in Hlt. discriminate.
  - rewrite IH. split.
    + intros (j & Hj & Hlt). exists (S j). split; [done|].
      intros [|k] Hk; [done | apply Hlt; lia].
    + intros ([|j] & Hj & Hlt); [cbn in Hj; discriminate|].
      exists j. split; [done|]. intros k Hk. apply (Hlt (S k)). lia.
Qed.

(** A handle that implements [RealPin] is never registered: a step
    from (a) to (f) fails. *)
Lemma Register_rejects_RealPin p preferred st r :
  pin_Real p = Some r → ∃ e, Register p preferred st = (st, Some e).
Proof.
  intros Hreal. rewrite Register_first_failure.
  destruct (first_failure _) as [e|] eqn:Hff; [eauto|].
  rewrite first_failure_None in Hff.
  specialize (Hff 5%nat _ eq_refl). cbn in Hff. by rewrite Hreal in Hff.
Qed.

(** So is a wrapper that came out of the registry. *)
Lemma Register_rejects_wrapper fuel st k p preferred :
  as_Pin fuel st (AliasPtr k) = Some p → ∃ e, Register p preferred st = (st, Some e).
Proof.
  unfold as_Pin.
  destruct (Number fuel st (AliasPtr k)), (Real st (AliasPtr k)); try discriminate.
  intros [= <-]. by eapply Register_rejects_RealPin.
Qed.

Example Register_no_name :
  Register (mkPin EmptyString 1 EmptyString None) true empty_registry
  = (empty_registry, Some ErrPinNoName).
Proof. reflexivity. Qed.

Example Register_numeric_name :
  Register (mkPin "42" 1 "42" None) true empty_registry
  = (empty_registry, Some (ErrPinNumericName "42")).
Proof. reflexivity. Qed.

Example Register_negative_number :
  Register (mkPin "GPIO" (-1) "GPIO" None) true empty_registry
  = (empty_registry, Some (ErrPinInvalidNumber "GPIO" (-1))).
Proof. reflexivity. Qed.

(** ** RegisterAlias *)

Lemma RegisterAlias_error_unchanged alias dest st st' e :
  RegisterAlias alias dest st = (st', Some e) → st' = st.
Proof.
  unfold RegisterAlias. repeat case_match; intros [= <-]; done.
Qed.

(** C1. [Register] runs the eight checks (a) to (h) in the order of the
    specification and returns the error of the first one that fails,
    with the registry as it was; the error tells the step; and only when
    all eight pass does it insert the pin, under its number and under
    its name, in the maps of the selected tier, leaving the other tier
    and the aliases alone. *)
Theorem Register_validates_in_order (p : Pin) (preferred : bool) (st : Registry) :
  let steps := Register_steps p preferred st in
  let i := tier preferred in
  let o := other_tier preferred in
  length steps = 8%nat
  ∧ (∀ j e, steps !! j = Some (Some e) → Register_step_of e = Some j)
  ∧ (∀ e, (Register p preferred st).2 = Some e ↔
          ∃ j, steps !! j = Some (Some e) ∧ ∀ k, (k < j)%nat → steps !! k = Some None)
  ∧ (∀ e, (Register p preferred st).2 = Some e → (Register p preferred st).1 = st)
  ∧ ((Register p preferred st).2 = None ↔ ∀ j c, steps !! j = Some c → c = None)
  ∧ ((Register p preferred st).2 = None →
       let st' := (Register p preferred st).1 in
       at2 (byNumber st') i = <[pin_Number p := p]> (at2 (byNumber st) i)
       ∧ at2 (byName st') i = <[pin_Name p := p]> (at2 (byName st) i)
       ∧ at2 (byNumber st') o = at2 (byNumber st) o
       ∧ at2 (byName st') o = at2 (byName st) o
       ∧ byAlias st' = byAlias st).
Proof.
  intros steps i o.
  split; [reflexivity|].
  split; [intros j e; apply Register_steps_distinct|].
  pose proof (Register_first_failure p preferred st) as HR.
  fold steps in HR.
  destruct (first_failure steps) as [e0|] eqn:Hff; rewrite HR; cbn [fst snd].
  - apply first_failure_Some in Hff as Hj.
    repeat split; try (intros; discriminate); try done.
    + intros [= <-]. exact Hj.
    + intros Hj'. apply first_failure_Some in Hj'. congruence.
    + intros Hall. apply first_failure_None in Hall. congruence.
  - repeat split; try (intros; discriminate); try done.
    + intros Hj. apply first_failure_Some in Hj. congruence.
    + intros _. by apply first_failure_None.
    + apply at2_set2_tier.
    + apply at2_set2_tier.
    + apply (at2_set2_tier (byNumber st) preferred).
    + apply (at2_set2_tier (byName st) preferred).
Qed.

Lemma RegisterAlias_ok_dest alias dest st st1 :
  RegisterAlias alias dest st = (st1, None) →
  String.length alias ≠ 0%nat ∧ String.length dest ≠ 0%nat
  ∧ ¬ is_Some (strconv.Atoi alias)
  ∧ ∃ a, byAlias st1 !! alias = Some a ∧ pa_dest a = dest.
Proof.
  unfold RegisterAlias.
  destruct (Nat.eqb_spec (String.length alias) 0); [discriminate|].
  destruct (Nat.eqb_spec (String.length dest) 0); [discriminate|].
  case_bool_decide as Hnum; [discriminate|].
  destruct (byAlias st !! alias) as [orig|] eqn:Horig.
  - case_bool_decide as Hd; [|discriminate]. intros [= <-]. eauto 10.
  - intros [= <-]. cbn. rewrite lookup_insert_eq. eauto 10.
Qed.

(** C6. Once [RegisterAlias alias dest] has succeeded, the same call
    succeeds again and changes nothing, and the call with another
    destination fails, changes nothing, and the alias keeps its
    destination. *)
Theorem RegisterAlias_idempotent (alias dest : string) (st st1 : Registry) :
  RegisterAlias alias dest st = (st1, None) →
  RegisterAlias alias dest st1 = (st1, None)
  ∧ ∀ dest', dest' ≠ dest →
      ∃ e, RegisterAlias alias dest' st1 = (st1, Some e)
           ∧ pa_dest <$> byAlias st1 !! alias = Some dest.
Proof.
  intros Hok.
  destruct (RegisterAlias_ok_dest _ _ _ _ Hok) as (Ha & Hd & Hnum & a & Hlook & Hdest).
  split.
  - unfold RegisterAlias.
    destruct (Nat.eqb_spec (String.length alias) 0); [done|].
    destruct (Nat.eqb_spec (String.length dest) 0); [done|].
    rewrite bool_decide_eq_false_2 by done.
    rewrite Hlook. by rewrite bool_decide_eq_true_2.
  - intros dest' Hne. unfold RegisterAlias.
    destruct (Nat.eqb_spec (String.length alias) 0); [done|].
    rewrite bool_decide_eq_false_2 by done.
    rewrite Hlook. cbn. rewrite Hdest.
    destruct (Nat.eqb_spec (String.length dest') 0); [eauto|].
    rewrite bool_decide_eq_false_2 by congruence. eauto.
Qed.

(** The second registration of an alias and its redefinition, from the
    empty registry. *)
Lemma RegisterAlias_idempotent_witness :
  let st1 := (RegisterAlias "a" "b" empty_registry).1 in
  RegisterAlias "a" "b" st1 = (st1, None)
  ∧ ∀ dest', dest' ≠ "b" →
      ∃ e, RegisterAlias "a" dest' st1 = (st1, Some e)
           ∧ pa_dest <$> byAlias st1 !! "a" = Some "b".
Proof.
  exact (RegisterAlias_idempotent "a" "b" empty_registry
           (RegisterAlias "a" "b" empty_registry).1 eq_refl).
Defined.

(** ** Lookup: the function and the chain *)

Lemma Registry_eta st :
  {| byNumber := byNumber st; byName := byName st; byAlias := byAlias st |} = st.
Proof. by destruct st. Qed.

(** Storing [nil] in a record that holds [nil] changes nothing. *)
Lemma set_PinIO_None_id key a st :
  byAlias st !! key = Some a → pa_PinIO a = None → set_PinIO key None st = st.
Proof.
  intros Ha Hnil. unfold set_PinIO.
  rewrite alter_id; [apply Registry_eta|].
  intros a' Ha'. rewrite Ha in Ha'. injection Ha' as <-.
  destruct a; cbn in *; by subst.
Qed.

(** More fuel does not change a call that returned. *)
Lemma getByName_fuel_mono fuel fuel' name st x :
  getByName fuel name st = Some x → (fuel ≤ fuel')%nat →
  getByName fuel' name st = Some x.
Proof.
  revert fuel' name st x.
  induction fuel as [|fuel IH]; intros fuel' name st x; [discriminate|].
  intros H Hle. destruct fuel' as [|fuel']; [lia|].
  cbn in H |- *.
  destruct ((byName st).1 !! name); [done|].
  destruct ((byName st).2 !! name); [done|].
  destruct (byAlias st !! name) as [a|]; [|done].
  destruct (pa_PinIO a); [done|].
  destruct (getByName fuel (pa_dest a) st) as [[st' r]|] eqn:Hrec; [|discriminate].
  rewrite (IH fuel' _ _ _ Hrec) by lia. done.
Qed.

(** A lookup that finds nothing leaves the registry as it was. *)
Lemma getByName_absent_unchanged fuel name st st' :
  getByName fuel name st = Some (st', None) → st' = st.
Proof.
  revert name st st'.
  induction fuel as [|fuel IH]; intros name st st'; [discriminate|].
  cbn.
  destruct ((byName st).1 !! name); [discriminate|].
  destruct ((byName st).2 !! name); [discriminate|].
  destruct (byAlias st !! name) as [a|] eqn:Ha.
  - destruct (pa_PinIO a) eqn:Hp; [discriminate|].
    destruct (getByName fuel (pa_dest a) st) as [[st1 [h|]]|] eqn:Hrec; try discriminate.
    intros [= <-]. apply IH in Hrec as ->.
    by eapply set_PinIO_None_id.
  - destruct (strconv.Atoi name); intros ?; by simplify_eq.
Qed.

Lemma getByNumber_chain i st :
  getByNumber i st =
    match (byNumber st).1 !! i with
    | Some p => Some (Driver p)
    | None => Driver <$> (byNumber st).2 !! i
    end.
Proof.
  unfold getByNumber. destruct ((byNumber st).1 !! i); [done|].
  by destruct ((byNumber st).2 !! i).
Qed.

Lemma getByName_sound fuel name st st' r :
  getByName fuel name st = Some (st', r) → ByName_chain st name st' r.
Proof.
  revert name st st' r.
  induction fuel as [|fuel IH]; intros name st st' r; [discriminate|].
  cbn.
  destruct ((byName st).1 !! name) as [p|] eqn:H0.
  { intros [= <- <-]. by apply chain_tier0. }
  destruct ((byName st).2 !! name) as [p|] eqn:H1.
  { intros [= <- <-]. by apply chain_tier1. }
  destruct (byAlias st !! name) as [a|] eqn:Ha.
  - destruct (pa_PinIO a) as [h|] eqn:Hp.
    { intros [= <- <-]. by eapply chain_alias_resolved. }
    destruct (getByName fuel (pa_dest a) st) as [[st1 [h|]]|] eqn:Hrec; try discriminate.
    + intros [= <- <-]. eapply chain_alias_memoize; eauto.
    + intros [= <- <-].
      pose proof (getByName_absent_unchanged _ _ _ _ Hrec) as ->.
      rewrite (set_PinIO_None_id _ _ _ Ha Hp).
      eapply chain_alias_absent; eauto.
  - destruct (strconv.Atoi name) as [i|] eqn:Hi.
    + intros [= <- <-]. rewrite getByNumber_chain. by apply chain_number.
    + intros [= <- <-]. by apply chain_absent.
Qed.

Lemma getByName_complete st name st' r :
  ByName_chain st name st' r → ∃ fuel, getByName fuel name st = Some (st', r).
Proof.
  induction 1 as [st name p H0|st name p H0 H1|st name a h H0 H1 Ha Hp
                 |st name a st' h H0 H1 Ha Hp Hrec [fuel IH]
                 |st name a st' H0 H1 Ha Hp Hrec [fuel IH]
                 |st name i H0 H1 Ha Hi|st name H0 H1 Ha Hi].
  - exists 1%nat. cbn. by rewrite H0.
  - exists 1%nat. cbn. by rewrite H0, H1.
  - exists 1%nat. cbn. by rewrite H0, H1, Ha, Hp.
  - exists (S fuel). cbn. by rewrite H0, H1, Ha, Hp, IH.
  - exists (S fuel). cbn. rewrite H0, H1, Ha, Hp, IH.
    pose proof (getByName_absent_unchanged _ _ _ _ IH) as ->.
    by rewrite (set_PinIO_None_id _ _ _ Ha Hp).
  - exists 1%nat. cbn. by rewrite H0, H1, Ha, Hi, getByNumber_chain.
  - exists 1%nat. cbn. by rewrite H0, H1, Ha, Hi.
Qed.

(** Where it returns, [ByName] follows the ordered chain: a call
    returns [r] and leaves [st'] exactly when the chain (tier-0 names,
    tier-1 names, the aliases with their lazy, memoized resolution, then
    the numbers) gives [r] and [st'] for that name; and a call has one
    outcome only, whatever the depth the recursion is given. *)
Theorem ByName_follows_chain (st : Registry) (name : string)
    (st' : Registry) (r : option PinIO) :
  ((∃ fuel, ByName fuel name st = Some (st', r)) ↔ ByName_chain st name st' r)
  ∧ (∀ fuel1 fuel2 x1 x2,
       ByName fuel1 name st = Some x1 → ByName fuel2 name st = Some x2 → x1 = x2).
Proof.
  unfold ByName. split; [split|].
  - intros [fuel H]. by eapply getByName_sound.
  - apply getByName_complete.
  - intros fuel1 fuel2 x1 x2 H1 H2.
    apply (getByName_fuel_mono _ (fuel1 + fuel2)) in H1; [|lia].
    apply (getByName_fuel_mono _ (fuel1 + fuel2)) in H2; [|lia].
    congruence.
Qed.

(** ** Alias cycles *)

(** An unresolved alias whose destination is its own name, and which no
    pin name hides: every nested call meets the same record in the same
    state and calls again. *)
Lemma getByName_self_alias st name a :
  (byName st).1 !! name = None → (byName st).2 !! name = None →
  byAlias st !! name = Some a → pa_PinIO a = None → pa_dest a = name →
  ∀ fuel, getByName fuel name st = None.
Proof.
  intros H0 H1 Ha Hp Hd fuel.
  induction fuel as [|fuel IH]; [done|].
  cbn. by rewrite H0, H1, Ha, Hp, Hd, IH.
Qed.

(** The same for a cycle of two, [name] to [name'] and back. *)
Lemma getByName_two_cycle st name name' a a' :
  (byName st).1 !! name = None → (byName st).2 !! name = None →
  (byName st).1 !! name' = None → (byName st).2 !! name' = None →
  byAlias st !! name = Some a → pa_PinIO a = None → pa_dest a = name' →
  byAlias st !! name' = Some a' → pa_PinIO a' = None → pa_dest a' = name →
  ∀ fuel, getByName fuel name st = None.
Proof.
  intros H0 H1 H0' H1' Ha Hp Hd Ha' Hp' Hd' fuel.
  induction (lt_wf fuel) as [fuel _ IH].
  destruct fuel as [|[|fuel]]; [done| |]; cbn.
  - by rewrite H0, H1, Ha, Hp.
  - rewrite H0, H1, Ha, Hp, Hd, H0', H1', Ha', Hp', Hd'.
    rewrite (IH fuel) by lia. done.
Qed.

(** C3. After [RegisterAlias("a","a")], which succeeds, [ByName("a")]
    does not return: whatever depth the recursion is given, the call
    needs more, and the chain of the lookup has no outcome.  The claim
    asks for a return of absent. *)
Theorem ByName_alias_cycle_never_returns :
  let st := (RegisterAlias "a" "a" empty_registry).1 in
  (RegisterAlias "a" "a" empty_registry).2 = None
  ∧ reachable st
  ∧ (∀ fuel, ByName fuel "a" st = None)
  ∧ (∀ st' r, ¬ ByName_chain st "a" st' r).
Proof.
  intros st.
  assert (∀ fuel, ByName fuel "a" st = None) as Hdiv.
  { apply (getByName_self_alias st "a"
             {| pa_PinIO := None; pa_name := "a"; pa_dest := "a" |}); reflexivity. }
  split; [reflexivity|]. split; [apply reach_RegisterAlias, reach_init|].
  split; [exact Hdiv|].
  intros st' r [fuel H]%getByName_complete.
  unfold ByName in Hdiv. rewrite Hdiv in H. discriminate.
Qed.

(** C2. The chain of [ByName] has no end on a cycle of aliases.  After
    [RegisterAlias("a","b")] and [RegisterAlias("b","a")], which both
    return nil, no table holds a pin under [a] or [b]: the name maps and
    the number maps are empty, neither string is a number, and neither
    alias is resolved.  The claim has [ByName("a")] return absent there;
    the call does not return, whatever depth the recursion is given: it
    goes from the record of [a] to that of [b] and back. *)
Theorem ByName_chain_has_no_end_on_cycle :
  (RegisterAlias "a" "b" empty_registry).2 = None
  ∧ (RegisterAlias "b" "a" (RegisterAlias "a" "b" empty_registry).1).2 = None
  ∧ reachable alias_cycle
  ∧ byName alias_cycle = (∅, ∅) ∧ byNumber alias_cycle = (∅, ∅)
  ∧ strconv.Atoi "a" = None ∧ strconv.Atoi "b" = None
  ∧ (∀ k a, byAlias alias_cycle !! k = Some a →
       pa_PinIO a = None ∧ (k = "a" ∧ pa_dest a = "b" ∨ k = "b" ∧ pa_dest a = "a"))
  ∧ (∀ fuel, ByName fuel "a" alias_cycle = None)
  ∧ (∀ fuel, ByName fuel "b" alias_cycle = None).
Proof.
  pose (ra := {| pa_PinIO := None; pa_name := "a"; pa_dest := "b" |}).
  pose (rb := {| pa_PinIO := None; pa_name := "b"; pa_dest := "a" |}).
  assert (byAlias alias_cycle = <["b" := rb]> (<["a" := ra]> ∅)) as Hal by reflexivity.
  split; [reflexivity|]. split; [reflexivity|].
  split; [do 2 apply reach_RegisterAlias; apply reach_init|].
  split; [reflexivity|]. split; [reflexivity|].
  split; [reflexivity|]. split; [reflexivity|].
  split.
  { intros k a. rewrite Hal.
    destruct (decide (k = "b")) as [->|Hb].
    { rewrite lookup_insert_eq. intros [= <-]. split; [done|]. by right. }
    rewrite lookup_insert_ne by done.
    destruct (decide (k = "a")) as [->|Ha].
    { rewrite lookup_insert_eq. intros [= <-]. split; [done|]. by left. }
    rewrite lookup_insert_ne by done. by rewrite lookup_empty. }
  unfold ByName. split.
  - apply (getByName_two_cycle alias_cycle "a" "b" ra rb); reflexivity.
  - apply (getByName_two_cycle alias_cycle "b" "a" rb ra); reflexivity.
Qed.

(** ** The binary search and the sorted insertion *)

(** While the loop runs, [f] is false below [lo] and true from [hi] on;
    it ends with the two meeting. *)
Lemma search_loop_spec (f : nat → bool) (n rounds lo hi : nat) :
  (∀ j k, (j ≤ k < n)%nat → f j = true → f k = true) →
  (hi - lo ≤ rounds)%nat → (lo ≤ hi ≤ n)%nat →
  (∀ j, (j < lo)%nat → f j = false) →
  (∀ j, (hi ≤ j < n)%nat → f j = true) →
  let i := search_loop rounds f lo hi in
  (i ≤ n)%nat ∧ (∀ j, (j < i)%nat → f j = false) ∧ (∀ j, (i ≤ j < n)%nat → f j = true).
Proof.
  intros Hmono. revert lo hi.
  induction rounds as [|rounds IH]; intros lo hi Hr Hb Hlo Hhi; cbn [search_loop].
  - assert (lo = hi) as -> by lia. split; [lia|]. split; auto.
  - destruct (Nat.ltb_spec lo hi) as [Hlt|Hge].
    + pose proof (Nat.div_mod_eq (lo + hi) 2) as Hdiv.
      pose proof (Nat.mod_upper_bound (lo + hi) 2 ltac:(lia)) as Hmod.
      set (i := ((lo + hi) / 2)%nat) in *.
      destruct (f i) eqn:Hf; cbn [negb].
      * apply IH; [lia|lia|done|].
        intros j Hj. apply (Hmono i); [lia|done].
      * apply IH; [lia|lia| |done].
        intros j Hj. destruct (f j) eqn:Hfj; [|done].
        rewrite <- Hf. symmetry. apply (Hmono j); [lia|done].
    + assert (lo = hi) as -> by lia. split; [lia|]. split; auto.
Qed.

Lemma search_spec (f : nat → bool) (n : nat) :
  (∀ j k, (j ≤ k < n)%nat → f j = true → f k = true) →
  let i := search n f in
  (i ≤ n)%nat ∧ (∀ j, (j < i)%nat → f j = false) ∧ (∀ j, (i ≤ j < n)%nat → f j = true).
Proof.
  intros Hmono. unfold search.
  apply search_loop_spec; [done|lia|lia|intros; lia|intros; lia].
Qed.

Lemma insert_at_perm {A} (l : list A) i p : insert_at l i p ≡ₚ p :: l.
Proof.
  unfold insert_at. rewrite <- Permutation_middle.
  by rewrite take_drop.
Qed.

Section sorted_insert.
Context {A : Type} (le : relation A) (gtb : A → A → bool).
Context `{!Transitive le}.
Hypothesis gtb_true : ∀ p q, gtb p q = true → le p q ∧ ¬ le q p.
Hypothesis gtb_false : ∀ p q, gtb p q = false → le q p.

Lemma after_mono l p :
  StronglySorted le l →
  ∀ j k, (j ≤ k < length l)%nat → after gtb l p j = true → after gtb l p k = true.
Proof.
  intros Hs j k Hjk. unfold after.
  destruct (l !! j) as [qj|] eqn:Hj; [|done].
  destruct (lookup_lt_is_Some_2 l k) as [qk Hk]; [lia|]. rewrite Hk.
  intros [Hle Hn]%gtb_true.
  destruct (gtb p qk) eqn:Hg; [done|]. apply gtb_false in Hg.
  destruct (decide (j = k)) as [->|Hne]; [congruence|].
  exfalso. apply Hn. etrans; [|exact Hg].
  rewrite <- (take_drop_middle l j qj Hj) in Hs, Hk.
  apply StronglySorted_app_1_r, StronglySorted_cons in Hs as [Hall _].
  rewrite Forall_forall in Hall. apply Hall.
  rewrite lookup_app_r in Hk by (rewrite length_take; lia).
  rewrite length_take, Nat.min_l in Hk by (apply lookup_lt_Some in Hj; lia).
  destruct (k - j)%nat as [|d] eqn:Hd; [lia|]. cbn in Hk.
  by eapply list_elem_of_lookup_2.
Qed.

(** Inserting where the search says keeps a sorted list sorted. *)
Lemma insert_sorted l p :
  StronglySorted le l →
  StronglySorted le (insert_at l (search (length l) (after gtb l p)) p).
Proof.
  intros Hs.
  destruct (search_spec (after gtb l p) (length l) (after_mono l p Hs))
    as (Hi & Hbefore & Hafter).
  set (i := search (length l) (after gtb l p)) in *.
  unfold insert_at.
  rewrite <- (take_drop i l) in Hs.
  apply StronglySorted_app in Hs as (Hcross & Hs1 & Hs2).
  assert (∀ q, q ∈ take i l → le q p) as H1.
  { intros q [j Hj]%list_elem_of_lookup.
    pose proof (lookup_lt_Some _ _ _ Hj) as Hlt. rewrite length_take in Hlt.
    rewrite lookup_take_lt in Hj by lia.
    specialize (Hbefore j ltac:(lia)). unfold after in Hbefore.
    rewrite Hj in Hbefore. by apply gtb_false. }
  assert (∀ q, q ∈ drop i l → le p q) as H2.
  { intros q [j Hj]%list_elem_of_lookup.
    rewrite lookup_drop in Hj.
    pose proof (lookup_lt_Some _ _ _ Hj) as Hlt.
    specialize (Hafter (i + j)%nat ltac:(lia)). unfold after in Hafter.
    rewrite Hj in Hafter. by apply gtb_true in Hafter as [? _]. }
  apply StronglySorted_app_2; [|done|].
  - intros x1 x2 Hx1 [->|Hx2]%elem_of_cons; [by apply H1 | by apply Hcross].
  - apply StronglySorted_cons. split; [|done].
    rewrite Forall_forall. exact H2.
Qed.
End sorted_insert.

(** ** The invariant holds in every state the package reaches *)

(** What a successful [Register] tells about the pin and the state. *)
Lemma Register_ok_facts p preferred st st' :
  Register p preferred st = (st', None) →
  pin_Name p ≠ EmptyString
  ∧ strconv.Atoi (pin_Name p) = None
  ∧ 0 ≤ pin_Number p
  ∧ at2 (byNumber st) (tier preferred) !! pin_Number p = None
  ∧ at2 (byName st) (tier preferred) !! pin_Name p = None
  ∧ pin_Real p = None
  ∧ byAlias st !! pin_Name p = None
  ∧ (∀ q, at2 (byName st) (other_tier preferred) !! pin_Name p = Some q →
          pin_Number q = pin_Number p)
  ∧ st' = Register_inserted p preferred st.
Proof.
  intros H. pose proof (Register_ok_inserted _ _ _ _ H) as Hst.
  pose proof (Register_first_failure p preferred st) as HR.
  rewrite H in HR.
  destruct (first_failure _) eqn:Hff; [discriminate|].
  rewrite first_failure_None in Hff.
  pose proof (Hff 0%nat _ eq_refl) as Ha.
  pose proof (Hff 1%nat _ eq_refl) as Hb.
  pose proof (Hff 2%nat _ eq_refl) as Hc.
  pose proof (Hff 3%nat _ eq_refl) as Hd.
  pose proof (Hff 4%nat _ eq_refl) as He.
  pose proof (Hff 5%nat _ eq_refl) as Hf.
  pose proof (Hff 6%nat _ eq_refl) as Hg.
  pose proof (Hff 7%nat _ eq_refl) as Hh.
  clear Hff HR. cbn beta in *.
  repeat case_decide; try discriminate.
  split; [done|].
  split. { destruct (strconv.Atoi (pin_Name p)); [exfalso; eauto | done]. }
  split; [lia|].
  split. { by destruct (_ !! pin_Number p). }
  split. { by destruct (at2 (byName st) (tier preferred) !! pin_Name p). }
  split. { by destruct (pin_Real p). }
  split. { by destruct (byAlias st !! pin_Name p). }
  split; [|done].
  intros q Hq. rewrite Hq in Hh. by case_decide.
Qed.

(** The maps of the two tiers after the insertion. *)
Lemma Register_inserted_tiers p preferred st :
  (byName (Register_inserted p preferred st)).1 =
    (if preferred then <[pin_Name p := p]> (byName st).1 else (byName st).1)
  ∧ (byName (Register_inserted p preferred st)).2 =
    (if preferred then (byName st).2 else <[pin_Name p := p]> (byName st).2)
  ∧ (byNumber (Register_inserted p preferred st)).1 =
    (if preferred then <[pin_Number p := p]> (byNumber st).1 else (byNumber st).1)
  ∧ (byNumber (Register_inserted p preferred st)).2 =
    (if preferred then (byNumber st).2 else <[pin_Number p := p]> (byNumber st).2)
  ∧ byAlias (Register_inserted p preferred st) = byAlias st.
Proof. by destruct preferred. Qed.

Lemma getByNumber_Register_mono p preferred st i :
  at2 (byNumber st) (tier preferred) !! pin_Number p = None →
  is_Some (getByNumber i st) → is_Some (getByNumber i (Register_inserted p preferred st)).
Proof.
  intros Hfresh. unfold getByNumber.
  destruct (Register_inserted_tiers p preferred st) as (_ & _ & -> & -> & _).
  destruct preferred; cbn in Hfresh.
  - destruct (decide (i = pin_Number p)) as [->|Hne].
    + by rewrite lookup_insert_eq.
    + by rewrite lookup_insert_ne.
  - destruct ((byNumber st).1 !! i); [done|].
    destruct (decide (i = pin_Number p)) as [->|Hne].
    + by rewrite lookup_insert_eq.
    + by rewrite lookup_insert_ne.
Qed.

(** A destination that resolves keeps resolving when a pin is added. *)
Lemma lookup_ends_Register_mono p preferred st name b :
  strconv.Atoi (pin_Name p) = None →
  at2 (byNumber st) (tier preferred) !! pin_Number p = None →
  byAlias st !! pin_Name p = None →
  lookup_ends st name b → b = true →
  lookup_ends (Register_inserted p preferred st) name true.
Proof.
  intros Hnum Hfresh Hnoalias Hends.
  destruct (Register_inserted_tiers p preferred st) as (E0 & E1 & _ & _ & EA).
  induction Hends as [name q H0|name q H0 H1|name a h H0 H1 Ha Hp
                     |name a b H0 H1 Ha Hp Hrec IH|name i H0 H1 Ha Hi|name H0 H1 Ha Hi];
    intros Hb.
  - destruct (decide (name = pin_Name p)) as [->|Hne].
    + destruct preferred.
      * eapply ends_tier0. rewrite E0. apply lookup_insert_eq.
      * eapply ends_tier0. rewrite E0. exact H0.
    + eapply ends_tier0. rewrite E0.
      destruct preferred; [by rewrite lookup_insert_ne|done].
  - destruct preferred.
    + destruct (decide (name = pin_Name p)) as [->|Hne].
      * eapply ends_tier0. rewrite E0. apply lookup_insert_eq.
      * eapply ends_tier1; [rewrite E0; by rewrite lookup_insert_ne|rewrite E1; done].
    + destruct (decide (name = pin_Name p)) as [->|Hne].
      * eapply ends_tier1; [by rewrite E0|rewrite E1; apply lookup_insert_eq].
      * eapply ends_tier1; [by rewrite E0|rewrite E1; by rewrite lookup_insert_ne].
  - assert (name ≠ pin_Name p) as Hne by congruence.
    eapply ends_resolved; [| |rewrite EA; done|done].
    + rewrite E0. destruct preferred; [by rewrite lookup_insert_ne|done].
    + rewrite E1. destruct preferred; [done|by rewrite lookup_insert_ne].
  - assert (name ≠ pin_Name p) as Hne by congruence.
    eapply ends_unresolved; [| |rewrite EA; done|done|by apply IH].
    + rewrite E0. destruct preferred; [by rewrite lookup_insert_ne|done].
    + rewrite E1. destruct preferred; [done|by rewrite lookup_insert_ne].
  - assert (name ≠ pin_Name p) as Hne by congruence.
    apply bool_decide_eq_true_1 in Hb.
    apply (getByNumber_Register_mono p preferred) in Hb; [|done].
    rewrite <- (bool_decide_eq_true_2 _ Hb).
    apply ends_number; [| |by rewrite EA|done].
    + rewrite E0. destruct preferred; [by rewrite lookup_insert_ne|done].
    + rewrite E1. destruct preferred; [done|by rewrite lookup_insert_ne].
  - discriminate.
Qed.

Lemma wf_empty : wf empty_registry.
Proof.
  split; cbn.
  - intros [|i] n p; cbn; by rewrite lookup_empty.
  - intros [|i] s p; cbn; by rewrite lookup_empty.
  - intros [|i] s p; cbn; by rewrite lookup_empty.
  - intros s p q; by rewrite lookup_empty.
  - intros k a; by rewrite lookup_empty.
  - intros k a h; by rewrite lookup_empty.
Qed.

Lemma wf_Register p preferred st :
  wf st → strconv.is_int (pin_Number p) → wf (Register p preferred st).1.
Proof.
  intros Hwf Hint.
  destruct (Register p preferred st) as [st' [e|]] eqn:HR; cbn.
  { by rewrite (Register_error_unchanged _ _ _ _ _ HR). }
  destruct (Register_ok_facts _ _ _ _ HR)
    as (Hne & Hnum & Hpos & HfreshN & HfreshS & Hreal & Hnoalias & Hother & ->).
  destruct (Register_inserted_tiers p preferred st) as (E0 & E1 & N0 & N1 & EA).
  destruct Hwf as [WN WS WP WT WA WM].
  split.
  - intros i n q. pose proof (WN i n q) as W.
    destruct i as [|i], preferred; cbn [at2 tier] in *;
      rewrite ?E0, ?E1, ?N0, ?N1; try exact W.
    + destruct (decide (pin_Number p = n)) as [<-|Hn].
      * rewrite lookup_insert_eq. intros [= <-]. by rewrite lookup_insert_eq.
      * rewrite lookup_insert_ne by done. intros Hq.
        destruct (W Hq) as [? Hs]. split; [done|].
        rewrite lookup_insert_ne; [done|]. congruence.
    + destruct (decide (pin_Number p = n)) as [<-|Hn].
      * rewrite lookup_insert_eq. intros [= <-]. by rewrite lookup_insert_eq.
      * rewrite lookup_insert_ne by done. intros Hq.
        destruct (W Hq) as [? Hs]. split; [done|].
        rewrite lookup_insert_ne; [done|]. congruence.
  - intros i s q. pose proof (WS i s q) as W.
    destruct i as [|i], preferred; cbn [at2 tier] in *;
      rewrite ?E0, ?E1, ?N0, ?N1; try exact W.
    + destruct (decide (pin_Name p = s)) as [<-|Hn].
      * rewrite lookup_insert_eq. intros [= <-]. by rewrite lookup_insert_eq.
      * rewrite lookup_insert_ne by done. intros Hq.
        destruct (W Hq) as [? Hs]. split; [done|].
        rewrite lookup_insert_ne; [done|]. congruence.
    + destruct (decide (pin_Name p = s)) as [<-|Hn].
      * rewrite lookup_insert_eq. intros [= <-]. by rewrite lookup_insert_eq.
      * rewrite lookup_insert_ne by done. intros Hq.
        destruct (W Hq) as [? Hs]. split; [done|].
        rewrite lookup_insert_ne; [done|]. congruence.
  - intros i s q. pose proof (WP i s q) as W.
    destruct i as [|i], preferred; cbn [at2 tier] in *;
      rewrite ?E0, ?E1, ?N0, ?N1; try exact W.
    + destruct (decide (pin_Name p = s)) as [<-|Hn].
      * rewrite lookup_insert_eq. intros [= <-]. done.
      * by rewrite lookup_insert_ne.
    + destruct (decide (pin_Name p = s)) as [<-|Hn].
      * rewrite lookup_insert_eq. intros [= <-]. done.
      * by rewrite lookup_insert_ne.
  - intros s q0 q1. rewrite E0, E1. pose proof (WT s q0 q1) as W.
    destruct preferred; cbn [other_tier tier at2] in *.
    + destruct (decide (pin_Name p = s)) as [<-|Hn].
      * rewrite lookup_insert_eq. intros [= <-] Hq1. symmetry. by apply Hother.
      * by rewrite lookup_insert_ne.
    + destruct (decide (pin_Name p = s)) as [<-|Hn].
      * rewrite lookup_insert_eq. intros Hq0 [= <-]. by apply Hother.
      * by rewrite lookup_insert_ne.
  - intros k a. rewrite EA. apply WA.
  - intros k a h. rewrite EA. intros Ha Hp.
    eapply lookup_ends_Register_mono; eauto.
Qed.

(** What [RegisterAlias] does when it adds a record. *)
Lemma RegisterAlias_cases alias dest st :
  (RegisterAlias alias dest st).1 = st
  ∨ (alias ≠ EmptyString ∧ dest ≠ EmptyString ∧ strconv.Atoi alias = None
     ∧ byAlias st !! alias = None
     ∧ (RegisterAlias alias dest st).1 =
         {| byNumber := byNumber st; byName := byName st;
            byAlias := <[alias := {| pa_PinIO := None; pa_name := alias; pa_dest := dest |}]>
                         (byAlias st) |}).
Proof.
  unfold RegisterAlias. rewrite !length_zero_empty.
  case_bool_decide; [by left|].
  case_bool_decide; [by left|].
  case_bool_decide as Hnum; [by left|].
  destruct (byAlias st !! alias) eqn:Ha.
  - left. by case_bool_decide.
  - right. repeat split; try done.
    destruct (strconv.Atoi alias); [exfalso; eauto|done].
Qed.

(** A destination that resolves keeps resolving when an alias is added. *)
Lemma lookup_ends_alias_mono alias a st name b :
  strconv.Atoi alias = None → byAlias st !! alias = None →
  lookup_ends st name b → b = true →
  lookup_ends {| byNumber := byNumber st; byName := byName st;
                 byAlias := <[alias := a]> (byAlias st) |} name true.
Proof.
  intros Hnum Hfresh Hends.
  induction Hends as [name q H0|name q H0 H1|name a' h H0 H1 Ha Hp
                     |name a' b H0 H1 Ha Hp Hrec IH|name i H0 H1 Ha Hi|name H0 H1 Ha Hi];
    intros Hb.
  - by eapply ends_tier0.
  - by eapply ends_tier1.
  - eapply ends_resolved; [done|done| |done].
    cbn. rewrite lookup_insert_ne; [done|congruence].
  - eapply ends_unresolved; [done|done| |done|by apply IH].
    cbn. rewrite lookup_insert_ne; [done|congruence].
  - apply bool_decide_eq_true_1 in Hb.
    rewrite <- (bool_decide_eq_true_2 (is_Some (getByNumber i _)) Hb).
    apply (ends_number {| byNumber := byNumber st; byName := byName st;
                          byAlias := <[alias := a]> (byAlias st) |} name i);
      [done|done| |done].
    cbn. rewrite lookup_insert_ne; [done|congruence].
  - discriminate.
Qed.

Lemma wf_RegisterAlias alias dest st :
  wf st → wf (RegisterAlias alias dest st).1.
Proof.
  intros Hwf.
  destruct (RegisterAlias_cases alias dest st)
    as [->|(Ha & Hd & Hnum & Hfresh & ->)]; [done|].
  destruct Hwf as [WN WS WP WT WA WM].
  split; cbn; try done.
  - intros k a. destruct (decide (alias = k)) as [<-|Hne].
    + rewrite lookup_insert_eq. intros [= <-]. done.
    + rewrite lookup_insert_ne by done. apply WA.
  - intros k a h. destruct (decide (alias = k)) as [<-|Hne].
    + rewrite lookup_insert_eq. intros [= <-]. done.
    + rewrite lookup_insert_ne by done. intros Hk Hp.
      eapply lookup_ends_alias_mono; eauto.
Qed.

(** ** Memoization does not change what resolves *)

Lemma lookup_ends_det st name b1 b2 :
  lookup_ends st name b1 → lookup_ends st name b2 → b1 = b2.
Proof.
  intros Hends1. revert b2.
  induction Hends1; intros b2 Hends2; inversion Hends2; subst; simplify_eq;
    try done; eauto.
Qed.

Lemma memo_ext_refl st : memo_ext st st.
Proof.
  split; [done|]. split; [done|].
  intros k. destruct (byAlias st !! k); [|done]. auto.
Qed.

Lemma memo_ext_alias st st' k a :
  memo_ext st st' → byAlias st !! k = Some a →
  ∃ a', byAlias st' !! k = Some a' ∧ pa_name a' = pa_name a ∧ pa_dest a' = pa_dest a
        ∧ (pa_PinIO a' = pa_PinIO a
           ∨ (pa_PinIO a = None ∧ is_Some (pa_PinIO a') ∧ lookup_ends st (pa_dest a) true)).
Proof.
  intros (_ & _ & H) Ha. specialize (H k). rewrite Ha in H.
  destruct (byAlias st' !! k) as [a'|]; [|done]. eauto.
Qed.

Lemma memo_ext_alias_inv st st' k a' :
  memo_ext st st' → byAlias st' !! k = Some a' →
  ∃ a, byAlias st !! k = Some a ∧ pa_name a' = pa_name a ∧ pa_dest a' = pa_dest a
       ∧ (pa_PinIO a' = pa_PinIO a
          ∨ (pa_PinIO a = None ∧ is_Some (pa_PinIO a') ∧ lookup_ends st (pa_dest a) true)).
Proof.
  intros (_ & _ & H) Ha. specialize (H k). rewrite Ha in H.
  destruct (byAlias st !! k) as [a|]; [|done]. eauto.
Qed.

Lemma memo_ext_no_alias st st' k :
  memo_ext st st' → byAlias st !! k = None ↔ byAlias st' !! k = None.
Proof.
  intros (_ & _ & HA). specialize (HA k).
  destruct (byAlias st !! k), (byAlias st' !! k); try done; split; done.
Qed.

Lemma getByNumber_ext st st' i :
  byNumber st' = byNumber st → getByNumber i st' = getByNumber i st.
Proof. unfold getByNumber. by intros ->. Qed.

Lemma memo_ext_ends st st' name b :
  memo_ext st st' → lookup_ends st name b → lookup_ends st' name b.
Proof.
  intros Hext Hends. pose proof Hext as (EN & ES & _).
  induction Hends as [name q H0|name q H0 H1|name a h H0 H1 Ha Hp
                     |name a b H0 H1 Ha Hp Hrec IH|name i H0 H1 Ha Hi|name H0 H1 Ha Hi].
  - eapply ends_tier0. by rewrite ES.
  - eapply ends_tier1; by rewrite ES.
  - destruct (memo_ext_alias _ _ _ _ Hext Ha) as (a' & Ha' & _ & _ & [Hp'|(Hn & _)]).
    + eapply ends_resolved; rewrite ?ES; eauto. by rewrite Hp'.
    + congruence.
  - destruct (memo_ext_alias _ _ _ _ Hext Ha) as (a' & Ha' & _ & Hd & [Hp'|(_ & [h Hs] & Ht)]).
    + eapply ends_unresolved; rewrite ?ES; eauto; [congruence|by rewrite Hd].
    + rewrite (lookup_ends_det _ _ _ _ Hrec Ht).
      eapply ends_resolved; rewrite ?ES; eauto.
  - rewrite <- (getByNumber_ext st st' i EN).
    apply ends_number; rewrite ?ES; try done.
    by apply (memo_ext_no_alias st st').
  - apply ends_absent; rewrite ?ES; try done.
    by apply (memo_ext_no_alias st st').
Qed.

Lemma memo_ext_ends_inv st st' name b :
  memo_ext st st' → lookup_ends st' name b → lookup_ends st name b.
Proof.
  intros Hext Hends. pose proof Hext as (EN & ES & _).
  induction Hends as [name q H0|name q H0 H1|name a' h H0 H1 Ha Hp
                     |name a' b H0 H1 Ha Hp Hrec IH|name i H0 H1 Ha Hi|name H0 H1 Ha Hi];
    rewrite ?ES in *.
  - by eapply ends_tier0.
  - by eapply ends_tier1.
  - destruct (memo_ext_alias_inv _ _ _ _ Hext Ha) as (a & Ha0 & _ & _ & [Hp'|(Hn & _ & Ht)]).
    + eapply ends_resolved; eauto. by rewrite <- Hp'.
    + eapply ends_unresolved; eauto.
  - destruct (memo_ext_alias_inv _ _ _ _ Hext Ha) as (a & Ha0 & _ & Hd & [Hp'|(_ & [h Hs] & _)]).
    + eapply ends_unresolved; eauto; [congruence|by rewrite <- Hd].
    + congruence.
  - rewrite (getByNumber_ext st st' i EN).
    apply ends_number; try done.
    by apply (memo_ext_no_alias st st').
  - apply ends_absent; try done.
    by apply (memo_ext_no_alias st st').
Qed.

Lemma memo_ext_trans st1 st2 st3 :
  memo_ext st1 st2 → memo_ext st2 st3 → memo_ext st1 st3.
Proof.
  intros H12 H23.
  pose proof H12 as (EN & ES & HA). pose proof H23 as (EN' & ES' & HA').
  split; [congruence|]. split; [congruence|].
  intros k. specialize (HA k). specialize (HA' k).
  destruct (byAlias st1 !! k) as [a1|], (byAlias st2 !! k) as [a2|],
    (byAlias st3 !! k) as [a3|]; try done.
  destruct HA as (Hn & Hd & HP), HA' as (Hn' & Hd' & HP').
  split; [congruence|]. split; [congruence|].
  destruct HP' as [HP'|(Hnone & Hsome & Ht)].
  - rewrite HP'. done.
  - right. destruct HP as [HP|(Hnone' & [h Hsome'] & _)]; [|congruence].
    split; [congruence|]. split; [done|].
    rewrite <- Hd. by eapply memo_ext_ends_inv.
Qed.

(** Writing a pin into a record that the earlier state has unresolved,
    and whose destination resolved there. *)
Lemma memo_ext_set_PinIO st st1 k a h :
  memo_ext st st1 → byAlias st !! k = Some a → pa_PinIO a = None →
  lookup_ends st (pa_dest a) true →
  memo_ext st (set_PinIO k (Some h) st1).
Proof.
  intros Hext Ha Hp Ht. pose proof Hext as (EN & ES & HA).
  split; [done|]. split; [done|].
  intros k'. cbn. specialize (HA k').
  destruct (decide (k = k')) as [<-|Hne].
  - rewrite lookup_alter_eq. rewrite Ha in HA |- *.
    destruct (byAlias st1 !! k) as [a1|]; [|done]. cbn.
    destruct HA as (? & ? & _). rewrite Hp. eauto 10.
  - by rewrite lookup_alter_ne.
Qed.

Lemma chain_ends st name st' r :
  ByName_chain st name st' r → lookup_ends st name (bool_decide (is_Some r)).
Proof.
  induction 1 as [st name p H0|st name p H0 H1|st name a h H0 H1 Ha Hp
                 |st name a st' h H0 H1 Ha Hp Hrec IH
                 |st name a st' H0 H1 Ha Hp Hrec IH
                 |st name i H0 H1 Ha Hi|st name H0 H1 Ha Hi].
  - by eapply ends_tier0.
  - by eapply ends_tier1.
  - by eapply ends_resolved.
  - by eapply ends_unresolved.
  - by eapply ends_unresolved.
  - rewrite <- getByNumber_chain. by apply ends_number.
  - by apply ends_absent.
Qed.

Lemma chain_memo_ext st name st' r :
  ByName_chain st name st' r → memo_ext st st'.
Proof.
  induction 1 as [st name p H0|st name p H0 H1|st name a h H0 H1 Ha Hp
                 |st name a st' h H0 H1 Ha Hp Hrec IH
                 |st name a st' H0 H1 Ha Hp Hrec IH
                 |st name i H0 H1 Ha Hi|st name H0 H1 Ha Hi];
    try apply memo_ext_refl.
  eapply memo_ext_set_PinIO; eauto.
  by apply chain_ends in Hrec.
Qed.

(** A lookup that ends has an outcome in the chain. *)
Lemma ends_chain st name b :
  lookup_ends st name b →
  ∃ st' r, ByName_chain st name st' r ∧ bool_decide (is_Some r) = b.
Proof.
  induction 1 as [name q H0|name q H0 H1|name a h H0 H1 Ha Hp
                 |name a b H0 H1 Ha Hp Hrec (st' & r & IH & Hb)
                 |name i H0 H1 Ha Hi|name H0 H1 Ha Hi].
  - eexists _, _. split; [by eapply chain_tier0|done].
  - eexists _, _. split; [by eapply chain_tier1|done].
  - eexists _, _. split; [by eapply chain_alias_resolved|done].
  - destruct r as [h|].
    + eexists _, _. split; [by eapply chain_alias_memoize|]. by rewrite <- Hb.
    + eexists _, _. split; [by eapply chain_alias_absent|]. by rewrite <- Hb.
  - eexists _, _. split; [by eapply chain_number|]. by rewrite getByNumber_chain.
  - eexists _, _. split; [by eapply chain_absent|done].
Qed.

Lemma resolves_ends st name : resolves st name ↔ lookup_ends st name true.
Proof.
  split.
  - intros (st' & h & Hc). by apply chain_ends in Hc.
  - intros (st' & [h|] & Hc & Hb)%ends_chain; [by exists st', h|done].
Qed.

Lemma wf_memo_ext st st' : wf st → memo_ext st st' → wf st'.
Proof.
  intros [WN WS WP WT WA WM] Hext. pose proof Hext as (EN & ES & HA).
  split; rewrite ?EN, ?ES; try done.
  - intros k a' (a & Ha & Hn & Hd & _)%(memo_ext_alias_inv st st'); [|done].
    rewrite Hn, Hd. by eapply WA.
  - intros k a' h Ha' Hp.
    destruct (memo_ext_alias_inv _ _ _ _ Hext Ha') as (a & Ha & Hn & Hd & [HP|(_ & _ & Ht)]).
    + rewrite Hd. eapply memo_ext_ends; [done|]. eapply WM; [done|]. by rewrite <- HP.
    + rewrite Hd. by eapply memo_ext_ends.
Qed.

Lemma getByName_memo_ext fuel name st st' r :
  getByName fuel name st = Some (st', r) → memo_ext st st'.
Proof. intros H%getByName_sound. by eapply chain_memo_ext. Qed.

(** The record an iteration of [Aliases] writes to. *)
Lemma memo_ext_loop_step fuel st st1 k a r :
  byAlias st !! k = Some a → pa_PinIO a = None →
  getByName fuel (pa_dest a) st = Some (st1, r) →
  memo_ext st (set_PinIO k r st1).
Proof.
  intros Ha Hp Hrec. destruct r as [h|].
  - eapply memo_ext_set_PinIO; eauto.
    + by eapply getByName_memo_ext.
    + apply getByName_sound in Hrec. by apply chain_ends in Hrec.
  - apply getByName_absent_unchanged in Hrec as ->.
    rewrite (set_PinIO_None_id _ _ _ Ha Hp). apply memo_ext_refl.
Qed.

Lemma Aliases_loop_memo_ext fuel keys out st st' out' :
  Aliases_loop fuel keys out st = Some (st', out') → memo_ext st st'.
Proof.
  revert out st.
  induction keys as [|k keys IH]; intros out st; cbn.
  { intros [= <- _]. apply memo_ext_refl. }
  destruct (byAlias st !! k) as [a|] eqn:Ha; [|apply IH].
  destruct (pa_PinIO a) eqn:Hp; [apply IH|].
  destruct (getByName fuel (pa_dest a) st) as [[st1 r]|] eqn:Hrec; [|discriminate].
  pose proof (memo_ext_loop_step _ _ _ _ _ _ Ha Hp Hrec) as Hext.
  destruct r; intros H%IH; by eapply memo_ext_trans.
Qed.

(** Every state the package reaches satisfies the invariant. *)
Lemma reachable_wf st : reachable st → wf st.
Proof.
  induction 1 as [|st p preferred _ IH Hint|st alias dest _ IH
                 |st fuel name st' r _ IH Hby|st fuel kvs st' out _ IH _ Hal].
  - apply wf_empty.
  - by apply wf_Register.
  - by apply wf_RegisterAlias.
  - eapply wf_memo_ext; [done|]. by eapply getByName_memo_ext.
  - eapply wf_memo_ext; [done|]. by eapply Aliases_loop_memo_ext.
Qed.

(** ** All *)

#[local] Instance le_number_trans : Transitive le_number.
Proof. unfold le_number. intros p q r. lia. Qed.

Lemma insertPinByNumber_perm l p : insertPinByNumber l p ≡ₚ p :: l.
Proof. apply insert_at_perm. Qed.

Lemma insertPinByNumber_sorted l p :
  StronglySorted le_number l → StronglySorted le_number (insertPinByNumber l p).
Proof.
  intros Hs. unfold insertPinByNumber.
  change (after (λ _ q, pin_Number p <? pin_Number q) l p)
    with (after (λ p q, pin_Number p <? pin_Number q) l p).
  apply (insert_sorted le_number); [apply _| | |done].
  - intros p' q H%Z.ltb_lt. unfold le_number. lia.
  - intros p' q H%Z.ltb_ge. exact H.
Qed.

(** The first loop of [All]: everything goes in, and is seen. *)
Lemma All_first_loop ps out0 seen0 :
  let r := foldl (λ '(out, seen) p,
                    (insertPinByNumber out p, ({[pin_Number p]} ∪ seen) : gset Z))
                 (out0, seen0) ps in
  r.1 ≡ₚ ps ++ out0
  ∧ (StronglySorted le_number out0 → StronglySorted le_number r.1)
  ∧ r.2 = list_to_set (pin_Number <$> ps) ∪ seen0.
Proof.
  revert out0 seen0.
  induction ps as [|p ps IH]; intros out0 seen0; cbn.
  - split; [done|]. split; [done|]. set_solver.
  - destruct (IH (insertPinByNumber out0 p) ({[pin_Number p]} ∪ seen0)) as (Hp & Hs & Hseen).
    split; [|split].
    + rewrite Hp, insertPinByNumber_perm. by rewrite Permutation_middle.
    + intros H0. by apply Hs, insertPinByNumber_sorted.
    + rewrite Hseen. set_solver.
Qed.

(** The second loop: what was not seen goes in. *)
Lemma All_second_loop (seen : gset Z) ps out0 :
  let out := foldl (λ out p, if decide (pin_Number p ∈ seen) then out
                             else insertPinByNumber out p) out0 ps in
  out ≡ₚ filter (λ p, pin_Number p ∉ seen) ps ++ out0
  ∧ (StronglySorted le_number out0 → StronglySorted le_number out).
Proof.
  revert out0.
  induction ps as [|p ps IH]; intros out0; cbn [foldl].
  - done.
  - rewrite filter_cons. destruct (decide (pin_Number p ∈ seen)) as [Hin|Hout].
    + rewrite decide_False by (intros ?; done). apply IH.
    + rewrite decide_True by done.
      destruct (IH (insertPinByNumber out0 p)) as (Hp & Hs).
      split.
      * rewrite Hp, insertPinByNumber_perm. cbn. by rewrite Permutation_middle.
      * intros H0. by apply Hs, insertPinByNumber_sorted.
Qed.

Lemma All_from_spec ps0 ps1 :
  All_from ps0 ps1 ≡ₚ
    filter (λ p, pin_Number p ∉ (list_to_set (pin_Number <$> ps0) : gset Z)) ps1 ++ ps0
  ∧ StronglySorted le_number (All_from ps0 ps1).
Proof.
  unfold All_from.
  pose proof (All_first_loop ps0 [] ∅) as H1. cbn zeta in H1.
  destruct (foldl _ ([], ∅) ps0) as [out seen]. cbn [fst snd] in H1.
  destruct H1 as (Hp & Hs & Hseen).
  destruct (All_second_loop seen ps1 out) as (Hp' & Hs').
  split.
  - rewrite Hp', Hp, app_nil_r, Hseen.
    apply Permutation_app; [|done].
    assert (list_to_set (pin_Number <$> ps0) ∪ ∅
            = (list_to_set (pin_Number <$> ps0) : gset Z)) as -> by set_solver.
    done.
  - apply Hs', Hs. constructor.
Qed.

(** A sorted list without two equal keys is strictly sorted. *)
Lemma sorted_strict l :
  StronglySorted le_number l → NoDup (pin_Number <$> l) → StronglySorted lt_number l.
Proof.
  induction 1 as [|p l Hs IH Hall]; cbn; [constructor|].
  intros [Hnotin Hnd]%NoDup_cons. constructor; [by apply IH|].
  rewrite Forall_forall in Hall |- *. intros q Hq.
  specialize (Hall q Hq). unfold le_number, lt_number in *.
  assert (pin_Number p ≠ pin_Number q); [|lia].
  intros Heq. apply Hnotin. rewrite Heq. by apply list_elem_of_fmap_2.
Qed.

(** What a [range] over a map of pins filed under their numbers
    delivers. *)
Lemma range_of_numbers (m : gmap Z Pin) kvs :
  (∀ n p, m !! n = Some p → pin_Number p = n) → range_of m kvs →
  pin_Number <$> kvs.*2 = kvs.*1
  ∧ NoDup (pin_Number <$> kvs.*2)
  ∧ (∀ p, p ∈ kvs.*2 ↔ m !! pin_Number p = Some p)
  ∧ (∀ n, n ∈ pin_Number <$> kvs.*2 ↔ is_Some (m !! n)).
Proof.
  intros Hkey Hr. unfold range_of in Hr.
  assert (∀ n p, (n, p) ∈ kvs ↔ m !! n = Some p) as Hin.
  { intros n p. rewrite Hr. apply elem_of_map_to_list. }
  assert (pin_Number <$> kvs.*2 = kvs.*1) as Hnums.
  { rewrite <- list_fmap_compose. apply list_fmap_ext.
    intros i [n p] Hi. cbn. apply Hkey, Hin. by eapply list_elem_of_lookup_2. }
  split; [done|]. split; [|split].
  - rewrite Hnums, Hr. apply NoDup_fst_map_to_list.
  - intros p. split.
    + intros ([n p'] & -> & Hp)%list_elem_of_fmap. cbn.
      apply Hin in Hp. by rewrite (Hkey _ _ Hp).
    + intros Hp. apply list_elem_of_fmap. exists (pin_Number p, p).
      split; [done|]. by apply Hin.
  - intros n. rewrite Hnums. split.
    + intros ([n' p] & -> & Hp)%list_elem_of_fmap. cbn. apply Hin in Hp. eauto.
    + intros [p Hp]. apply list_elem_of_fmap. exists (n, p). split; [done|]. by apply Hin.
Qed.

(** C4. In every state the package reaches, and whatever the order in
    which the two [range] loops deliver the maps, [All()] returns the
    pins in strictly ascending order of number (so no two entries have
    the same number), with every number registered in either tier once,
    and for each number the tier-0 pin when there is one, the tier-1 pin
    otherwise. *)
Theorem All_sorted_once_preferred (st : Registry) (kvs0 kvs1 : list (Z * Pin)) :
  reachable st →
  range_of (byNumber st).1 kvs0 → range_of (byNumber st).2 kvs1 →
  let out := All_from kvs0.*2 kvs1.*2 in
  StronglySorted lt_number out
  ∧ NoDup (pin_Number <$> out)
  ∧ (∀ n, n ∈ pin_Number <$> out ↔
          is_Some ((byNumber st).1 !! n) ∨ is_Some ((byNumber st).2 !! n))
  ∧ (∀ p, p ∈ out ↔
          (byNumber st).1 !! pin_Number p = Some p
          ∨ ((byNumber st).1 !! pin_Number p = None
             ∧ (byNumber st).2 !! pin_Number p = Some p)).
Proof.
  intros Hreach Hr0 Hr1 out.
  pose proof (reachable_wf _ Hreach) as [WN _ _ _ _ _].
  destruct (range_of_numbers _ _ (λ n p H, proj1 (WN 0%nat n p H)) Hr0)
    as (Hn0 & Hnd0 & Hin0 & Hnum0).
  destruct (range_of_numbers _ _ (λ n p H, proj1 (WN 1%nat n p H)) Hr1)
    as (Hn1 & Hnd1 & Hin1 & Hnum1).
  destruct (All_from_spec kvs0.*2 kvs1.*2) as (Hperm & Hsorted). fold out in Hperm, Hsorted.
  set (seen := list_to_set (pin_Number <$> kvs0.*2) : gset Z) in *.
  assert (∀ n, n ∈ seen ↔ is_Some ((byNumber st).1 !! n)) as Hseen.
  { intros n. unfold seen. rewrite elem_of_list_to_set. apply Hnum0. }
  assert (∀ p, p ∈ out ↔
            (byNumber st).1 !! pin_Number p = Some p
            ∨ ((byNumber st).1 !! pin_Number p = None
               ∧ (byNumber st).2 !! pin_Number p = Some p)) as Hmem.
  { intros p. rewrite Hperm, elem_of_app, list_elem_of_filter, Hin0, Hin1, Hseen.
    rewrite <- eq_None_not_Some. tauto. }
  assert (NoDup (pin_Number <$> out)) as Hnd.
  { rewrite Hperm, fmap_app. apply NoDup_app. split; [|split; [|done]].
    - eapply sublist_NoDup; [exact Hnd1|]. apply fmap_sublist, sublist_filter.
    - intros n ([p] & -> & [Hp _]%list_elem_of_filter)%list_elem_of_fmap.
      intros Hn. apply Hp, Hseen, Hnum0, Hn. }
  split; [by apply sorted_strict|]. split; [done|]. split; [|done].
  intros n. split.
  - intros (p & -> & Hp)%list_elem_of_fmap. apply Hmem in Hp as [Hp|[_ Hp]]; eauto.
  - intros Hn. destruct ((byNumber st).1 !! n) as [p|] eqn:H0.
    + destruct (WN 0%nat n p H0) as [<- _].
      apply list_elem_of_fmap_2, Hmem. by left.
    + destruct Hn as [[? ?]|[p H1]]; [done|].
      destruct (WN 1%nat n p H1) as [<- _].
      apply list_elem_of_fmap_2, Hmem. by right.
Qed.

Lemma is_int_small z : -1000 ≤ z ≤ 1000 → strconv.is_int z.
Proof.
  unfold strconv.is_int, strconv.minInt, strconv.maxInt, strconv.IntSize. lia.
Qed.

Lemma two_tiers_reachable : reachable two_tiers.
Proof.
  unfold two_tiers.
  repeat (apply reach_Register; [|apply is_int_small; cbn; lia]).
  apply reach_init.
Qed.

Example All_two_tiers : All two_tiers = [GPIO2; GPIO4; PWM7].
Proof. vm_compute. reflexivity. Qed.

(** [All] on the sample state, by the theorem. *)
Lemma All_sorted_once_preferred_witness :
  let out := All two_tiers in
  StronglySorted lt_number out
  ∧ NoDup (pin_Number <$> out)
  ∧ (∀ n, n ∈ pin_Number <$> out ↔
          is_Some ((byNumber two_tiers).1 !! n) ∨ is_Some ((byNumber two_tiers).2 !! n))
  ∧ (∀ p, p ∈ out ↔
          (byNumber two_tiers).1 !! pin_Number p = Some p
          ∨ ((byNumber two_tiers).1 !! pin_Number p = None
             ∧ (byNumber two_tiers).2 !! pin_Number p = Some p)).
Proof.
  apply (All_sorted_once_preferred two_tiers
           (map_to_list (byNumber two_tiers).1) (map_to_list (byNumber two_tiers).2)).
  - apply two_tiers_reachable.
  - unfold range_of. reflexivity.
  - unfold range_of. reflexivity.
Defined.

(** ** [Atoi] reads back what [Itoa] writes *)

Lemma digits_cons c s n :
  strconv.digits (String c s) n =
    match strconv.digit c with
    | Some d => strconv.digits s (n * 10 + d)
    | None => None
    end.
Proof. reflexivity. Qed.

(** One decimal digit of the string: the byte is read as its value. *)
Ltac digit_step :=
  cbn [NilEmpty.string_of_uint]; rewrite digits_cons;
  match goal with
  | |- context [strconv.digit ?c] =>
      let v := eval vm_compute in (strconv.digit c) in
      change (strconv.digit c) with v
  end; cbn match.

Lemma digits_of_uint_acc d acc :
  strconv.digits (NilEmpty.string_of_uint d) (Z.pos acc)
  = Some (Z.pos (Pos.of_uint_acc d acc)).
Proof.
  revert acc. induction d; intros acc; [reflexivity|..];
    digit_step; cbn [Pos.of_uint_acc]; rewrite <- IHd; f_equal; lia.
Qed.

Lemma digits_of_uint d :
  strconv.digits (NilEmpty.string_of_uint d) 0 = Some (Z.of_N (Pos.of_uint d)).
Proof.
  induction d; [reflexivity|..]; digit_step; cbn [Pos.of_uint Z.of_N];
    [exact IHd|..]; rewrite <- digits_of_uint_acc; f_equal.
Qed.

Lemma string_of_uint_head d :
  d ≠ Decimal.Nil →
  ∃ c rest, NilEmpty.string_of_uint d = String c rest ∧ strconv.is_sign c = false.
Proof. destruct d; [done|..]; intros _; eexists _, _; split; reflexivity. Qed.

Lemma to_uint_not_Nil p : Pos.to_uint p ≠ Decimal.Nil.
Proof.
  intros H. pose proof (DecimalPos.Unsigned.of_to p) as Hp.
  rewrite H in Hp. discriminate.
Qed.

Lemma Atoi_pos_string p :
  strconv.digits (NilEmpty.string_of_uint (Pos.to_uint p)) 0 = Some (Z.pos p).
Proof. rewrite digits_of_uint, DecimalPos.Unsigned.of_to. reflexivity. Qed.

Lemma in_range_is_int z : strconv.is_int z → strconv.in_range z = true.
Proof.
  unfold strconv.is_int, strconv.in_range. intros [? ?].
  apply andb_true_intro. split; by apply Z.leb_le.
Qed.

(** The decimal string of a Go [int] parses back to it. *)
Lemma Atoi_Itoa z : strconv.is_int z → strconv.Atoi (strconv.Itoa z) = Some z.
Proof.
  intros Hint. apply in_range_is_int in Hint.
  unfold strconv.Itoa. destruct z as [|p|p]; [reflexivity|..]; cbn [Z.to_int].
  - unfold NilZero.string_of_int, NilZero.string_of_uint.
    pose proof (to_uint_not_Nil p) as Hnn.
    destruct (string_of_uint_head _ Hnn) as (c & rest & Hs & Hc).
    pose proof (Atoi_pos_string p) as Hd.
    destruct (Pos.to_uint p) eqn:Hu; [done|..];
      rewrite Hs in Hd |- *; unfold strconv.Atoi; rewrite Hc, Hd;
      (assert (Ascii.eqb c "-" = false) as ->
         by (unfold strconv.is_sign in Hc; by apply orb_false_elim in Hc as [? _]));
      by rewrite Hint.
  - unfold NilZero.string_of_int, NilZero.string_of_uint.
    pose proof (to_uint_not_Nil p) as Hnn.
    destruct (string_of_uint_head _ Hnn) as (c & rest & Hs & Hc).
    pose proof (Atoi_pos_string p) as Hd.
    destruct (Pos.to_uint p) eqn:Hu; [done|..];
      rewrite Hs in Hd |- *; unfold strconv.Atoi;
      change (strconv.is_sign "-") with true; cbn match;
      rewrite Hd; change (Ascii.eqb "-" "-") with true; cbn match;
      rewrite Pos2Z.opp_pos; by rewrite Hint.
Qed.

Example Atoi_Itoa_min :
  strconv.Atoi (strconv.Itoa strconv.minInt) = Some strconv.minInt.
Proof. reflexivity. Qed.

(** ** Lookup by name and by number *)

(** A string that reads as an integer is no pin name and no alias. *)
Lemma wf_numeric st s i :
  wf st → strconv.Atoi s = Some i →
  (byName st).1 !! s = None ∧ (byName st).2 !! s = None ∧ byAlias st !! s = None.
Proof.
  intros [_ _ WP _ WA _] Hi.
  split; [|split].
  - destruct ((byName st).1 !! s) as [p|] eqn:H; [|done].
    destruct (WP 0%nat s p H) as (_ & Hn & _). congruence.
  - destruct ((byName st).2 !! s) as [p|] eqn:H; [|done].
    destruct (WP 1%nat s p H) as (_ & Hn & _). congruence.
  - destruct (byAlias st !! s) as [a|] eqn:H; [|done].
    destruct (WA s a H) as (_ & _ & Hn & _). congruence.
Qed.

Lemma getByName_numeric fuel st s i :
  wf st → strconv.Atoi s = Some i →
  getByName (S fuel) s st = Some (st, getByNumber i st).
Proof.
  intros Hwf Hi. destruct (wf_numeric _ _ _ Hwf Hi) as (H0 & H1 & Ha).
  cbn. by rewrite H0, H1, Ha, Hi.
Qed.

Lemma getByName_number fuel st n :
  wf st → strconv.is_int n →
  getByName (S fuel) (strconv.Itoa n) st = Some (st, getByNumber n st).
Proof. intros Hwf Hint. apply getByName_numeric; [done|by apply Atoi_Itoa]. Qed.

Lemma getByName_tier0 fuel st s p :
  (byName st).1 !! s = Some p → getByName (S fuel) s st = Some (st, Some (Driver p)).
Proof. intros H. cbn. by rewrite H. Qed.

Lemma getByName_tier1 fuel st s p :
  (byName st).1 !! s = None → (byName st).2 !! s = Some p →
  getByName (S fuel) s st = Some (st, Some (Driver p)).
Proof. intros H0 H1. cbn. by rewrite H0, H1. Qed.

(** C8, as stated, fails on [same_number_two_names]: two valid
    registrations with distinct triples, and the name of the limited pin
    gives the limited pin while its number gives the preferred one. *)
Lemma name_and_number_disagree : ¬ name_and_number_agree_as_stated.
Proof.
  intros H.
  assert (NoDup (triple <$> [(LIM5, false); (PREF5, true)])) as Hnd.
  { apply NoDup_cons. split; [|apply NoDup_singleton].
    intros [=]%list_elem_of_singleton. }
  destruct (H [(LIM5, false); (PREF5, true)] same_number_two_names eq_refl Hnd
              (LIM5, false) ltac:(by left))
    as (r & Hname & Hnum).
  vm_compute in Hname, Hnum. congruence.
Qed.

(** C8, amended.  In every state the package reaches, for a pin
    registered in a tier under a name, whose number tier 0 does not
    hold under another name, the lookup of the name and the lookup of
    the decimal string of the number return the same pin: the tier-0
    pin of that name when there is one, the pin itself otherwise. *)
Theorem ByName_name_and_number (st : Registry) (i : nat) (s : string) (p : Pin) :
  reachable st →
  at2 (byName st) i !! s = Some p →
  (∀ q, (byNumber st).1 !! pin_Number p = Some q → pin_Name q = s) →
  let r := default p ((byName st).1 !! s) in
  pin_Name r = s ∧ pin_Number r = pin_Number p
  ∧ (i = 0%nat → r = p)
  ∧ ∀ fuel, ByName (S fuel) s st = Some (st, Some (Driver r))
            ∧ ByName (S fuel) (strconv.Itoa (pin_Number p)) st
              = Some (st, Some (Driver r)).
Proof.
  intros Hwf%reachable_wf Hp Hsame r. unfold ByName.
  pose proof Hwf as [WN WS WP WT WA WM].
  destruct (WS i s p Hp) as [Hname Hnum].
  destruct (WP i s p Hp) as (_ & _ & _ & Hint & _).
  destruct ((byName st).1 !! s) as [r0|] eqn:H0; cbn in r; subst r.
  - destruct (WS 0%nat s r0 H0) as [Hname0 Hnum0]. cbn in Hnum0.
    assert (pin_Number r0 = pin_Number p) as Heq.
    { destruct i as [|i]; cbn in Hp; [congruence|]. by eapply WT. }
    split; [done|]. split; [done|]. split.
    { intros ->. cbn in Hp. congruence. }
    intros fuel. split; [by apply getByName_tier0|].
    rewrite getByName_number by done.
    unfold getByNumber. by rewrite <- Heq, Hnum0.
  - destruct i as [|i]; cbn in Hp; [congruence|].
    split; [done|]. split; [done|]. split; [done|].
    intros fuel. split; [by apply getByName_tier1|].
    rewrite getByName_number by done.
    unfold getByNumber. cbn in Hnum.
    destruct ((byNumber st).1 !! pin_Number p) as [q|] eqn:Hq.
    + specialize (Hsame q eq_refl).
      destruct (WN 0%nat _ _ Hq) as [_ Hq']. cbn in Hq'.
      rewrite Hsame in Hq'. congruence.
    + by rewrite Hnum.
Qed.

Example ByName_x_is_limited :
  ByName 1 "x" same_number_two_names = Some (same_number_two_names, Some (Driver LIM5)).
Proof. reflexivity. Qed.

Example ByName_5_is_preferred :
  ByName 1 "5" same_number_two_names = Some (same_number_two_names, Some (Driver PREF5)).
Proof. reflexivity. Qed.

(** The limited [GPIO4] of the sample state: its name and its number
    both give the preferred [GPIO4]. *)
Lemma ByName_name_and_number_witness :
  let r := default GPIO4_sysfs ((byName two_tiers).1 !! "GPIO4") in
  pin_Name r = "GPIO4" ∧ pin_Number r = pin_Number GPIO4_sysfs
  ∧ (1%nat = 0%nat → r = GPIO4_sysfs)
  ∧ ∀ fuel, ByName (S fuel) "GPIO4" two_tiers = Some (two_tiers, Some (Driver r))
            ∧ ByName (S fuel) (strconv.Itoa (pin_Number GPIO4_sysfs)) two_tiers
              = Some (two_tiers, Some (Driver r)).
Proof.
  apply (ByName_name_and_number two_tiers 1 "GPIO4" GPIO4_sysfs).
  - apply two_tiers_reachable.
  - reflexivity.
  - intros q Hq. vm_compute in Hq. injection Hq as <-. reflexivity.
Defined.

(** ** The number check looks at one tier *)

(** C9. In every state the package reaches, a pin whose number the
    other tier holds under a different name, and whose name collides
    with nothing, is registered; afterwards the lookup of the decimal
    string of the number returns the tier-0 pin of the two. *)
Theorem Register_same_number_other_tier (st : Registry) (p q : Pin) (preferred : bool) :
  reachable st →
  at2 (byNumber st) (other_tier preferred) !! pin_Number p = Some q →
  pin_Name q ≠ pin_Name p →
  pin_Name p ≠ EmptyString →
  strconv.Atoi (pin_Name p) = None →
  pin_Real p = None →
  at2 (byNumber st) (tier preferred) !! pin_Number p = None →
  at2 (byName st) (tier preferred) !! pin_Name p = None →
  at2 (byName st) (other_tier preferred) !! pin_Name p = None →
  byAlias st !! pin_Name p = None →
  ∃ st', Register p preferred st = (st', None)
    ∧ at2 (byNumber st') (tier preferred) !! pin_Number p = Some p
    ∧ at2 (byNumber st') (other_tier preferred) !! pin_Number p = Some q
    ∧ ∀ fuel, ByName (S fuel) (strconv.Itoa (pin_Number p)) st'
              = Some (st', Some (Driver (if preferred then p else q))).
Proof.
  intros Hreach Hq Hdiff Hne Hnum Hreal HfreshN HfreshS Hother Hnoalias.
  pose proof (reachable_wf _ Hreach) as Hwf.
  destruct (wf_number _ Hwf _ _ _ Hq) as [Hqnum Hqname].
  destruct (wf_pin _ Hwf _ _ _ Hqname) as (_ & _ & Hpos & Hint & _).
  rewrite Hqnum in Hpos, Hint.
  assert (Register p preferred st = (Register_inserted p preferred st, None)) as HR.
  { unfold Register. rewrite length_zero_empty.
    rewrite bool_decide_eq_false_2 by done.
    rewrite bool_decide_eq_false_2 by (rewrite Hnum; by intros [? ?]).
    destruct (Z.ltb_spec (pin_Number p) 0) as [?|_]; [lia|].
    fold (tier preferred) (other_tier preferred).
    by rewrite HfreshN, HfreshS, Hreal, Hnoalias, Hother. }
  exists (Register_inserted p preferred st). split; [done|].
  assert (wf (Register_inserted p preferred st)) as Hwf'.
  { pose proof (wf_Register p preferred st Hwf Hint) as H. by rewrite HR in H. }
  destruct (Register_inserted_tiers p preferred st) as (_ & _ & N0 & N1 & _).
  assert (at2 (byNumber (Register_inserted p preferred st)) (tier preferred)
            !! pin_Number p = Some p) as Hp'.
  { destruct preferred; cbn [tier at2]; rewrite ?N0, ?N1; apply lookup_insert_eq. }
  assert (at2 (byNumber (Register_inserted p preferred st)) (other_tier preferred)
            !! pin_Number p = Some q) as Hq'.
  { destruct preferred; cbn [other_tier at2] in *; by rewrite ?N0, ?N1. }
  split; [done|]. split; [done|].
  intros fuel. unfold ByName. rewrite getByName_number by done.
  unfold getByNumber.
  destruct preferred; cbn [tier other_tier at2] in Hp', Hq'.
  - by rewrite Hp'.
  - by rewrite Hq'.
Qed.

(** The preferred pin 5 as [y] after the limited pin 5 as [x]. *)
Lemma Register_same_number_other_tier_witness :
  ∃ st', Register PREF5 true (Register LIM5 false empty_registry).1 = (st', None)
    ∧ at2 (byNumber st') (tier true) !! pin_Number PREF5 = Some PREF5
    ∧ at2 (byNumber st') (other_tier true) !! pin_Number PREF5 = Some LIM5
    ∧ ∀ fuel, ByName (S fuel) (strconv.Itoa (pin_Number PREF5)) st'
              = Some (st', Some (Driver PREF5)).
Proof.
  apply (Register_same_number_other_tier
           (Register LIM5 false empty_registry).1 PREF5 LIM5 true).
  - apply reach_Register; [apply reach_init|]. apply is_int_small. cbn. lia.
  - reflexivity.
  - intros [=].
  - intros [=].
  - reflexivity.
  - reflexivity.
  - reflexivity.
  - reflexivity.
  - reflexivity.
  - reflexivity.
Defined.

(** ** Aliases: the wrapper and what it holds *)

Lemma reachable_step st st' : reachable st → step st st' → reachable st'.
Proof.
  intros Hr Hs. destruct Hs.
  - by apply reach_Register.
  - by apply reach_RegisterAlias.
  - by eapply reach_ByName.
  - by eapply reach_Aliases.
Qed.

Lemma reachable_steps st st' : reachable st → rtc step st st' → reachable st'.
Proof. intros Hr Hs. induction Hs; eauto using reachable_step. Qed.

(** No call takes a resolved pin out of an alias record, or changes it. *)
Lemma step_keeps_resolved st st' k a h :
  step st st' → byAlias st !! k = Some a → pa_PinIO a = Some h →
  ∃ a', byAlias st' !! k = Some a' ∧ pa_PinIO a' = Some h ∧ pa_name a' = pa_name a.
Proof.
  intros Hs Ha Hp.
  assert (∀ st', memo_ext st st' →
            ∃ a', byAlias st' !! k = Some a' ∧ pa_PinIO a' = Some h
                  ∧ pa_name a' = pa_name a) as Hext.
  { intros st0 Hext.
    destruct (memo_ext_alias _ _ _ _ Hext Ha) as (a' & Ha' & Hn & _ & [HP|(Hnone & _)]).
    - exists a'. by rewrite HP.
    - congruence. }
  destruct Hs as [st p preferred _|st alias dest|st fuel name st' r Hby|st fuel kvs st' out _ Hal].
  - destruct (Register p preferred st) as [st' [e|]] eqn:HR; cbn.
    + apply Register_error_unchanged in HR as ->. eauto.
    + apply Register_ok_inserted in HR as ->.
      destruct (Register_inserted_tiers p preferred st) as (_ & _ & _ & _ & ->). eauto.
  - destruct (RegisterAlias_cases alias dest st) as [->|(_ & _ & _ & Hfresh & ->)]; [eauto|].
    cbn. exists a. rewrite lookup_insert_ne by congruence. eauto.
  - apply Hext. by eapply getByName_memo_ext.
  - apply Hext. by eapply Aliases_loop_memo_ext.
Qed.

Lemma steps_keep_resolved st st' k a h :
  rtc step st st' → byAlias st !! k = Some a → pa_PinIO a = Some h →
  ∃ a', byAlias st' !! k = Some a' ∧ pa_PinIO a' = Some h ∧ pa_name a' = pa_name a.
Proof.
  intros Hs. revert a. induction Hs as [st|st st1 st' Hs1 _ IH]; intros a Ha Hp; [eauto|].
  destruct (step_keeps_resolved _ _ _ _ _ Hs1 Ha Hp) as (a1 & Ha1 & Hp1 & Hn1).
  destruct (IH a1 Ha1 Hp1) as (a' & ? & ? & ?). exists a'. split; [done|]. split; congruence.
Qed.

(** The record of an alias after its pin is written. *)
Lemma set_PinIO_lookup st k a x :
  byAlias st !! k = Some a →
  byAlias (set_PinIO k x st) !! k
  = Some {| pa_PinIO := x; pa_name := pa_name a; pa_dest := pa_dest a |}.
Proof. intros Ha. cbn. by rewrite lookup_alter_eq, Ha. Qed.

(** X28. One call of [ByName], table by table: the tier-0 names first, then
    the tier-1 names, then the aliases, then the numbers.  A resolved
    alias is answered at once.  An unresolved one is answered by the
    lookup of its destination: when that returns a pin [h], the record
    of the alias is replaced by the record holding [h], in the state
    that lookup left, and the wrapper is returned; when it returns
    [nil], so does the call, in the state it started from; when it does
    not return, neither does the call. *)
Theorem ByName_in_order (st : Registry) (name : string) (fuel : nat) :
  (∀ p, (byName st).1 !! name = Some p →
     ByName (S fuel) name st = Some (st, Some (Driver p)))
  ∧ (∀ p, (byName st).1 !! name = None → (byName st).2 !! name = Some p →
       ByName (S fuel) name st = Some (st, Some (Driver p)))
  ∧ (∀ a, (byName st).1 !! name = None → (byName st).2 !! name = None →
       byAlias st !! name = Some a →
       (is_Some (pa_PinIO a) →
          ByName (S fuel) name st = Some (st, Some (AliasPtr name)))
       ∧ (pa_PinIO a = None →
            (ByName fuel (pa_dest a) st = None → ByName (S fuel) name st = None)
            ∧ (∀ sd, ByName fuel (pa_dest a) st = Some (sd, None) →
                 ByName (S fuel) name st = Some (st, None))
            ∧ (∀ sd h, ByName fuel (pa_dest a) st = Some (sd, Some h) →
                 ByName (S fuel) name st
                 = Some ({| byNumber := byNumber st; byName := byName st;
                            byAlias := <[name := {| pa_PinIO := Some h;
                                                    pa_name := pa_name a;
                                                    pa_dest := pa_dest a |}]>
                                         (byAlias sd) |},
                         Some (AliasPtr name)))))
  ∧ (∀ i, (byName st).1 !! name = None → (byName st).2 !! name = None →
       byAlias st !! name = None → strconv.Atoi name = Some i →
       ByName (S fuel) name st
       = Some (st, match (byNumber st).1 !! i with
                   | Some p => Some (Driver p)
                   | None => Driver <$> (byNumber st).2 !! i
                   end))
  ∧ ((byName st).1 !! name = None → (byName st).2 !! name = None →
     byAlias st !! name = None → strconv.Atoi name = None →
     ByName (S fuel) name st = Some (st, None)).
Proof.
  unfold ByName. repeat split.
  - intros p H0. cbn. by rewrite H0.
  - intros p H0 H1. cbn. by rewrite H0, H1.
  - intros [h Hp]. cbn. by rewrite H, H0, H1, Hp.
  - intros Hrec. cbn. by rewrite H, H0, H1, H2, Hrec.
  - intros sd Hrec. cbn. rewrite H, H0, H1, H2, Hrec.
    apply getByName_absent_unchanged in Hrec as ->.
    by rewrite (set_PinIO_None_id _ _ _ H1 H2).
  - intros sd h Hrec. cbn [getByName]. rewrite H, H0, H1, H2, Hrec.
    pose proof (getByName_memo_ext _ _ _ _ _ Hrec) as Hext.
    destruct (memo_ext_alias _ _ _ _ Hext H1) as (a1 & Ha1 & Hn1 & Hd1 & _).
    destruct Hext as (EN & ES & _).
    unfold set_PinIO. rewrite (alter_alt_Some _ _ _ _ Ha1), EN, ES, Hn1, Hd1. done.
  - intros i H0 H1 Ha Hi. cbn. rewrite H0, H1, Ha, Hi. unfold getByNumber.
    by repeat case_match.
  - intros H0 H1 Ha Hi. cbn. by rewrite H0, H1, Ha, Hi.
Qed.

(** The lookup of an alias, as the specification words it, fails on
    [alias_under_pin_name]: the alias [GPIO2] has a destination that
    resolves, and the lookup of [GPIO2] returns the pin of that name,
    which is no wrapper. *)
Lemma alias_lookup_returns_pin : ¬ alias_lookup_wraps_as_stated.
Proof.
  intros H.
  assert (reachable alias_under_pin_name) as Hr.
  { apply reach_RegisterAlias.
    repeat (apply reach_Register; [|apply is_int_small; cbn; lia]).
    apply reach_init. }
  destruct (H _ Hr "GPIO2" {| pa_PinIO := None; pa_name := "GPIO2"; pa_dest := "PWM7" |}
              eq_refl) as (fuel & st' & Hby & _).
  { exists alias_under_pin_name, (Driver PWM7). by apply chain_tier0. }
  assert (ByName 1 "GPIO2" alias_under_pin_name
          = Some (alias_under_pin_name, Some (Driver GPIO2))) as Hpin by reflexivity.
  unfold ByName in *.
  apply (getByName_fuel_mono _ (fuel + 1)) in Hby; [|lia].
  apply (getByName_fuel_mono _ (fuel + 1)) in Hpin; [|lia].
  congruence.
Qed.

(** C10. [RegisterAlias] takes an alias under the name of a registered
    pin, and the lookup then misses the alias.  After [Register] of the
    pins [GPIO2] and [PWM7], [RegisterAlias("GPIO2","PWM7")] returns nil
    and files the record; its destination resolves; and [ByName("GPIO2")]
    returns the pin [GPIO2], at every depth of the recursion, never the
    wrapper of the alias that the claim asks for.  [Register] refuses the
    mirror case in its step (g): the pin [GPIO2] after the alias
    [GPIO2]. *)
Theorem ByName_alias_shadowed_by_pin :
  let st0 := (Register PWM7 true (Register GPIO2 true empty_registry).1).1 in
  (RegisterAlias "GPIO2" "PWM7" st0).2 = None
  ∧ reachable alias_under_pin_name
  ∧ byAlias alias_under_pin_name !! "GPIO2"
    = Some {| pa_PinIO := None; pa_name := "GPIO2"; pa_dest := "PWM7" |}
  ∧ resolves alias_under_pin_name "PWM7"
  ∧ (∀ fuel, ByName (S fuel) "GPIO2" alias_under_pin_name
             = Some (alias_under_pin_name, Some (Driver GPIO2)))
  ∧ (∀ fuel st', ByName fuel "GPIO2" alias_under_pin_name
                 ≠ Some (st', Some (AliasPtr "GPIO2")))
  ∧ (let st1 := (RegisterAlias "GPIO2" "PWM7" (Register PWM7 true empty_registry).1).1 in
     Register GPIO2 true st1 = (st1, Some (ErrPinAliasExists "GPIO2" "GPIO2(PWM7)"))).
Proof.
  intros st0.
  assert (∀ fuel, ByName (S fuel) "GPIO2" alias_under_pin_name
                  = Some (alias_under_pin_name, Some (Driver GPIO2))) as Hpin.
  { intros fuel. reflexivity. }
  split; [reflexivity|].
  split.
  { apply reach_RegisterAlias.
    repeat (apply reach_Register; [|apply is_int_small; cbn; lia]).
    apply reach_init. }
  split; [reflexivity|].
  split. { exists alias_under_pin_name, (Driver PWM7). by apply chain_tier0. }
  split; [exact Hpin|].
  split; [|reflexivity].
  intros [|fuel] st'; [discriminate|]. rewrite Hpin. discriminate.
Qed.

(** X27. In every state the package reaches, for an alias
    whose name is not also a pin name and whose destination resolves,
    [ByName] on the alias name returns the wrapper of the alias: its
    [Name()] is the alias name and its [Real()] is the pin of the alias
    record.  For an alias unresolved before the call that pin is what
    the lookup of the destination returns now, and the call stores it;
    for an alias resolved before, it is the pin stored then and the call
    changes nothing.  No later call changes either. *)
Theorem ByName_alias_wrapper (st : Registry) (k : string) (a : pinAlias) :
  reachable st →
  byAlias st !! k = Some a →
  (byName st).1 !! k = None → (byName st).2 !! k = None →
  resolves st (pa_dest a) →
  ∃ fuel st' h,
    ByName fuel k st = Some (st', Some (AliasPtr k))
    ∧ Name st' (AliasPtr k) = k
    ∧ Real st' (AliasPtr k) = Some h
    ∧ (pa_PinIO a = None →
         ∃ st1, ByName_chain st (pa_dest a) st1 (Some h)
                ∧ st' = set_PinIO k (Some h) st1)
    ∧ (∀ h0, pa_PinIO a = Some h0 → h = h0 ∧ st' = st)
    ∧ (∀ st'', rtc step st' st'' →
         Name st'' (AliasPtr k) = k ∧ Real st'' (AliasPtr k) = Some h).
Proof.
  intros Hreach Ha H0 H1 (st1 & h1 & Hchain).
  pose proof (reachable_wf _ Hreach) as Hwf.
  destruct (wf_alias _ Hwf _ _ Ha) as (Hname & _).
  assert (∀ st' a' h, byAlias st' !! k = Some a' → pa_PinIO a' = Some h →
            pa_name a' = k →
            ∀ st'', rtc step st' st'' →
              Name st'' (AliasPtr k) = k ∧ Real st'' (AliasPtr k) = Some h) as Hkeep.
  { intros st' a' h Ha' Hp' Hn' st'' Hsteps.
    destruct (steps_keep_resolved _ _ _ _ _ Hsteps Ha' Hp') as (a'' & Ha'' & Hp'' & Hn'').
    cbn. rewrite Ha''. split; congruence. }
  destruct (pa_PinIO a) as [h0|] eqn:Hp.
  - exists 1%nat, st, h0. unfold ByName. cbn. rewrite H0, H1, Ha, Hp.
    split; [done|]. split; [done|]. split; [done|]. split; [done|].
    split; [by intros ? [= <-]|].
    eapply Hkeep; eauto.
  - destruct (getByName_complete _ _ _ _ Hchain) as [fuel Hfuel].
    destruct (memo_ext_alias _ _ _ _ (chain_memo_ext _ _ _ _ Hchain) Ha)
      as (a1 & Ha1 & Hn1 & Hd1 & _).
    pose proof (set_PinIO_lookup st1 k a1 (Some h1) Ha1) as Hset.
    exists (S fuel), (set_PinIO k (Some h1) st1), h1. unfold ByName.
    split. { cbn [getByName]. by rewrite H0, H1, Ha, Hp, Hfuel. }
    split. { cbn [Name]. rewrite Hset. cbn. congruence. }
    split. { cbn [Real]. by rewrite Hset. }
    split. { intros _. by exists st1. }
    split; [done|].
    eapply Hkeep; [exact Hset|done|cbn; congruence].
Qed.

Example ByName_LED :
  ByName 2 "LED" with_LED
  = Some (set_PinIO "LED" (Some (Driver GPIO2)) with_LED, Some (AliasPtr "LED")).
Proof. reflexivity. Qed.

(** The alias [LED] of the sample state. *)
Lemma ByName_alias_wrapper_witness :
  ∃ fuel st' h,
    ByName fuel "LED" with_LED = Some (st', Some (AliasPtr "LED"))
    ∧ Name st' (AliasPtr "LED") = "LED"
    ∧ Real st' (AliasPtr "LED") = Some h
    ∧ (pa_PinIO LED_record = None →
         ∃ st1, ByName_chain with_LED (pa_dest LED_record) st1 (Some h)
                ∧ st' = set_PinIO "LED" (Some h) st1)
    ∧ (∀ h0, pa_PinIO LED_record = Some h0 → h = h0 ∧ st' = with_LED)
    ∧ (∀ st'', rtc step st' st'' →
         Name st'' (AliasPtr "LED") = "LED" ∧ Real st'' (AliasPtr "LED") = Some h).
Proof.
  apply (ByName_alias_wrapper with_LED "LED" LED_record).
  - apply reach_RegisterAlias, two_tiers_reachable.
  - reflexivity.
  - reflexivity.
  - reflexivity.
  - exists with_LED, (Driver GPIO2). apply chain_tier1; reflexivity.
Defined.

(** ** Lazy, multi-hop resolution *)

Lemma RegisterAlias_fresh alias dest st st1 :
  byAlias st !! alias = None → RegisterAlias alias dest st = (st1, None) →
  st1 = {| byNumber := byNumber st; byName := byName st;
           byAlias := <[alias := {| pa_PinIO := None; pa_name := alias; pa_dest := dest |}]>
                        (byAlias st) |}.
Proof.
  intros Hfresh. unfold RegisterAlias. rewrite Hfresh.
  repeat case_match; intros [= <-]; done.
Qed.

(** C7, as stated, fails on the chain of the example: the lookup of
    [a] returns the wrapper of [a], not the pin named [c]. *)
Lemma multi_hop_returns_wrapper : ¬ multi_hop_as_stated.
Proof.
  intros H.
  destruct (H pin_c true eq_refl eq_refl) as (fuel & st' & Hby).
  assert (∃ st4, ByName 3 "a" (after_chain pin_c true) = Some (st4, Some (AliasPtr "a")))
    as [st4 Hwrap] by (eexists; reflexivity).
  unfold ByName in *.
  apply (getByName_fuel_mono _ (fuel + 3)) in Hby; [|lia].
  apply (getByName_fuel_mono _ (fuel + 3)) in Hwrap; [|lia].
  congruence.
Qed.

(** One step of the recursion, at an unresolved alias that no pin name
    hides. *)
Lemma getByName_unresolved fuel st k a :
  (byName st).1 !! k = None → (byName st).2 !! k = None →
  byAlias st !! k = Some a → pa_PinIO a = None →
  getByName (S fuel) k st =
    match getByName fuel (pa_dest a) st with
    | None => None
    | Some (st', r) =>
        Some (set_PinIO k r st', match r with None => None | Some _ => Some (AliasPtr k) end)
    end.
Proof.
  intros H0 H1 Ha Hp. cbn [getByName]. rewrite H0, H1, Ha, Hp.
  destruct (getByName fuel (pa_dest a) st) as [[st' [h|]]|]; done.
Qed.

(** C7, amended.  An alias [a] of [b] and an alias [b] of [c] are
    registered, both new and neither a pin name, before any pin [c]
    exists: while [c] is unknown the lookup of [a] returns absent and
    stores nothing.  Once a pin named [c] is registered (in tier 0, or
    in tier 1 with no tier-0 pin of that name), the lookup of [a]
    returns the wrapper of [a]: its name is [a], its [Real()] is the
    wrapper of [b], whose [Real()] is the pin, and its number is the
    pin's. *)
Theorem alias_chain_resolves_lazily (st st1 st2 st3 : Registry) (a b c : string)
    (p : Pin) (preferred : bool) :
  byAlias st !! a = None → RegisterAlias a b st = (st1, None) →
  byAlias st1 !! b = None → RegisterAlias b c st1 = (st2, None) →
  pin_Name p = c → Register p preferred st2 = (st3, None) →
  (byName st).1 !! a = None → (byName st).2 !! a = None →
  (byName st).1 !! b = None → (byName st).2 !! b = None →
  preferred = true ∨ (byName st).1 !! c = None →
  ((byName st).1 !! c = None → (byName st).2 !! c = None →
     ByName 3 a st2 = Some (st2, None))
  ∧ ∃ st4, ByName 3 a st3 = Some (st4, Some (AliasPtr a))
      ∧ st4 = set_PinIO a (Some (AliasPtr b)) (set_PinIO b (Some (Driver p)) st3)
      ∧ Name st4 (AliasPtr a) = a
      ∧ Real st4 (AliasPtr a) = Some (AliasPtr b)
      ∧ Real st4 (AliasPtr b) = Some (Driver p)
      ∧ Number 2 st4 (AliasPtr a) = Some (pin_Number p).
Proof.
  intros Ha HRa Hb HRb Hc HR Ha0 Ha1 Hb0 Hb1 Htier.
  apply RegisterAlias_fresh in HRa; [|done]. subst st1.
  apply RegisterAlias_fresh in HRb; [|done]. subst st2.
  destruct (Register_ok_facts _ _ _ _ HR)
    as (_ & Hnum & _ & _ & HfreshS & _ & Hnoalias & _ & ->).
  rewrite Hc in *. cbn in Hb, Hnoalias, HfreshS.
  assert (a ≠ b) as Hab.
  { intros ->. by rewrite lookup_insert_eq in Hb. }
  assert (b ≠ c) as Hbc.
  { intros ->. by rewrite lookup_insert_eq in Hnoalias. }
  rewrite lookup_insert_ne in Hb, Hnoalias by done.
  assert (a ≠ c) as Hac.
  { intros ->. by rewrite lookup_insert_eq in Hnoalias. }
  rewrite lookup_insert_ne in Hnoalias by done.
  set (ra := {| pa_PinIO := None; pa_name := a; pa_dest := b |}) in *.
  set (rb := {| pa_PinIO := None; pa_name := b; pa_dest := c |}) in *.
  set (st2 := {| byNumber := _; byName := _; byAlias := <[b:=rb]> _ |}) in *.
  assert (byName st2 = byName st) as ES by reflexivity.
  assert (byAlias st2 !! a = Some ra) as Hla.
  { cbn. rewrite lookup_insert_ne by done. apply lookup_insert_eq. }
  assert (byAlias st2 !! b = Some rb) as Hlb by apply lookup_insert_eq.
  assert (byAlias st2 !! c = None) as Hlc.
  { cbn. by rewrite !lookup_insert_ne. }
  split.
  { intros Hc0 Hc1. unfold ByName.
    rewrite (getByName_unresolved 2 st2 a ra) by (rewrite ?ES; done).
    change (pa_dest ra) with b.
    rewrite (getByName_unresolved 1 st2 b rb) by (rewrite ?ES; done).
    change (pa_dest rb) with c.
    cbn [getByName]. rewrite ES, Hc0, Hc1, Hlc, Hnum.
    rewrite (set_PinIO_None_id b rb st2), (set_PinIO_None_id a ra st2); done. }
  set (st3 := Register_inserted p preferred st2).
  destruct (Register_inserted_tiers p preferred st2) as (E0 & E1 & _ & _ & EA).
  fold st3 in E0, E1, EA. rewrite ES, Hc in E0, E1.
  assert (∀ k, k ≠ c → (byName st3).1 !! k = (byName st).1 !! k
                       ∧ (byName st3).2 !! k = (byName st).2 !! k) as Hk.
  { intros k Hk. rewrite E0, E1. destruct preferred; by rewrite lookup_insert_ne. }
  destruct (Hk a Hac) as [A0 A1]. destruct (Hk b Hbc) as [B0 B1].
  assert (getByName 1 c st3 = Some (st3, Some (Driver p))) as Hpin.
  { destruct preferred.
    - apply getByName_tier0. rewrite E0. apply lookup_insert_eq.
    - destruct Htier as [?|Hc0]; [done|].
      apply getByName_tier1; [by rewrite E0|rewrite E1; apply lookup_insert_eq]. }
  eexists. split.
  { unfold ByName.
    rewrite (getByName_unresolved 2 st3 a ra) by (rewrite ?EA, ?A0, ?A1; done).
    change (pa_dest ra) with b.
    rewrite (getByName_unresolved 1 st3 b rb) by (rewrite ?EA, ?B0, ?B1; done).
    change (pa_dest rb) with c.
    rewrite Hpin. reflexivity. }
  split; [reflexivity|].
  assert (byAlias (set_PinIO a (Some (AliasPtr b)) (set_PinIO b (Some (Driver p)) st3)) !! a
          = Some {| pa_PinIO := Some (AliasPtr b); pa_name := a; pa_dest := b |}) as La.
  { cbn [byAlias set_PinIO].
    rewrite lookup_alter_eq, lookup_alter_ne by done. by rewrite EA, Hla. }
  assert (byAlias (set_PinIO a (Some (AliasPtr b)) (set_PinIO b (Some (Driver p)) st3)) !! b
          = Some {| pa_PinIO := Some (Driver p); pa_name := b; pa_dest := c |}) as Lb.
  { cbn [byAlias set_PinIO].
    rewrite lookup_alter_ne, lookup_alter_eq by done. by rewrite EA, Hlb. }
  cbn [Number Name Real]. rewrite La. cbn [pa_name pa_PinIO Real].
  by rewrite Lb.
Qed.

(** The chain [a], [b], [c] from the empty registry. *)
Lemma alias_chain_resolves_lazily_witness :
  let st2 := (RegisterAlias "b" "c" (RegisterAlias "a" "b" empty_registry).1).1 in
  let st3 := after_chain pin_c true in
  ((byName empty_registry).1 !! "c" = None → (byName empty_registry).2 !! "c" = None →
     ByName 3 "a" st2 = Some (st2, None))
  ∧ ∃ st4, ByName 3 "a" st3 = Some (st4, Some (AliasPtr "a"))
      ∧ st4 = set_PinIO "a" (Some (AliasPtr "b")) (set_PinIO "b" (Some (Driver pin_c)) st3)
      ∧ Name st4 (AliasPtr "a") = "a"
      ∧ Real st4 (AliasPtr "a") = Some (AliasPtr "b")
      ∧ Real st4 (AliasPtr "b") = Some (Driver pin_c)
      ∧ Number 2 st4 (AliasPtr "a") = Some (pin_Number pin_c).
Proof.
  apply (alias_chain_resolves_lazily empty_registry
           (RegisterAlias "a" "b" empty_registry).1
           (RegisterAlias "b" "c" (RegisterAlias "a" "b" empty_registry).1).1
           (after_chain pin_c true) "a" "b" "c" pin_c true);
    try reflexivity.
  by left.
Defined.

(** ** Aliases *)

Lemma ltb_le s1 s2 : String.ltb s1 s2 = true → String.le s1 s2 ∧ ¬ String.le s2 s1.
Proof.
  unfold String.le, String.leb, String.ltb. rewrite (String.compare_antisym s1 s2).
  destruct (String.compare s2 s1); cbn; intros H; try discriminate. split; [done|tauto].
Qed.

Lemma ltb_false_le s1 s2 : String.ltb s1 s2 = false → String.le s2 s1.
Proof.
  unfold String.le, String.leb, String.ltb. rewrite (String.compare_antisym s1 s2).
  destruct (String.compare s2 s1); cbn; try done.
Qed.

Lemma le_ne_ltb s1 s2 : String.le s1 s2 → s1 ≠ s2 → String.ltb s1 s2 = true.
Proof.
  intros Hle Hne. destruct (String.ltb s1 s2) eqn:Hlt; [done|].
  apply ltb_false_le in Hlt. exfalso. apply Hne. by apply (anti_symm String.le).
Qed.

#[local] Instance le_name_trans st : Transitive (le_name st).
Proof. unfold le_name. intros p q r. apply (transitivity (R:=String.le)). Qed.

Lemma insertPinByName_perm st l p : insertPinByName st l p ≡ₚ p :: l.
Proof. apply insert_at_perm. Qed.

Lemma insertPinByName_sorted st l p :
  StronglySorted (le_name st) l → StronglySorted (le_name st) (insertPinByName st l p).
Proof.
  intros Hs. unfold insertPinByName.
  change (after (λ _ q, String.ltb (Name st p) (Name st q)) l p)
    with (after (λ p q, String.ltb (Name st p) (Name st q)) l p).
  apply (insert_sorted (le_name st)); [apply _| | |done].
  - intros p' q. apply ltb_le.
  - intros p' q. apply ltb_false_le.
Qed.

Lemma Aliases_loop_fuel_mono fuel fuel' keys out st x :
  Aliases_loop fuel keys out st = Some x → (fuel ≤ fuel')%nat →
  Aliases_loop fuel' keys out st = Some x.
Proof.
  intros H Hle. revert out st H.
  induction keys as [|k keys IH]; intros out st; cbn; [done|].
  destruct (byAlias st !! k) as [a|]; [|apply IH].
  destruct (pa_PinIO a); [apply IH|].
  destruct (getByName fuel (pa_dest a) st) as [[st1 r]|] eqn:Hrec; [|discriminate].
  rewrite (getByName_fuel_mono _ fuel' _ _ _ Hrec Hle).
  destruct r; apply IH.
Qed.

(** Resolving aliases changes no name. *)
Lemma memo_ext_Name st st' h : memo_ext st st' → Name st' h = Name st h.
Proof.
  intros (_ & _ & HA). destruct h as [p|k]; [done|]. cbn.
  specialize (HA k).
  destruct (byAlias st !! k), (byAlias st' !! k); try done. by destruct HA.
Qed.

Lemma sorted_name_ext st st' l :
  memo_ext st st' → StronglySorted (le_name st) l ↔ StronglySorted (le_name st') l.
Proof.
  intros Hext.
  assert (∀ p q, le_name st p q ↔ le_name st' p q) as Hle.
  { intros p q. unfold le_name. by rewrite !(memo_ext_Name st st'). }
  split; induction 1 as [|p l Hs IH Hall]; constructor; try done;
    (eapply Forall_impl; [exact Hall|]); intros q; apply Hle.
Qed.

Lemma wf_Name_alias st k a : wf st → byAlias st !! k = Some a → Name st (AliasPtr k) = k.
Proof. intros Hwf Ha. cbn. rewrite Ha. by destruct (wf_alias _ Hwf _ _ Ha). Qed.

(** The loop of [Aliases], from a state [st] that [st0] has grown into:
    it returns, having taken the keys whose alias resolves. *)
Lemma Aliases_loop_spec st0 keys :
  wf st0 → lookups_return st0 →
  (∀ k, k ∈ keys → is_Some (byAlias st0 !! k)) →
  ∀ st out, memo_ext st0 st →
    StronglySorted (le_name st0) out →
    ∃ fuel st' out' taken,
      Aliases_loop fuel keys out st = Some (st', out')
      ∧ memo_ext st0 st'
      ∧ taken `sublist_of` keys
      ∧ (∀ k, k ∈ keys → k ∈ taken ↔ alias_resolves st0 k)
      ∧ (∀ k, k ∈ taken → ∃ a, byAlias st' !! k = Some a ∧ is_Some (pa_PinIO a))
      ∧ out' ≡ₚ (AliasPtr <$> taken) ++ out
      ∧ StronglySorted (le_name st0) out'.
Proof.
  intros Hwf Hret.
  induction keys as [|k keys IH]; intros Hkeys st out Hext Hsorted.
  { exists 0%nat, st, out, [].
    split; [done|]. split; [done|]. split; [done|].
    split; [intros k Hk; by apply elem_of_nil in Hk|].
    split; [intros k Hk; by apply elem_of_nil in Hk|]. done. }
  assert (∀ k', k' ∈ keys → is_Some (byAlias st0 !! k')) as Hkeys' by set_solver.
  destruct (Hkeys k ltac:(set_solver)) as [a0 Ha0].
  destruct (memo_ext_alias _ _ _ _ Hext Ha0) as (a & Ha & Hn & Hd & HP).
  assert (wf st) as Hwfst by (by eapply wf_memo_ext).
  (* the rest of the loop, after this key is taken or not *)
  assert (∀ st1 out1 (b : bool),
            memo_ext st0 st1 →
            StronglySorted (le_name st0) out1 →
            (b = true ↔ alias_resolves st0 k) →
            (b = true → ∃ a1, byAlias st1 !! k = Some a1 ∧ is_Some (pa_PinIO a1)) →
            out1 ≡ₚ (if b then [AliasPtr k] else []) ++ out →
            ∃ fuel st' out' taken,
              Aliases_loop fuel keys out1 st1 = Some (st', out')
              ∧ memo_ext st0 st'
              ∧ taken `sublist_of` k :: keys
              ∧ (∀ k', k' ∈ k :: keys → k' ∈ taken ↔ alias_resolves st0 k')
              ∧ (∀ k', k' ∈ taken → ∃ a', byAlias st' !! k' = Some a' ∧ is_Some (pa_PinIO a'))
              ∧ out' ≡ₚ (AliasPtr <$> taken) ++ out
              ∧ StronglySorted (le_name st0) out') as Hrest.
  { intros st1 out1 b Hext1 Hs1 Hb Hmemo Hout1.
    destruct (IH Hkeys' st1 out1 Hext1 Hs1)
      as (fuel & st' & out' & taken & Hloop & Hext' & Hsub & Htaken & Hres & Hperm & Hs').
    assert (memo_ext st1 st') as Hext1' by (by eapply Aliases_loop_memo_ext).
    exists fuel, st', out', (if b then k :: taken else taken).
    split; [done|]. split; [done|]. split.
    { destruct b; [by apply sublist_skip|by apply sublist_cons]. }
    split.
    { intros k' [->|Hk']%elem_of_cons.
      - destruct b.
        + split; [intros _; by apply Hb|intros _; by left].
        + split; [|intros Hr%Hb; done].
          intros Hk. apply Htaken; [|done]. by eapply elem_of_sublist.
      - destruct b; [|by apply Htaken].
        rewrite elem_of_cons. split.
        + intros [->|Hin]; [by apply Hb|by apply Htaken].
        + intros Hr. right. by apply Htaken. }
    split.
    { intros k' Hk'. destruct b; [|by apply Hres].
      apply elem_of_cons in Hk' as [->|Hk']; [|by apply Hres].
      destruct (Hmemo eq_refl) as (a1 & Ha1 & [h Hp1]).
      destruct (memo_ext_alias _ _ _ _ Hext1' Ha1) as (a' & Ha' & _ & _ & [HP'|(Hnone & _)]).
      - exists a'. split; [done|]. rewrite HP', Hp1. eauto.
      - congruence. }
    split; [|done].
    rewrite Hperm, Hout1. destruct b; cbn; [|done].
    by rewrite <- Permutation_middle. }
  destruct (pa_PinIO a) as [h|] eqn:Hp.
  - (* resolved already *)
    destruct (Hrest st (insertPinByName st out (AliasPtr k)) true)
      as (fuel & st' & out' & taken & Hloop & Hgoal); try done.
    + apply (sorted_name_ext st0 st); [done|].
      apply insertPinByName_sorted. by apply (sorted_name_ext st0 st).
    + split; [intros _|done]. exists a0. split; [done|].
      apply resolves_ends. rewrite <- Hd. eapply memo_ext_ends_inv; [done|].
      by eapply (wf_memo _ Hwfst).
    + intros _. exists a. rewrite Hp. eauto.
    + apply insertPinByName_perm.
    + exists fuel, st', out', taken. split; [|done].
      cbn [Aliases_loop]. by rewrite Ha, Hp.
  - (* unresolved: the destination is looked up *)
    assert (pa_PinIO a0 = None) as Hp0.
    { destruct HP as [HP|(? & _)]; congruence. }
    destruct (Hret k a0 Ha0 Hp0) as (st1' & r' & Hchain0).
    apply chain_ends in Hchain0.
    pose proof (memo_ext_ends _ _ _ _ Hext Hchain0) as Hends. rewrite <- Hd in Hends.
    destruct (ends_chain _ _ _ Hends) as (st1 & r & Hchain & Hb).
    destruct (getByName_complete _ _ _ _ Hchain) as [f Hf].
    pose proof (memo_ext_loop_step _ _ _ _ _ _ Ha Hp Hf) as Hstep.
    assert (memo_ext st0 (set_PinIO k r st1)) as Hext2 by (by eapply memo_ext_trans).
    destruct (memo_ext_alias _ _ _ _ (getByName_memo_ext _ _ _ _ _ Hf) Ha)
      as (a1 & Ha1 & _).
    destruct r as [h|].
    + destruct (Hrest (set_PinIO k (Some h) st1)
                  (insertPinByName (set_PinIO k (Some h) st1) out (AliasPtr k)) true)
        as (fuel & st' & out' & taken & Hloop & Hgoal); try done.
      * apply (sorted_name_ext st0 (set_PinIO k (Some h) st1)); [done|].
        apply insertPinByName_sorted.
        by apply (sorted_name_ext st0 (set_PinIO k (Some h) st1)).
      * split; [intros _|done]. exists a0. split; [done|].
        apply resolves_ends. by rewrite <- Hb in Hchain0.
      * intros _. rewrite (set_PinIO_lookup _ _ _ _ Ha1). eauto.
      * apply insertPinByName_perm.
      * exists (max f fuel), st', out', taken. split; [|done].
        cbn [Aliases_loop]. rewrite Ha, Hp.
        rewrite (getByName_fuel_mono _ (max f fuel) _ _ _ Hf) by lia.
        cbn zeta. eapply Aliases_loop_fuel_mono; [done|lia].
    + destruct (Hrest (set_PinIO k None st1) out false)
        as (fuel & st' & out' & taken & Hloop & Hgoal); try done.
      * split; [done|]. intros (a0' & Ha0' & Hr%resolves_ends).
        rewrite Ha0 in Ha0'. injection Ha0' as <-.
        pose proof (lookup_ends_det _ _ _ _ Hchain0 Hr) as Hbb.
        rewrite <- Hb in Hbb. done.
      * exists (max f fuel), st', out', taken. split; [|done].
        cbn [Aliases_loop]. rewrite Ha, Hp.
        rewrite (getByName_fuel_mono _ (max f fuel) _ _ _ Hf) by lia.
        cbn zeta. eapply Aliases_loop_fuel_mono; [done|lia].
Qed.

Lemma sorted_distinct {A} (R R' : relation A) l :
  (∀ x y, x ∈ l → y ∈ l → R x y → x ≠ y → R' x y) →
  StronglySorted R l → NoDup l → StronglySorted R' l.
Proof.
  intros HR Hs. induction Hs as [|x l Hs IH Hall]; [constructor|].
  intros [Hnotin Hnd]%NoDup_cons. constructor.
  - apply IH; [|done]. intros y z Hy Hz. apply HR; by right.
  - rewrite Forall_forall in Hall |- *. intros y Hy.
    apply HR; [by left|by right|by apply Hall|]. intros ->. done.
Qed.

#[local] Instance AliasPtr_inj : Inj (=) (=) AliasPtr.
Proof. by intros k1 k2 [= ->]. Qed.

Lemma range_of_keys (m : gmap string pinAlias) kvs :
  range_of m kvs → NoDup kvs.*1 ∧ ∀ k, k ∈ kvs.*1 ↔ is_Some (m !! k).
Proof.
  unfold range_of. intros Hr. split.
  - rewrite Hr. apply NoDup_fst_map_to_list.
  - intros k. rewrite Hr. split.
    + intros ([k' a] & -> & Hin%elem_of_map_to_list)%list_elem_of_fmap. eauto.
    + intros [a Ha]. apply list_elem_of_fmap. exists (k, a).
      split; [done|]. by apply elem_of_map_to_list.
Qed.

(** X20. Off the cycles of unresolved aliases, [Aliases] does what the
    specification says.  In a state the package reaches and in which the
    lookup of every unresolved alias's destination returns, and whatever
    the order of the [range], [Aliases()] returns: one wrapper for each
    alias whose destination resolves and none for the others, in
    strictly ascending order of alias name, each with the alias name as
    its [Name()] and a pin as its [Real()]. *)
Lemma Aliases_sorted_resolved (st : Registry) (kvs : list (string * pinAlias)) :
  reachable st → lookups_return st → range_of (byAlias st) kvs →
  ∃ fuel st' out,
    Aliases_from fuel kvs.*1 st = Some (st', out)
    ∧ StronglySorted (lt_name st') out
    ∧ NoDup out
    ∧ (∀ h, h ∈ out ↔ ∃ k, h = AliasPtr k ∧ alias_resolves st k)
    ∧ (∀ k, AliasPtr k ∈ out →
         Name st' (AliasPtr k) = k ∧ is_Some (Real st' (AliasPtr k))).
Proof.
  intros Hwf%reachable_wf Hret [Hnd Hkeys]%range_of_keys.
  destruct (Aliases_loop_spec st kvs.*1 Hwf Hret (λ k, proj1 (Hkeys k)) st []
              (memo_ext_refl st) (SSorted_nil _))
    as (fuel & st' & out & taken & Hloop & Hext & Hsub & Htaken & Hres & Hperm & Hs).
  rewrite app_nil_r in Hperm.
  assert (wf st') as Hwf' by (by eapply wf_memo_ext).
  assert (NoDup out) as Hndout.
  { rewrite Hperm. apply (NoDup_fmap_2 _). by eapply sublist_NoDup. }
  assert (∀ k, AliasPtr k ∈ out →
            Name st' (AliasPtr k) = k ∧ is_Some (Real st' (AliasPtr k))) as Hentry.
  { intros k Hk. rewrite Hperm in Hk.
    apply (list_elem_of_fmap_inj_2 _) in Hk.
    destruct (Hres k Hk) as (a & Ha & Hp).
    split; [by eapply wf_Name_alias|]. cbn. by rewrite Ha. }
  exists fuel, st', out. split; [done|]. split; [|split; [done|split; [|done]]].
  - apply (sorted_name_ext st st') in Hs; [|done].
    eapply sorted_distinct; [|exact Hs|done].
    intros x y Hx Hy Hle Hne. unfold lt_name. apply le_ne_ltb; [done|].
    rewrite Hperm in Hx, Hy.
    apply list_elem_of_fmap in Hx as (kx & -> & Hkx).
    apply list_elem_of_fmap in Hy as (ky & -> & Hky).
    assert (AliasPtr kx ∈ out) as Hx' by (rewrite Hperm; by apply list_elem_of_fmap_2).
    assert (AliasPtr ky ∈ out) as Hy' by (rewrite Hperm; by apply list_elem_of_fmap_2).
    destruct (Hentry kx Hx') as [-> _]. destruct (Hentry ky Hy') as [-> _]. congruence.
  - intros h. rewrite Hperm. split.
    + intros (k & -> & Hk)%list_elem_of_fmap. exists k. split; [done|].
      apply Htaken; [|done]. by eapply elem_of_sublist.
    + intros (k & -> & Hr). apply list_elem_of_fmap_2. apply Htaken; [|done].
      apply Hkeys. destruct Hr as (a & Ha & _). eauto.
Qed.

Example Aliases_with_LED :
  snd <$> Aliases 2 (RegisterAlias "dangling" "nowhere" with_LED).1
  = Some [AliasPtr "LED"].
Proof. vm_compute. reflexivity. Qed.

(** C5.  After [RegisterAlias("a","a")] the destination of the alias
    [a] does not resolve, so the claim has [Aliases()] return the empty
    list; the call does not return, whatever depth the recursion is
    given.  The defect is the one of [ByName] on an alias cycle. *)
Theorem Aliases_alias_cycle_never_returns :
  reachable self_alias
  ∧ ¬ alias_resolves self_alias "a"
  ∧ ∀ fuel kvs, range_of (byAlias self_alias) kvs →
      Aliases_from fuel kvs.*1 self_alias = None.
Proof.
  split; [apply reach_RegisterAlias, reach_init|].
  assert (∀ fuel, getByName fuel "a" self_alias = None) as Hdiv.
  { apply (getByName_self_alias self_alias "a"
             {| pa_PinIO := None; pa_name := "a"; pa_dest := "a" |}); reflexivity. }
  split.
  - intros (a & Ha & st' & h & [fuel Hf]%getByName_complete).
    injection Ha as <-. cbn in Hf. by rewrite Hdiv in Hf.
  - intros fuel kvs Hr. unfold range_of in Hr.
    change (map_to_list (byAlias self_alias))
      with [("a", {| pa_PinIO := None; pa_name := "a"; pa_dest := "a" |})] in Hr.
    apply Permutation_singleton_r in Hr as ->.
    unfold Aliases_from. cbn [fmap list_fmap fst Aliases_loop].
    change (byAlias self_alias !! "a")
      with (Some {| pa_PinIO := None; pa_name := "a"; pa_dest := "a" |}).
    cbn [pa_PinIO pa_dest]. by rewrite Hdiv.
Qed.

(** * Further properties of the package *)

(** ** [search] *)

Lemma search_loop_boundary (f : nat → bool) (n rounds lo hi : nat) :
  (hi - lo ≤ rounds)%nat → (lo ≤ hi ≤ n)%nat →
  (lo = 0%nat ∨ f (lo - 1)%nat = false) →
  (hi = n ∨ f hi = true) →
  let i := search_loop rounds f lo hi in
  (lo ≤ i ≤ hi)%nat ∧ (i = 0%nat ∨ f (i - 1)%nat = false) ∧ (i = n ∨ f i = true).
Proof.
  revert lo hi.
  induction rounds as [|rounds IH]; intros lo hi Hr Hb Hlo Hhi; cbn [search_loop].
  - assert (lo = hi) as -> by lia. repeat split; (lia || done).
  - destruct (Nat.ltb_spec lo hi) as [Hlt|Hge].
    + pose proof (Nat.div_mod_eq (lo + hi) 2) as Hdiv.
      pose proof (Nat.mod_upper_bound (lo + hi) 2 ltac:(lia)) as Hmod.
      set (i := ((lo + hi) / 2)%nat) in *.
      destruct (f i) eqn:Hf; cbn [negb].
      * destruct (IH lo i) as (? & ? & ?); [lia|lia|done|by right|].
        repeat split; (lia || done).
      * destruct (IH (i + 1)%nat hi) as (? & ? & ?); [lia|lia| |done|].
        { right. by replace (i + 1 - 1)%nat with i by lia. }
        repeat split; (lia || done).
    + assert (lo = hi) as -> by lia. repeat split; (lia || done).
Qed.

(** X1. [search(n, f)] returns an index from 0 to [n] at a boundary of
    [f], whatever [f] is: [f] is true at the index unless the index is
    [n], and false just below it unless the index is 0. *)
Theorem search_boundary (n : nat) (f : nat → bool) :
  (search n f ≤ n)%nat
  ∧ ((search n f < n)%nat → f (search n f) = true)
  ∧ ((0 < search n f)%nat → f (search n f - 1)%nat = false).
Proof.
  unfold search.
  destruct (search_loop_boundary f n n 0 n) as ([_ Hle] & Hlow & Hhigh);
    [lia|lia|by left|by left|].
  split; [done|]. split.
  - intros Hlt. destruct Hhigh as [Heq|?]; [lia|done].
  - intros Hpos. destruct Hlow as [Heq|?]; [lia|done].
Qed.

Lemma search_loop_ext (f g : nat → bool) (n rounds lo hi : nat) :
  (∀ j, (j < n)%nat → f j = g j) → (hi ≤ n)%nat →
  search_loop rounds f lo hi = search_loop rounds g lo hi.
Proof.
  intros Hfg. revert lo hi.
  induction rounds as [|rounds IH]; intros lo hi Hhi; cbn [search_loop]; [done|].
  destruct (Nat.ltb_spec lo hi) as [Hlt|Hge]; [|done].
  pose proof (Nat.div_mod_eq (lo + hi) 2) as Hdiv.
  pose proof (Nat.mod_upper_bound (lo + hi) 2 ltac:(lia)) as Hmod.
  set (i := ((lo + hi) / 2)%nat) in *.
  rewrite <- (Hfg i) by lia.
  destruct (f i); cbn [negb]; apply IH; lia.
Qed.

(** X2. [search(n, f)] asks [f] about indices below [n] only: what [f]
    does from [n] on has no part in the result, so the closures of the
    insertions never read past the end of the slice. *)
Theorem search_reads_below_n (n : nat) (f g : nat → bool) :
  (∀ j, (j < n)%nat → f j = g j) → search n f = search n g.
Proof. intros Hfg. unfold search. by apply (search_loop_ext f g n). Qed.

(** The search in a list of five, with a closure that is defined on
    the indices of the list only. *)
Lemma search_reads_below_n_witness :
  search 5 (λ j, (3 <=? j)%nat) = search 5 (λ j, (3 <=? j)%nat && (j <? 5)%nat).
Proof.
  apply (search_reads_below_n 5 (λ j, (3 <=? j)%nat)
           (λ j, (3 <=? j)%nat && (j <? 5)%nat)).
  intros j Hj. apply Nat.ltb_lt in Hj. rewrite Hj. by rewrite andb_true_r.
Defined.

(** X3. On an [f] that stays true once it is true, as on a sorted
    slice, [search(n, f)] is the least index where [f] is true, and [n]
    when there is none: [f] is true exactly from the result on. *)
Theorem search_least_true (n : nat) (f : nat → bool) :
  (∀ j k, (j ≤ k < n)%nat → f j = true → f k = true) →
  (search n f ≤ n)%nat
  ∧ ∀ j, (j < n)%nat → (f j = true ↔ (search n f ≤ j)%nat).
Proof.
  intros Hmono. destruct (search_spec f n Hmono) as (Hle & Hbelow & Hfrom).
  split; [done|]. intros j Hj. split.
  - intros Hf. destruct (Nat.le_gt_cases (search n f) j) as [?|Hlt]; [done|].
    rewrite (Hbelow j Hlt) in Hf. discriminate.
  - intros Hge. apply Hfrom. lia.
Qed.

Lemma search_least_true_witness :
  (search 5 (λ j, (3 <=? j)%nat) ≤ 5)%nat
  ∧ ∀ j, (j < 5)%nat →
      ((3 <=? j)%nat = true ↔ (search 5 (λ j, (3 <=? j)%nat) ≤ j)%nat).
Proof.
  apply (search_least_true 5 (λ j, (3 <=? j)%nat)).
  intros j k Hjk Hj. apply Nat.leb_le in Hj. apply Nat.leb_le. lia.
Defined.

(** ** The sorted insertions *)

Section insert_position.
Context {A : Type} (le : relation A) (gtb : A → A → bool).
Context `{!Transitive le}.
Hypothesis gtb_true : ∀ p q, gtb p q = true → le p q ∧ ¬ le q p.
Hypothesis gtb_false : ∀ p q, gtb p q = false → le q p.

(** Where the search puts the new element in a sorted list: after all
    the elements that are not greater, before all that are. *)
Lemma insert_position l p :
  StronglySorted le l →
  let i := search (length l) (after gtb l p) in
  Forall (λ q, gtb p q = false) (take i l) ∧ Forall (λ q, gtb p q = true) (drop i l).
Proof.
  intros Hs.
  destruct (search_spec (after gtb l p) (length l)
              (after_mono le gtb gtb_true gtb_false l p Hs)) as (Hi & Hbefore & Hafter).
  set (i := search (length l) (after gtb l p)) in *. cbn zeta.
  split; apply Forall_forall; intros q [j Hj]%list_elem_of_lookup.
  - pose proof (lookup_lt_Some _ _ _ Hj) as Hlt. rewrite length_take in Hlt.
    rewrite lookup_take_lt in Hj by lia.
    specialize (Hbefore j ltac:(lia)). unfold after in Hbefore. by rewrite Hj in Hbefore.
  - rewrite lookup_drop in Hj.
    pose proof (lookup_lt_Some _ _ _ Hj) as Hlt.
    specialize (Hafter (i + j)%nat ltac:(lia)). unfold after in Hafter.
    by rewrite Hj in Hafter.
Qed.
End insert_position.

(** X4. [insertPinByNumber] puts the pin into a slice sorted by number
    without touching the order of the others: after every pin whose
    number is not greater (so after the pins of the same number) and
    before every pin whose number is greater; the slice stays sorted. *)
Theorem insertPinByNumber_position (l : list Pin) (p : Pin) :
  StronglySorted le_number l →
  ∃ l1 l2,
    l = (l1 ++ l2)%list
    ∧ insertPinByNumber l p = (l1 ++ p :: l2)%list
    ∧ Forall (λ q, pin_Number q ≤ pin_Number p) l1
    ∧ Forall (λ q, pin_Number p < pin_Number q) l2
    ∧ StronglySorted le_number (insertPinByNumber l p).
Proof.
  intros Hs.
  pose proof (insert_position le_number (λ p q, pin_Number p <? pin_Number q)) as Hpos.
  destruct (Hpos (λ p' q (H : (pin_Number p' <? pin_Number q) = true),
                    conj (Z.lt_le_incl _ _ (proj1 (Z.ltb_lt _ _) H))
                         (Zlt_not_le _ _ (proj1 (Z.ltb_lt _ _) H)))
                 (λ p' q (H : (pin_Number p' <? pin_Number q) = false),
                    proj1 (Z.ltb_ge _ _) H) l p Hs) as [H1 H2].
  set (i := search (length l) _) in *.
  exists (take i l), (drop i l).
  split; [by rewrite take_drop|]. split; [reflexivity|].
  split; [|split].
  - eapply Forall_impl; [exact H1|]. intros q Hq. by apply Z.ltb_ge in Hq.
  - eapply Forall_impl; [exact H2|]. intros q Hq. by apply Z.ltb_lt in Hq.
  - by apply insertPinByNumber_sorted.
Qed.

Example insertPinByNumber_same_number :
  insertPinByNumber [GPIO2; GPIO4; PWM7] GPIO4_sysfs = [GPIO2; GPIO4; GPIO4_sysfs; PWM7].
Proof. reflexivity. Qed.

Lemma insertPinByNumber_position_witness :
  ∃ l1 l2,
    [GPIO2; GPIO4; PWM7] = (l1 ++ l2)%list
    ∧ insertPinByNumber [GPIO2; GPIO4; PWM7] GPIO4_sysfs = (l1 ++ GPIO4_sysfs :: l2)%list
    ∧ Forall (λ q, pin_Number q ≤ pin_Number GPIO4_sysfs) l1
    ∧ Forall (λ q, pin_Number GPIO4_sysfs < pin_Number q) l2
    ∧ StronglySorted le_number (insertPinByNumber [GPIO2; GPIO4; PWM7] GPIO4_sysfs).
Proof.
  apply (insertPinByNumber_position [GPIO2; GPIO4; PWM7] GPIO4_sysfs).
  repeat constructor; unfold le_number; cbn; lia.
Defined.

(** X5. [insertPinByName] does the same by name, byte by byte: the
    handle goes after every handle whose name is not greater and before
    every handle whose name is greater; the slice stays sorted. *)
Theorem insertPinByName_position (st : Registry) (l : list PinIO) (p : PinIO) :
  StronglySorted (le_name st) l →
  ∃ l1 l2,
    l = (l1 ++ l2)%list
    ∧ insertPinByName st l p = (l1 ++ p :: l2)%list
    ∧ Forall (λ q, String.le (Name st q) (Name st p)) l1
    ∧ Forall (λ q, String.ltb (Name st p) (Name st q) = true) l2
    ∧ StronglySorted (le_name st) (insertPinByName st l p).
Proof.
  intros Hs.
  pose proof (insert_position (le_name st)
                (λ p q, String.ltb (Name st p) (Name st q))) as Hpos.
  destruct (Hpos (λ p' q, ltb_le (Name st p') (Name st q))
                 (λ p' q, ltb_false_le (Name st p') (Name st q)) l p Hs) as [H1 H2].
  set (i := search (length l) _) in *.
  exists (take i l), (drop i l).
  split; [by rewrite take_drop|]. split; [reflexivity|].
  split; [|split; [done|]].
  - eapply Forall_impl; [exact H1|]. intros q Hq. by apply ltb_false_le.
  - by apply insertPinByName_sorted.
Qed.

Lemma insertPinByName_position_witness :
  ∃ l1 l2,
    [Driver GPIO2; Driver PWM7] = (l1 ++ l2)%list
    ∧ insertPinByName empty_registry [Driver GPIO2; Driver PWM7] (Driver GPIO4)
      = (l1 ++ Driver GPIO4 :: l2)%list
    ∧ Forall (λ q, String.le (Name empty_registry q) (Name empty_registry (Driver GPIO4))) l1
    ∧ Forall (λ q, String.ltb (Name empty_registry (Driver GPIO4))
                     (Name empty_registry q) = true) l2
    ∧ StronglySorted (le_name empty_registry)
        (insertPinByName empty_registry [Driver GPIO2; Driver PWM7] (Driver GPIO4)).
Proof.
  apply (insertPinByName_position empty_registry [Driver GPIO2; Driver PWM7] (Driver GPIO4)).
  repeat constructor.
Defined.

(** ** Registering twice *)

Lemma Register_inserted_selected p preferred st :
  at2 (byNumber (Register_inserted p preferred st)) (tier preferred) !! pin_Number p = Some p
  ∧ at2 (byName (Register_inserted p preferred st)) (tier preferred) !! pin_Name p = Some p.
Proof. destruct preferred; cbn; by rewrite !lookup_insert_eq. Qed.

Lemma Register_fails_at (j : nat) e q preferred st :
  Register_steps q preferred st !! j = Some (Some e) →
  ∃ e', Register q preferred st = (st, Some e').
Proof.
  intros Hj. rewrite Register_first_failure.
  destruct (first_failure _) as [e'|] eqn:Hff; [eauto|].
  rewrite first_failure_None in Hff. specialize (Hff j _ Hj). discriminate.
Qed.

Lemma Register_step_d q preferred st :
  Register_steps q preferred st !! 3%nat
  = Some ((λ orig, ErrPinSameNumber (pin_Name q) (pin_Number q) (pin_String orig))
            <$> at2 (byNumber st) (tier preferred) !! pin_Number q).
Proof. reflexivity. Qed.

Lemma Register_step_e q preferred st :
  Register_steps q preferred st !! 4%nat
  = Some ((λ orig, ErrPinTwice (pin_Name q) (pin_String orig))
            <$> at2 (byName st) (tier preferred) !! pin_Name q).
Proof. reflexivity. Qed.

Lemma Register_step_h q preferred st :
  Register_steps q preferred st !! 7%nat
  = Some (match at2 (byName st) (other_tier preferred) !! pin_Name q with
          | Some orig =>
              if decide (pin_Number orig = pin_Number q) then None
              else Some (ErrPinDifferentNumber (pin_Name q) (pin_String orig))
          | None => None
          end).
Proof. reflexivity. Qed.

(** X6. Registering the same pin number or name twice is an error:
    once a pin is registered in a tier, every pin with its number and
    every pin with its name is refused in that tier, and every pin with
    its name and another number is refused in the other tier; the
    registry stays as it is, and the pin itself is refused for its
    number. *)
Theorem Register_twice_is_an_error (p : Pin) (preferred : bool) (st st' : Registry) :
  Register p preferred st = (st', None) →
  Register p preferred st'
    = (st', Some (ErrPinSameNumber (pin_Name p) (pin_Number p) (pin_String p)))
  ∧ (∀ q, pin_Number q = pin_Number p → ∃ e, Register q preferred st' = (st', Some e))
  ∧ (∀ q, pin_Name q = pin_Name p → ∃ e, Register q preferred st' = (st', Some e))
  ∧ (∀ q, pin_Name q = pin_Name p → pin_Number q ≠ pin_Number p →
          ∃ e, Register q (negb preferred) st' = (st', Some e)).
Proof.
  intros HR.
  destruct (Register_ok_facts _ _ _ _ HR) as (Hne & Hnum & Hpos & _ & _ & _ & _ & _ & ->).
  destruct (Register_inserted_selected p preferred st) as [HN HS].
  split; [|split; [|split]].
  - unfold Register. rewrite length_zero_empty.
    rewrite bool_decide_eq_false_2 by done.
    rewrite bool_decide_eq_false_2 by (rewrite Hnum; by intros [? ?]).
    destruct (Z.ltb_spec (pin_Number p) 0) as [?|_]; [lia|].
    fold (tier preferred). by rewrite HN.
  - intros q Hq. apply (Register_fails_at 3 (ErrPinSameNumber (pin_Name q) (pin_Number q)
                                               (pin_String p))).
    by rewrite Register_step_d, Hq, HN.
  - intros q Hq. apply (Register_fails_at 4 (ErrPinTwice (pin_Name q) (pin_String p))).
    by rewrite Register_step_e, Hq, HS.
  - intros q Hq Hdiff.
    apply (Register_fails_at 7 (ErrPinDifferentNumber (pin_Name q) (pin_String p))).
    rewrite Register_step_h.
    replace (other_tier (negb preferred)) with (tier preferred) by (by destruct preferred).
    rewrite Hq, HS. by rewrite decide_False by congruence.
Qed.

Lemma Register_twice_is_an_error_witness :
  let st' := (Register GPIO4 true empty_registry).1 in
  Register GPIO4 true st'
    = (st', Some (ErrPinSameNumber (pin_Name GPIO4) (pin_Number GPIO4) (pin_String GPIO4)))
  ∧ (∀ q, pin_Number q = pin_Number GPIO4 → ∃ e, Register q true st' = (st', Some e))
  ∧ (∀ q, pin_Name q = pin_Name GPIO4 → ∃ e, Register q true st' = (st', Some e))
  ∧ (∀ q, pin_Name q = pin_Name GPIO4 → pin_Number q ≠ pin_Number GPIO4 →
          ∃ e, Register q (negb true) st' = (st', Some e)).
Proof.
  apply (Register_twice_is_an_error GPIO4 true empty_registry). reflexivity.
Defined.

(** ** Registering, then looking up *)

(** X7. A registered pin is found again.  After a successful
    [Register], in a state the package reaches, the lookup of the pin's
    name returns a pin of that name and number, and so does the lookup
    of the decimal string of its number: the pin itself when it went to
    tier 0, and otherwise the tier-0 pin of that name, or of that
    number, when there is one. *)
Theorem Register_then_ByName (p : Pin) (preferred : bool) (st st' : Registry) :
  reachable st → strconv.is_int (pin_Number p) →
  Register p preferred st = (st', None) →
  let by_name := if preferred then p else default p ((byName st).1 !! pin_Name p) in
  let by_number := if preferred then p else default p ((byNumber st).1 !! pin_Number p) in
  pin_Name by_name = pin_Name p ∧ pin_Number by_name = pin_Number p
  ∧ pin_Number by_number = pin_Number p
  ∧ ∀ fuel,
      ByName (S fuel) (pin_Name p) st' = Some (st', Some (Driver by_name))
      ∧ ByName (S fuel) (strconv.Itoa (pin_Number p)) st'
        = Some (st', Some (Driver by_number)).
Proof.
  intros Hreach Hint HR by_name by_number.
  pose proof (reachable_wf _ Hreach) as Hwf.
  assert (wf st') as Hwf'.
  { pose proof (wf_Register p preferred st Hwf Hint) as H. by rewrite HR in H. }
  destruct (Register_ok_facts _ _ _ _ HR)
    as (_ & _ & _ & HfreshN & HfreshS & _ & _ & Hother & ->).
  destruct (Register_inserted_tiers p preferred st) as (E0 & E1 & N0 & N1 & _).
  unfold ByName. destruct preferred; cbn [tier other_tier at2] in *.
  - subst by_name by_number. split; [done|]. split; [done|]. split; [done|].
    intros fuel. split.
    + apply getByName_tier0. rewrite E0. apply lookup_insert_eq.
    + rewrite getByName_number by done. unfold getByNumber.
      by rewrite N0, lookup_insert_eq.
  - assert (pin_Name by_name = pin_Name p ∧ pin_Number by_name = pin_Number p) as [? ?].
    { subst by_name. destruct ((byName st).1 !! pin_Name p) as [q|] eqn:Hq; [|done].
      split; [|by apply Hother]. by destruct (wf_name _ Hwf 0%nat _ _ Hq). }
    assert (pin_Number by_number = pin_Number p).
    { subst by_number. destruct ((byNumber st).1 !! pin_Number p) as [q|] eqn:Hq; [|done].
      by destruct (wf_number _ Hwf 0%nat _ _ Hq). }
    split; [done|]. split; [done|]. split; [done|].
    intros fuel. split.
    + subst by_name. destruct ((byName st).1 !! pin_Name p) as [q|] eqn:Hq.
      * apply getByName_tier0. rewrite E0. exact Hq.
      * apply getByName_tier1; [by rewrite E0|]. rewrite E1. apply lookup_insert_eq.
    + rewrite getByName_number by done. unfold getByNumber. rewrite N0, N1.
      subst by_number. destruct ((byNumber st).1 !! pin_Number p); [done|].
      by rewrite lookup_insert_eq.
Qed.

Lemma Register_then_ByName_witness :
  let st := (Register GPIO4 true empty_registry).1 in
  let st' := (Register GPIO4_sysfs false st).1 in
  let by_name := default GPIO4_sysfs ((byName st).1 !! pin_Name GPIO4_sysfs) in
  let by_number := default GPIO4_sysfs ((byNumber st).1 !! pin_Number GPIO4_sysfs) in
  pin_Name by_name = pin_Name GPIO4_sysfs ∧ pin_Number by_name = pin_Number GPIO4_sysfs
  ∧ pin_Number by_number = pin_Number GPIO4_sysfs
  ∧ ∀ fuel,
      ByName (S fuel) (pin_Name GPIO4_sysfs) st' = Some (st', Some (Driver by_name))
      ∧ ByName (S fuel) (strconv.Itoa (pin_Number GPIO4_sysfs)) st'
        = Some (st', Some (Driver by_number)).
Proof.
  apply (Register_then_ByName GPIO4_sysfs false (Register GPIO4 true empty_registry).1).
  - apply reach_Register; [apply reach_init|]. apply is_int_small. cbn. lia.
  - apply is_int_small. cbn. lia.
  - reflexivity.
Defined.

(** X8. The same pin may be in the two tiers: once a pin is registered
    in one tier, a pin of the same name and number which is no
    [RealPin], and whose number and name the other tier does not hold,
    is registered in the other tier; the lookup of the name then
    returns the tier-0 pin of the two. *)
Theorem Register_in_both_tiers (p q : Pin) (preferred : bool) (st st1 : Registry) :
  Register p preferred st = (st1, None) →
  pin_Name q = pin_Name p → pin_Number q = pin_Number p → pin_Real q = None →
  at2 (byNumber st) (other_tier preferred) !! pin_Number p = None →
  at2 (byName st) (other_tier preferred) !! pin_Name p = None →
  ∃ st2, Register q (negb preferred) st1 = (st2, None)
    ∧ at2 (byName st2) (tier preferred) !! pin_Name p = Some p
    ∧ at2 (byName st2) (other_tier preferred) !! pin_Name p = Some q
    ∧ ∀ fuel, ByName (S fuel) (pin_Name p) st2
              = Some (st2, Some (Driver (if preferred then p else q))).
Proof.
  intros HR Hname Hnumber Hreal HfreshN HfreshS.
  destruct (Register_ok_facts _ _ _ _ HR)
    as (Hne & Hnum & Hpos & _ & _ & _ & Hnoalias & _ & ->).
  destruct (Register_inserted_tiers p preferred st) as (E0 & E1 & N0 & N1 & EA).
  set (st1 := Register_inserted p preferred st) in *.
  assert (Register q (negb preferred) st1 = (Register_inserted q (negb preferred) st1, None))
    as HR2.
  { unfold Register. rewrite length_zero_empty, Hname, Hnumber.
    rewrite bool_decide_eq_false_2 by done.
    rewrite bool_decide_eq_false_2 by (rewrite Hnum; by intros [? ?]).
    destruct (Z.ltb_spec (pin_Number p) 0) as [?|_]; [lia|].
    rewrite Hreal, EA, Hnoalias.
    destruct preferred; cbn [negb at2 tier other_tier] in *;
      rewrite ?E0, ?E1, ?N0, ?N1, ?HfreshN, ?HfreshS, ?lookup_insert_eq;
      rewrite bool_decide_eq_false_2 by (intros ?; congruence);
      unfold Register_inserted; cbn [tier negb]; by rewrite Hname, Hnumber. }
  exists (Register_inserted q (negb preferred) st1). split; [done|].
  destruct (Register_inserted_tiers q (negb preferred) st1) as (F0 & F1 & _ & _ & _).
  unfold ByName.
  destruct preferred; cbn [negb at2 tier other_tier] in *;
    rewrite ?F0, ?F1, ?E0, ?E1, ?Hname, ?lookup_insert_eq.
  - split; [done|]. split; [done|]. intros fuel.
    apply getByName_tier0. by rewrite F0, E0, lookup_insert_eq.
  - split; [done|]. split; [done|]. intros fuel.
    apply getByName_tier0. by rewrite F0, Hname, lookup_insert_eq.
Qed.

Lemma Register_in_both_tiers_witness :
  ∃ st2, Register GPIO4 (negb false) (Register GPIO4_sysfs false empty_registry).1 = (st2, None)
    ∧ at2 (byName st2) (tier false) !! pin_Name GPIO4_sysfs = Some GPIO4_sysfs
    ∧ at2 (byName st2) (other_tier false) !! pin_Name GPIO4_sysfs = Some GPIO4
    ∧ ∀ fuel, ByName (S fuel) (pin_Name GPIO4_sysfs) st2 = Some (st2, Some (Driver GPIO4)).
Proof.
  apply (Register_in_both_tiers GPIO4_sysfs GPIO4 false empty_registry
           (Register GPIO4_sysfs false empty_registry).1); reflexivity.
Defined.

(** X9. [RegisterAlias] succeeds exactly when the alias and the
    destination are not empty, the alias does not read as an integer,
    and the alias is new or already has that destination.  It looks at
    no pin: it never changes the pin maps, and it never changes or
    removes an alias record that exists. *)
Theorem RegisterAlias_succeeds_iff (alias dest : string) (st : Registry) :
  let st' := (RegisterAlias alias dest st).1 in
  ((RegisterAlias alias dest st).2 = None ↔
     alias ≠ EmptyString ∧ dest ≠ EmptyString ∧ strconv.Atoi alias = None
     ∧ (byAlias st !! alias = None ∨ pa_dest <$> byAlias st !! alias = Some dest))
  ∧ byNumber st' = byNumber st ∧ byName st' = byName st
  ∧ (∀ k a, byAlias st !! k = Some a → byAlias st' !! k = Some a)
  ∧ (∀ k, k ≠ alias → byAlias st' !! k = byAlias st !! k)
  ∧ ((RegisterAlias alias dest st).2 = None →
       pa_dest <$> byAlias st' !! alias = Some dest).
Proof.
  intros st'. subst st'. unfold RegisterAlias. rewrite !length_zero_empty.
  destruct (decide (alias = EmptyString)) as [Ha|Ha].
  { rewrite bool_decide_eq_true_2 by done. cbn. repeat split; try done; naive_solver. }
  rewrite bool_decide_eq_false_2 by done.
  destruct (decide (dest = EmptyString)) as [Hd|Hd].
  { rewrite bool_decide_eq_true_2 by done. cbn. repeat split; try done; naive_solver. }
  rewrite bool_decide_eq_false_2 by done.
  destruct (strconv.Atoi alias) as [i|] eqn:Hnum.
  { rewrite bool_decide_eq_true_2 by eauto. cbn. repeat split; try done; naive_solver. }
  rewrite bool_decide_eq_false_2 by (by intros [? ?]).
  destruct (byAlias st !! alias) as [orig|] eqn:Horig.
  - destruct (decide (pa_dest orig = dest)) as [Heq|Hneq].
    + rewrite bool_decide_eq_true_2 by done. cbn. rewrite Horig. cbn.
      repeat split; try done; try naive_solver.
    + rewrite bool_decide_eq_false_2 by done. cbn.
      repeat split; try done; naive_solver.
  - cbn. repeat split; try done; try naive_solver.
    + intros k a Hk. rewrite lookup_insert_ne; [done|congruence].
    + intros k Hk. by rewrite lookup_insert_ne.
    + intros _. by rewrite lookup_insert_eq.
Qed.

(** X10. The pin registered cannot be a wrapper: [Register] refuses
    every handle that implements [RealPin] and reports the pin behind
    it, whatever the state and the tier, at one of the steps (a) to
    (f), and leaves the registry as it is.  When the name is a valid
    pin name, the number is not negative, and the selected tier holds
    neither, the refusal is that of step (f): the error that says the
    pin is already an alias, with the [String()] of the pin behind. *)
Theorem Register_refuses_RealPin (q : Pin) (preferred : bool) (st : Registry) (r : string) :
  pin_Real q = Some r →
  ∃ e j, Register q preferred st = (st, Some e)
         ∧ Register_step_of e = Some j ∧ (j ≤ 5)%nat
         ∧ (pin_Name q ≠ EmptyString → strconv.Atoi (pin_Name q) = None →
            0 ≤ pin_Number q →
            at2 (byNumber st) (tier preferred) !! pin_Number q = None →
            at2 (byName st) (tier preferred) !! pin_Name q = None →
            e = ErrPinIsAlias (pin_Name q) r ∧ j = 5%nat).
Proof.
  intros Hreal. rewrite Register_first_failure.
  destruct (first_failure _) as [e|] eqn:Hff.
  - apply first_failure_Some in Hff as (j & Hj & Hbefore).
    exists e, j. split; [done|]. split; [by eapply Register_steps_distinct|].
    assert (j ≤ 5)%nat as Hle.
    { destruct (Nat.le_gt_cases j 5) as [?|Hgt]; [done|].
      specialize (Hbefore 5%nat Hgt). cbn in Hbefore. by rewrite Hreal in Hbefore. }
    split; [done|].
    intros Hname Hatoi Hnum Hd He.
    assert (j = 5%nat) as ->.
    { destruct (decide (j = 5%nat)) as [|Hne]; [done|]. exfalso.
      destruct j as [|[|[|[|[|j]]]]]; [..|lia].
      - cbn in Hj. by rewrite decide_False in Hj.
      - cbn in Hj. rewrite decide_False in Hj; [done|]. rewrite Hatoi. by intros [? ?].
      - cbn in Hj. rewrite decide_False in Hj; [done|lia].
      - rewrite Register_step_d, Hd in Hj. done.
      - rewrite Register_step_e, He in Hj. done. }
    split; [|done]. cbn in Hj. rewrite Hreal in Hj. cbn in Hj. congruence.
  - rewrite first_failure_None in Hff.
    specialize (Hff 5%nat _ eq_refl). cbn in Hff. by rewrite Hreal in Hff.
Qed.

(** The wrapper of an alias [LED] of [GPIO2], which only tier 1 holds,
    handed to [Register] for tier 0: steps (a) to (e) pass. *)
Lemma Register_refuses_RealPin_witness :
  Register LED_wrapper true two_tiers
  = (two_tiers, Some (ErrPinIsAlias "LED" "GPIO2"))
  ∧ ∃ e j, Register LED_wrapper true two_tiers = (two_tiers, Some e)
           ∧ Register_step_of e = Some j ∧ (j ≤ 5)%nat
           ∧ (pin_Name LED_wrapper ≠ EmptyString →
              strconv.Atoi (pin_Name LED_wrapper) = None →
              0 ≤ pin_Number LED_wrapper →
              at2 (byNumber two_tiers) (tier true) !! pin_Number LED_wrapper = None →
              at2 (byName two_tiers) (tier true) !! pin_Name LED_wrapper = None →
              e = ErrPinIsAlias (pin_Name LED_wrapper) "GPIO2" ∧ j = 5%nat).
Proof.
  split; [reflexivity|].
  apply (Register_refuses_RealPin LED_wrapper true two_tiers "GPIO2").
  reflexivity.
Defined.

(** ** What the registry keeps *)

(** X11. In every state the package reaches, the two maps of a tier
    index the same pins: a pin filed under a number has that number and
    is filed under its name in the same tier, and the other way round;
    and a name filed in both tiers has one number. *)
Theorem tier_maps_agree (st : Registry) :
  reachable st →
  (∀ i n p, at2 (byNumber st) i !! n = Some p →
            n = pin_Number p ∧ at2 (byName st) i !! pin_Name p = Some p)
  ∧ (∀ i s p, at2 (byName st) i !! s = Some p →
              s = pin_Name p ∧ at2 (byNumber st) i !! pin_Number p = Some p)
  ∧ (∀ s p q, (byName st).1 !! s = Some p → (byName st).2 !! s = Some q →
              pin_Number p = pin_Number q).
Proof.
  intros [WN WS _ WT _ _]%reachable_wf. split; [|split; [|done]].
  - intros i n p H. by destruct (WN i n p H).
  - intros i s p H. by destruct (WS i s p H).
Qed.

Lemma tier_maps_agree_witness :
  (∀ i n p, at2 (byNumber two_tiers) i !! n = Some p →
            n = pin_Number p ∧ at2 (byName two_tiers) i !! pin_Name p = Some p)
  ∧ (∀ i s p, at2 (byName two_tiers) i !! s = Some p →
              s = pin_Name p ∧ at2 (byNumber two_tiers) i !! pin_Number p = Some p)
  ∧ (∀ s p q, (byName two_tiers).1 !! s = Some p → (byName two_tiers).2 !! s = Some q →
              pin_Number p = pin_Number q).
Proof. apply (tier_maps_agree two_tiers). apply two_tiers_reachable. Defined.

(** X12. What never gets into the registry: in every state the package
    reaches, no pin has an empty name, a name that reads as an integer,
    a negative number, or a [RealPin] under it; no alias has an empty
    name, a name that reads as an integer, or an empty destination, and
    every alias record carries its own key as its name. *)
Theorem registry_never_holds (st : Registry) :
  reachable st →
  (∀ i s p, at2 (byName st) i !! s = Some p →
            s ≠ EmptyString ∧ strconv.Atoi s = None ∧ 0 ≤ pin_Number p
            ∧ pin_Real p = None)
  ∧ (∀ i n p, at2 (byNumber st) i !! n = Some p →
              0 ≤ n ∧ pin_Name p ≠ EmptyString ∧ strconv.Atoi (pin_Name p) = None
              ∧ pin_Real p = None)
  ∧ (∀ k a, byAlias st !! k = Some a →
            pa_name a = k ∧ k ≠ EmptyString ∧ strconv.Atoi k = None
            ∧ pa_dest a ≠ EmptyString).
Proof.
  intros [WN WS WP _ WA _]%reachable_wf. split; [|split; [|done]].
  - intros i s p H. destruct (WP i s p H) as (? & ? & ? & _ & ?). done.
  - intros i n p H. destruct (WN i n p H) as [<- Hs].
    destruct (WP i _ p Hs) as (? & ? & ? & _ & ?). done.
Qed.

Lemma registry_never_holds_witness :
  (∀ i s p, at2 (byName with_LED) i !! s = Some p →
            s ≠ EmptyString ∧ strconv.Atoi s = None ∧ 0 ≤ pin_Number p
            ∧ pin_Real p = None)
  ∧ (∀ i n p, at2 (byNumber with_LED) i !! n = Some p →
              0 ≤ n ∧ pin_Name p ≠ EmptyString ∧ strconv.Atoi (pin_Name p) = None
              ∧ pin_Real p = None)
  ∧ (∀ k a, byAlias with_LED !! k = Some a →
            pa_name a = k ∧ k ≠ EmptyString ∧ strconv.Atoi k = None
            ∧ pa_dest a ≠ EmptyString).
Proof.
  apply (registry_never_holds with_LED).
  apply reach_RegisterAlias, two_tiers_reachable.
Defined.

(** ** What a lookup changes *)

(** X13. [ByName] writes nothing but the pin of an alias: a call that
    returns leaves the pin maps, the set of aliases and their names and
    destinations as they were; the pin of an alias record is kept if it
    had one, and is set only for an alias whose destination resolves;
    and a call that returns absent leaves the whole registry as it
    was. *)
Theorem ByName_only_resolves (fuel : nat) (name : string) (st st' : Registry)
    (r : option PinIO) :
  ByName fuel name st = Some (st', r) →
  byNumber st' = byNumber st ∧ byName st' = byName st
  ∧ (∀ k, byAlias st' !! k = None ↔ byAlias st !! k = None)
  ∧ (∀ k a, byAlias st !! k = Some a →
       ∃ a', byAlias st' !! k = Some a'
             ∧ pa_name a' = pa_name a ∧ pa_dest a' = pa_dest a
             ∧ (pa_PinIO a' = pa_PinIO a
                ∨ (pa_PinIO a = None ∧ is_Some (pa_PinIO a') ∧ resolves st (pa_dest a))))
  ∧ (r = None → st' = st).
Proof.
  unfold ByName. intros H.
  pose proof (getByName_memo_ext _ _ _ _ _ H) as Hext.
  pose proof Hext as (EN & ES & _).
  split; [done|]. split; [done|]. split; [|split].
  - intros k. symmetry. by apply memo_ext_no_alias.
  - intros k a Ha.
    destruct (memo_ext_alias _ _ _ _ Hext Ha) as (a' & Ha' & Hn & Hd & HP).
    exists a'. split; [done|]. split; [done|]. split; [done|].
    destruct HP as [?|(? & ? & ?%resolves_ends)]; [by left|by right].
  - intros ->. by eapply getByName_absent_unchanged.
Qed.

Lemma ByName_only_resolves_witness :
  let st' := set_PinIO "LED" (Some (Driver GPIO2)) with_LED in
  byNumber st' = byNumber with_LED ∧ byName st' = byName with_LED
  ∧ (∀ k, byAlias st' !! k = None ↔ byAlias with_LED !! k = None)
  ∧ (∀ k a, byAlias with_LED !! k = Some a →
       ∃ a', byAlias st' !! k = Some a'
             ∧ pa_name a' = pa_name a ∧ pa_dest a' = pa_dest a
             ∧ (pa_PinIO a' = pa_PinIO a
                ∨ (pa_PinIO a = None ∧ is_Some (pa_PinIO a')
                   ∧ resolves with_LED (pa_dest a))))
  ∧ (Some (AliasPtr "LED") = None → st' = with_LED).
Proof.
  apply (ByName_only_resolves 2 "LED" with_LED). reflexivity.
Defined.

(** X14. Looking a name up twice is looking it up once: after a call
    that returned, the same call returns the same result and changes
    nothing more. *)
Theorem ByName_twice (fuel : nat) (name : string) (st st' : Registry) (r : option PinIO) :
  ByName fuel name st = Some (st', r) →
  ByName fuel name st' = Some (st', r).
Proof.
  unfold ByName. destruct fuel as [|fuel]; [discriminate|]. intros H.
  pose proof (getByName_memo_ext _ _ _ _ _ H) as (_ & ES & _).
  cbn [getByName] in H |- *. rewrite ES.
  destruct ((byName st).1 !! name); [by injection H as <- <-|].
  destruct ((byName st).2 !! name); [by injection H as <- <-|].
  destruct (byAlias st !! name) as [a|] eqn:Ha.
  - destruct (pa_PinIO a) as [h|] eqn:Hp.
    { injection H as <- <-. by rewrite Ha, Hp. }
    destruct (getByName fuel (pa_dest a) st) as [[st1 [h|]]|] eqn:Hrec; try discriminate.
    + injection H as <- <-.
      destruct (memo_ext_alias _ _ _ _ (getByName_memo_ext _ _ _ _ _ Hrec) Ha)
        as (a1 & Ha1 & _).
      by rewrite (set_PinIO_lookup _ _ _ _ Ha1).
    + injection H as <- <-.
      pose proof (getByName_absent_unchanged _ _ _ _ Hrec) as ->.
      rewrite (set_PinIO_None_id _ _ _ Ha Hp), Ha, Hp, Hrec.
      by rewrite (set_PinIO_None_id _ _ _ Ha Hp).
  - destruct (strconv.Atoi name); injection H as <- <-; by rewrite Ha.
Qed.

Lemma ByName_twice_witness :
  ByName 2 "LED" (set_PinIO "LED" (Some (Driver GPIO2)) with_LED)
  = Some (set_PinIO "LED" (Some (Driver GPIO2)) with_LED, Some (AliasPtr "LED")).
Proof. apply (ByName_twice 2 "LED" with_LED). reflexivity. Defined.

(** ** Lookups do not disturb each other *)

Lemma chain_lookup_result st name st' r :
  ByName_chain st name st' r → r = lookup_result st name (bool_decide (is_Some r)).
Proof.
  unfold lookup_result.
  destruct 1 as [st name p H0|st name p H0 H1|st name a h H0 H1 Ha Hp
                |st name a st' h H0 H1 Ha Hp Hrec
                |st name a st' H0 H1 Ha Hp Hrec
                |st name i H0 H1 Ha Hi|st name H0 H1 Ha Hi];
    rewrite ?H0, ?H1, ?Ha, ?Hi; try done.
Qed.

Lemma lookup_result_ext st st' name b :
  memo_ext st st' → lookup_result st' name b = lookup_result st name b.
Proof.
  intros Hext. pose proof Hext as (EN & ES & HA). unfold lookup_result.
  rewrite ES. specialize (HA name).
  destruct ((byName st).1 !! name); [done|].
  destruct ((byName st).2 !! name); [done|].
  destruct (byAlias st !! name), (byAlias st' !! name); try done.
  destruct (strconv.Atoi name); [|done]. by apply getByNumber_ext.
Qed.

(** Resolving aliases changes the result of no lookup. *)
Lemma memo_ext_result st st' name r :
  memo_ext st st' →
  (∃ st1, ByName_chain st name st1 r) ↔ (∃ st1, ByName_chain st' name st1 r).
Proof.
  intros Hext. split; intros [st1 Hc].
  - pose proof (chain_lookup_result _ _ _ _ Hc) as Hr.
    pose proof (memo_ext_ends _ _ _ _ Hext (chain_ends _ _ _ _ Hc)) as He.
    destruct (ends_chain _ _ _ He) as (st1' & r' & Hc' & Hb).
    exists st1'. pose proof (chain_lookup_result _ _ _ _ Hc') as Hr'.
    rewrite Hb, (lookup_result_ext st st') in Hr' by done. congruence.
  - pose proof (chain_lookup_result _ _ _ _ Hc) as Hr.
    pose proof (memo_ext_ends_inv _ _ _ _ Hext (chain_ends _ _ _ _ Hc)) as He.
    destruct (ends_chain _ _ _ He) as (st1' & r' & Hc' & Hb).
    exists st1'. pose proof (chain_lookup_result _ _ _ _ Hc') as Hr'.
    rewrite Hb in Hr'. rewrite (lookup_result_ext st st') in Hr by done. congruence.
Qed.

(** X15. A lookup changes the result of no other lookup: after a call
    of [ByName] that returned, every name is looked up with the result
    it had before the call, and a lookup that did not return before
    does not return after. *)
Theorem ByName_does_not_disturb (fuel : nat) (name : string) (st st' : Registry)
    (r : option PinIO) :
  ByName fuel name st = Some (st', r) →
  ∀ name2 r2,
    (∃ fuel2 st2, ByName fuel2 name2 st = Some (st2, r2))
    ↔ (∃ fuel2 st2, ByName fuel2 name2 st' = Some (st2, r2)).
Proof.
  unfold ByName. intros H name2 r2.
  pose proof (getByName_memo_ext _ _ _ _ _ H) as Hext.
  pose proof (memo_ext_result st st' name2 r2 Hext) as Hres.
  split.
  - intros (fuel2 & st2 & H2). apply getByName_sound in H2.
    destruct (proj1 Hres (ex_intro _ st2 H2)) as [st2' Hc].
    destruct (getByName_complete _ _ _ _ Hc) as [fuel2' ?]. eauto.
  - intros (fuel2 & st2 & H2). apply getByName_sound in H2.
    destruct (proj2 Hres (ex_intro _ st2 H2)) as [st2' Hc].
    destruct (getByName_complete _ _ _ _ Hc) as [fuel2' ?]. eauto.
Qed.

Lemma ByName_does_not_disturb_witness :
  ByName 2 "LED" with_LED
  = Some (set_PinIO "LED" (Some (Driver GPIO2)) with_LED, Some (AliasPtr "LED"))
  ∧ ∀ name2 r2,
      (∃ fuel2 st2, ByName fuel2 name2 with_LED = Some (st2, r2))
      ↔ (∃ fuel2 st2, ByName fuel2 name2 (set_PinIO "LED" (Some (Driver GPIO2)) with_LED)
                      = Some (st2, r2)).
Proof.
  split; [reflexivity|].
  apply (ByName_does_not_disturb 2 "LED" with_LED
           (set_PinIO "LED" (Some (Driver GPIO2)) with_LED) (Some (AliasPtr "LED"))).
  reflexivity.
Defined.

(** ** What stays true as the registry grows *)

Lemma step_resolves st st' name :
  step st st' → lookup_ends st name true → lookup_ends st' name true.
Proof.
  intros Hs Hends.
  destruct Hs as [st p preferred _|st alias dest|st fuel n st' r Hby|st fuel kvs st' out _ Hal].
  - destruct (Register p preferred st) as [st' [e|]] eqn:HR; cbn.
    + by apply Register_error_unchanged in HR as ->.
    + destruct (Register_ok_facts _ _ _ _ HR)
        as (_ & Hnum & _ & HfreshN & _ & _ & Hnoalias & _ & ->).
      eapply lookup_ends_Register_mono; eauto.
  - destruct (RegisterAlias_cases alias dest st) as [->|(_ & _ & Hnum & Hfresh & ->)]; [done|].
    eapply lookup_ends_alias_mono; eauto.
  - eapply memo_ext_ends; [|done]. by eapply getByName_memo_ext.
  - eapply memo_ext_ends; [|done]. by eapply Aliases_loop_memo_ext.
Qed.

(** X16. Nothing is ever lost: a name whose lookup returns a pin in
    some state has a lookup that returns a pin after any further calls
    of [Register], [RegisterAlias], [ByName] and [Aliases], successful
    or not. *)
Theorem resolves_forever (st st' : Registry) (name : string) :
  rtc step st st' → resolves st name → resolves st' name.
Proof.
  intros Hs. rewrite !resolves_ends.
  induction Hs as [st|st st1 st' Hs1 _ IH]; [done|].
  intros H. apply IH. by eapply step_resolves.
Qed.

Lemma resolves_forever_witness :
  resolves (RegisterAlias "GPIO2" "PWM7" (Register PREF5 true two_tiers).1).1 "GPIO2".
Proof.
  apply (resolves_forever two_tiers
           (RegisterAlias "GPIO2" "PWM7" (Register PREF5 true two_tiers).1).1 "GPIO2").
  - eapply rtc_l; [apply (step_Register two_tiers PREF5 true); apply is_int_small; cbn; lia|].
    apply rtc_once. apply step_RegisterAlias.
  - exists two_tiers, (Driver GPIO2). apply chain_tier1; reflexivity.
Defined.

(** ** Numbers as names *)

(** X17. In every state the package reaches, a string that [Atoi]
    reads as an integer is looked up as that number whatever its
    spelling (a sign, leading zeros): the tier-0 pin of the number, else
    the tier-1 pin, else absent; the pin returned has that number, and a
    negative number gives absent.  The call changes nothing. *)
Theorem ByName_number_spellings (st : Registry) (s : string) (i : Z) (fuel : nat) :
  reachable st → strconv.Atoi s = Some i →
  ByName (S fuel) s st = Some (st, getByNumber i st)
  ∧ getByNumber i st
    = match (byNumber st).1 !! i with
      | Some p => Some (Driver p)
      | None => Driver <$> (byNumber st).2 !! i
      end
  ∧ (∀ h, getByNumber i st = Some h → ∃ p, h = Driver p ∧ pin_Number p = i)
  ∧ (i < 0 → getByNumber i st = None).
Proof.
  intros Hwf%reachable_wf Hi. unfold ByName.
  split; [by apply getByName_numeric|]. split; [apply getByNumber_chain|].
  assert (∀ h, getByNumber i st = Some h → ∃ p, h = Driver p ∧ pin_Number p = i
                                               ∧ 0 ≤ pin_Number p) as Hpin.
  { intros h. unfold getByNumber.
    destruct ((byNumber st).1 !! i) as [p|] eqn:H0.
    - intros [= <-]. destruct (wf_number _ Hwf 0%nat _ _ H0) as [Hn Hs].
      destruct (wf_pin _ Hwf 0%nat _ _ Hs) as (_ & _ & ? & _). eauto.
    - destruct ((byNumber st).2 !! i) as [p|] eqn:H1; [|done].
      intros [= <-]. destruct (wf_number _ Hwf 1%nat _ _ H1) as [Hn Hs].
      destruct (wf_pin _ Hwf 1%nat _ _ Hs) as (_ & _ & ? & _). eauto. }
  split.
  - intros h Hh. destruct (Hpin h Hh) as (p & ? & ? & _). eauto.
  - intros Hneg. destruct (getByNumber i st) as [h|] eqn:Hh; [|done].
    destruct (Hpin h eq_refl) as (p & _ & ? & ?). lia.
Qed.

Example ByName_plus_004 :
  ByName 1 "+004" two_tiers = Some (two_tiers, Some (Driver GPIO4)).
Proof. reflexivity. Qed.

Example ByName_minus_4 : ByName 1 "-4" two_tiers = Some (two_tiers, None).
Proof. reflexivity. Qed.

Lemma ByName_number_spellings_witness :
  ByName 1 "+004" two_tiers = Some (two_tiers, getByNumber 4 two_tiers)
  ∧ getByNumber 4 two_tiers
    = match (byNumber two_tiers).1 !! 4 with
      | Some p => Some (Driver p)
      | None => Driver <$> (byNumber two_tiers).2 !! 4
      end
  ∧ (∀ h, getByNumber 4 two_tiers = Some h → ∃ p, h = Driver p ∧ pin_Number p = 4)
  ∧ (4 < 0 → getByNumber 4 two_tiers = None).
Proof.
  apply (ByName_number_spellings two_tiers "+004" 4 0).
  - apply two_tiers_reachable.
  - reflexivity.
Defined.

(** ** A pin name stays a pin name *)

Lemma step_keeps_tier0 st st' s p :
  step st st' → (byName st).1 !! s = Some p → (byName st').1 !! s = Some p.
Proof.
  intros Hs Hp.
  destruct Hs as [st q preferred _|st alias dest|st fuel n st' r Hby|st fuel kvs st' out _ Hal].
  - destruct (Register q preferred st) as [st' [e|]] eqn:HR; cbn.
    + by apply Register_error_unchanged in HR as ->.
    + destruct (Register_ok_facts _ _ _ _ HR) as (_ & _ & _ & _ & HfreshS & _ & _ & _ & ->).
      destruct (Register_inserted_tiers q preferred st) as (-> & _).
      destruct preferred; [|done]. cbn in HfreshS.
      rewrite lookup_insert_ne; [done|congruence].
  - by destruct (RegisterAlias_cases alias dest st) as [->|(_ & _ & _ & _ & ->)].
  - apply getByName_memo_ext in Hby as (_ & -> & _). done.
  - apply Aliases_loop_memo_ext in Hal as (_ & -> & _). done.
Qed.

Lemma step_keeps_tier1 st st' s p :
  step st st' → (byName st).2 !! s = Some p → (byName st').2 !! s = Some p.
Proof.
  intros Hs Hp.
  destruct Hs as [st q preferred _|st alias dest|st fuel n st' r Hby|st fuel kvs st' out _ Hal].
  - destruct (Register q preferred st) as [st' [e|]] eqn:HR; cbn.
    + by apply Register_error_unchanged in HR as ->.
    + destruct (Register_ok_facts _ _ _ _ HR) as (_ & _ & _ & _ & HfreshS & _ & _ & _ & ->).
      destruct (Register_inserted_tiers q preferred st) as (_ & -> & _).
      destruct preferred; [done|]. cbn in HfreshS.
      rewrite lookup_insert_ne; [done|congruence].
  - by destruct (RegisterAlias_cases alias dest st) as [->|(_ & _ & _ & _ & ->)].
  - apply getByName_memo_ext in Hby as (_ & -> & _). done.
  - apply Aliases_loop_memo_ext in Hal as (_ & -> & _). done.
Qed.

(** X18. A pin is never replaced and a pin name never becomes an
    alias for the lookup: once a name is registered in a tier, after any
    further calls the registration is still there, and the lookup of the
    name returns a pin of that name, no wrapper, even when an alias of
    that name is registered later; a tier-0 registration is returned
    itself for ever. *)
Theorem pin_name_stays (st st' : Registry) (i : nat) (s : string) (p : Pin) :
  reachable st → at2 (byName st) i !! s = Some p → rtc step st st' →
  at2 (byName st') i !! s = Some p
  ∧ (∀ fuel, ∃ q, ByName (S fuel) s st' = Some (st', Some (Driver q))
                  ∧ pin_Name q = s ∧ pin_Number q = pin_Number p)
  ∧ (i = 0%nat → ∀ fuel, ByName (S fuel) s st' = Some (st', Some (Driver p))).
Proof.
  intros Hreach Hp Hsteps.
  pose proof (reachable_wf _ (reachable_steps _ _ Hreach Hsteps)) as Hwf'.
  assert (at2 (byName st') i !! s = Some p) as Hp'.
  { clear Hreach Hwf'. induction Hsteps as [st|st st1 st' Hs1 _ IH]; [done|].
    apply IH. destruct i as [|i]; cbn in *;
      [by eapply step_keeps_tier0|by eapply step_keeps_tier1]. }
  split; [done|]. unfold ByName. split.
  - intros fuel. destruct ((byName st').1 !! s) as [q|] eqn:H0.
    + exists q. split; [by apply getByName_tier0|].
      destruct (wf_name _ Hwf' 0%nat _ _ H0) as [? _]. split; [done|].
      destruct i as [|i]; cbn in Hp'; [congruence|]. by eapply (wf_tiers _ Hwf').
    + destruct i as [|i]; cbn in Hp'; [congruence|].
      exists p. split; [by apply getByName_tier1|].
      by destruct (wf_name _ Hwf' 1%nat _ _ Hp').
  - intros -> fuel. by apply getByName_tier0.
Qed.

Lemma pin_name_stays_witness :
  at2 (byName alias_under_pin_name) 0 !! "GPIO2" = Some GPIO2
  ∧ (∀ fuel, ∃ q, ByName (S fuel) "GPIO2" alias_under_pin_name
                  = Some (alias_under_pin_name, Some (Driver q))
                  ∧ pin_Name q = "GPIO2" ∧ pin_Number q = pin_Number GPIO2)
  ∧ (0%nat = 0%nat → ∀ fuel, ByName (S fuel) "GPIO2" alias_under_pin_name
                             = Some (alias_under_pin_name, Some (Driver GPIO2))).
Proof.
  apply (pin_name_stays (Register PWM7 true (Register GPIO2 true empty_registry).1).1
           alias_under_pin_name 0 "GPIO2" GPIO2).
  - repeat (apply reach_Register; [|apply is_int_small; cbn; lia]). apply reach_init.
  - reflexivity.
  - apply rtc_once. apply step_RegisterAlias.
Defined.

(** ** The order of a [range] does not show *)

Lemma fmap_eq_in_NoDup {A B} (f : A → B) (l : list A) x y :
  NoDup (f <$> l) → x ∈ l → y ∈ l → f x = f y → x = y.
Proof.
  intros Hnd [i Hi]%list_elem_of_lookup [j Hj]%list_elem_of_lookup Hxy.
  assert (i = j) as ->.
  { eapply (NoDup_lookup (f <$> l)); [done| |].
    - by rewrite list_lookup_fmap, Hi.
    - rewrite list_lookup_fmap, Hj. cbn. by rewrite Hxy. }
  congruence.
Qed.

Lemma All_from_perm ps0 ps0' ps1 ps1' :
  ps0 ≡ₚ ps0' → ps1 ≡ₚ ps1' → All_from ps0 ps1 ≡ₚ All_from ps0' ps1'.
Proof.
  intros H0 H1.
  destruct (All_from_spec ps0 ps1) as [Hp _].
  destruct (All_from_spec ps0' ps1') as [Hp' _].
  rewrite Hp, Hp'.
  assert ((list_to_set (pin_Number <$> ps0) : gset Z) = list_to_set (pin_Number <$> ps0'))
    as ->.
  { apply set_eq. intros n. rewrite !elem_of_list_to_set. by rewrite H0. }
  by rewrite H0, H1.
Qed.

Lemma All_from_numbers_NoDup st kvs0 kvs1 :
  wf st → range_of (byNumber st).1 kvs0 → range_of (byNumber st).2 kvs1 →
  NoDup (pin_Number <$> All_from kvs0.*2 kvs1.*2).
Proof.
  intros Hwf Hr0 Hr1.
  destruct (range_of_numbers _ _ (λ n p H, proj1 (wf_number _ Hwf 0%nat n p H)) Hr0)
    as (_ & Hnd0 & _ & Hnum0).
  destruct (range_of_numbers _ _ (λ n p H, proj1 (wf_number _ Hwf 1%nat n p H)) Hr1)
    as (_ & Hnd1 & _ & _).
  destruct (All_from_spec kvs0.*2 kvs1.*2) as (Hperm & _).
  rewrite Hperm, fmap_app. apply NoDup_app. split; [|split; [|done]].
  - eapply sublist_NoDup; [exact Hnd1|]. apply fmap_sublist, sublist_filter.
  - intros n ([p] & -> & [Hp _]%list_elem_of_filter)%list_elem_of_fmap Hn.
    apply Hp. by rewrite elem_of_list_to_set.
Qed.

(** X19. The list [All()] returns does not depend on the order in
    which Go's [range] walks the two maps: in every state the package
    reaches, any two orders give the same list. *)
Theorem All_order_independent (st : Registry) (kvs0 kvs0' kvs1 kvs1' : list (Z * Pin)) :
  reachable st →
  range_of (byNumber st).1 kvs0 → range_of (byNumber st).1 kvs0' →
  range_of (byNumber st).2 kvs1 → range_of (byNumber st).2 kvs1' →
  All_from kvs0.*2 kvs1.*2 = All_from kvs0'.*2 kvs1'.*2.
Proof.
  intros Hwf%reachable_wf Hr0 Hr0' Hr1 Hr1'.
  pose proof (All_from_numbers_NoDup st kvs0 kvs1 Hwf Hr0 Hr1) as Hnd.
  assert (All_from kvs0.*2 kvs1.*2 ≡ₚ All_from kvs0'.*2 kvs1'.*2) as Hperm.
  { unfold range_of in *. apply All_from_perm; apply fmap_Permutation; by etrans. }
  apply (StronglySorted_unique_strong le_number); [|apply All_from_spec..|done].
  intros x1 x2 Hx1 Hx2 H12 H21. rewrite <- Hperm in Hx2.
  eapply (fmap_eq_in_NoDup pin_Number); [done..|].
  unfold le_number in *. lia.
Qed.

Lemma All_order_independent_witness :
  All two_tiers
  = All_from (reverse (map_to_list (byNumber two_tiers).1)).*2
             (reverse (map_to_list (byNumber two_tiers).2)).*2.
Proof.
  apply (All_order_independent two_tiers).
  - apply two_tiers_reachable.
  - unfold range_of. reflexivity.
  - unfold range_of. apply reverse_Permutation.
  - unfold range_of. reflexivity.
  - unfold range_of. apply reverse_Permutation.
Defined.

(** ** [Aliases], off the cycles *)

Lemma with_dangling_reachable : reachable with_dangling.
Proof. repeat apply reach_RegisterAlias. apply two_tiers_reachable. Qed.

Lemma with_dangling_lookups_return : lookups_return with_dangling.
Proof.
  intros k a Hk _. apply elem_of_map_to_list in Hk.
  let l := eval vm_compute in (map_to_list (byAlias with_dangling)) in
  change (map_to_list (byAlias with_dangling)) with l in Hk.
  repeat (apply elem_of_cons in Hk as [Hk|Hk]); try (by apply elem_of_nil in Hk);
    injection Hk as -> ->; cbn [pa_dest].
  - exists with_dangling, (Some (Driver GPIO2)). apply chain_tier1; reflexivity.
  - exists with_dangling, None. apply chain_absent; reflexivity.
Qed.

(** [Aliases] on the sample state: the alias [LED] resolves, the alias
    [dangling] does not. *)
Lemma Aliases_sorted_resolved_witness :
  ∃ fuel st' out,
    Aliases_from fuel (map_to_list (byAlias with_dangling)).*1 with_dangling
    = Some (st', out)
    ∧ StronglySorted (lt_name st') out
    ∧ NoDup out
    ∧ (∀ h, h ∈ out ↔ ∃ k, h = AliasPtr k ∧ alias_resolves with_dangling k)
    ∧ (∀ k, AliasPtr k ∈ out →
         Name st' (AliasPtr k) = k ∧ is_Some (Real st' (AliasPtr k))).
Proof.
  apply (Aliases_sorted_resolved with_dangling (map_to_list (byAlias with_dangling))).
  - apply with_dangling_reachable.
  - apply with_dangling_lookups_return.
  - unfold range_of. reflexivity.
Defined.

(** What a returning run of the loop gives, from a state [s0] that [st]
    has grown into by resolving aliases. *)
Lemma Aliases_run_spec st s0 keys fuel s out :
  wf st → lookups_return st → memo_ext st s0 →
  NoDup keys → (∀ k, k ∈ keys ↔ is_Some (byAlias st !! k)) →
  Aliases_loop fuel keys [] s0 = Some (s, out) →
  memo_ext st s
  ∧ StronglySorted (le_name st) out
  ∧ NoDup out
  ∧ (∀ h, h ∈ out ↔ ∃ k, h = AliasPtr k ∧ alias_resolves st k)
  ∧ (∀ k a, byAlias s !! k = Some a → pa_PinIO a = None → ¬ alias_resolves st k).
Proof.
  intros Hwf Hret Hext Hnd Hkeys Hrun.
  destruct (Aliases_loop_spec st keys Hwf Hret (λ k, proj1 (Hkeys k)) s0 []
              Hext (SSorted_nil _))
    as (fuel0 & s' & out0 & taken & Hloop & Hext' & Hsub & Htaken & Hres & Hperm & Hs).
  apply (Aliases_loop_fuel_mono _ (fuel + fuel0)) in Hrun; [|lia].
  apply (Aliases_loop_fuel_mono _ (fuel + fuel0)) in Hloop; [|lia].
  rewrite Hrun in Hloop. injection Hloop as <- <-.
  rewrite app_nil_r in Hperm.
  split; [done|]. split; [done|]. split; [|split].
  - rewrite Hperm. apply (NoDup_fmap_2 _). by eapply sublist_NoDup.
  - intros h. rewrite Hperm. split.
    + intros (k & -> & Hk)%list_elem_of_fmap. exists k. split; [done|].
      apply Htaken; [|done]. by eapply elem_of_sublist.
    + intros (k & -> & Hr). apply list_elem_of_fmap_2. apply Htaken; [|done].
      apply Hkeys. destruct Hr as (a & Ha & _). eauto.
  - intros k a Ha Hp Hr.
    assert (k ∈ taken) as Hk.
    { apply Htaken; [|done]. apply Hkeys. destruct Hr as (a0 & Ha0 & _). eauto. }
    destruct (Hres k Hk) as (a' & Ha' & [h Hp']). congruence.
Qed.

(** Two sorted lists of wrappers of the same aliases are one list. *)
Lemma alias_lists_equal st out out' :
  wf st →
  StronglySorted (le_name st) out → StronglySorted (le_name st) out' →
  NoDup out → NoDup out' →
  (∀ h, h ∈ out → ∃ k, h = AliasPtr k ∧ is_Some (byAlias st !! k)) →
  (∀ h, h ∈ out ↔ h ∈ out') →
  out = out'.
Proof.
  intros Hwf Hs Hs' Hnd Hnd' Hal Hmem.
  apply (StronglySorted_unique_strong (le_name st)); [|done|done|by apply NoDup_Permutation].
  intros x1 x2 Hx1 Hx2 H12 H21. apply Hmem in Hx2.
  destruct (Hal x1 Hx1) as (k1 & -> & [a1 Ha1]).
  destruct (Hal x2 Hx2) as (k2 & -> & [a2 Ha2]).
  unfold le_name in *.
  rewrite (wf_Name_alias st k1 a1), (wf_Name_alias st k2 a2) in * by done.
  f_equal. by apply (anti_symm String.le).
Qed.

(** X21. The list [Aliases()] returns does not depend on the order in
    which Go's [range] walks the aliases: in a state the package
    reaches, where the lookup of every unresolved alias's destination
    returns, two calls that walk the map in two orders return the same
    list. *)
Theorem Aliases_order_independent (st : Registry) (kvs kvs' : list (string * pinAlias))
    (fuel fuel' : nat) (s s' : Registry) (out out' : list PinIO) :
  reachable st → lookups_return st →
  range_of (byAlias st) kvs → range_of (byAlias st) kvs' →
  Aliases_from fuel kvs.*1 st = Some (s, out) →
  Aliases_from fuel' kvs'.*1 st = Some (s', out') →
  out = out'.
Proof.
  intros Hwf%reachable_wf Hret [Hnd Hkeys]%range_of_keys [Hnd' Hkeys']%range_of_keys Hrun Hrun'.
  destruct (Aliases_run_spec st st _ _ _ _ Hwf Hret (memo_ext_refl st) Hnd Hkeys Hrun)
    as (_ & Hs & Hndo & Hmem & _).
  destruct (Aliases_run_spec st st _ _ _ _ Hwf Hret (memo_ext_refl st) Hnd' Hkeys' Hrun')
    as (_ & Hs' & Hndo' & Hmem' & _).
  apply (alias_lists_equal st); try done.
  - intros h (k & -> & a & Ha & _)%Hmem. eauto.
  - intros h. by rewrite Hmem, Hmem'.
Qed.

(** A state in which every alias that can be resolved is resolved: the
    loop of [Aliases] changes nothing. *)
Lemma Aliases_loop_saturated fuel keys out s s' out' :
  (∀ k a, byAlias s !! k = Some a → pa_PinIO a = None → ¬ resolves s (pa_dest a)) →
  Aliases_loop fuel keys out s = Some (s', out') → s' = s.
Proof.
  intros Hsat. revert out.
  induction keys as [|k keys IH]; intros out; cbn [Aliases_loop].
  { by intros [= <- _]. }
  destruct (byAlias s !! k) as [a|] eqn:Ha; [|apply IH].
  destruct (pa_PinIO a) eqn:Hp; [apply IH|].
  destruct (getByName fuel (pa_dest a) s) as [[s1 [h|]]|] eqn:Hrec; [| |discriminate].
  - exfalso. apply (Hsat k a Ha Hp). exists s1, h. by eapply getByName_sound.
  - apply getByName_absent_unchanged in Hrec as ->.
    rewrite (set_PinIO_None_id _ _ _ Ha Hp). apply IH.
Qed.

(** What a second run of the loop of [Aliases] can return, after a
    first run that returned: the list and the state of the first. *)
Lemma Aliases_second_run (st : Registry) (kvs kvs' : list (string * pinAlias))
    (fuel fuel' : nat) (s s' : Registry) (out out' : list PinIO) :
  wf st → lookups_return st →
  range_of (byAlias st) kvs →
  Aliases_from fuel kvs.*1 st = Some (s, out) →
  range_of (byAlias s) kvs' →
  Aliases_from fuel' kvs'.*1 s = Some (s', out') →
  out' = out ∧ s' = s.
Proof.
  intros Hwf Hret [Hnd Hkeys]%range_of_keys Hrun [Hnd' Hkeys']%range_of_keys Hrun'.
  destruct (Aliases_run_spec st st _ _ _ _ Hwf Hret (memo_ext_refl st) Hnd Hkeys Hrun)
    as (Hext & Hs & Hndo & Hmem & Hsat).
  assert (∀ k, k ∈ kvs'.*1 ↔ is_Some (byAlias st !! k)) as Hkeys''.
  { intros k. rewrite Hkeys', <- !not_eq_None_Some.
    by rewrite (memo_ext_no_alias st s k Hext). }
  destruct (Aliases_run_spec st s _ _ _ _ Hwf Hret Hext Hnd' Hkeys'' Hrun')
    as (_ & Hs' & Hndo' & Hmem' & _).
  split.
  - symmetry. apply (alias_lists_equal st); try done.
    + intros h (k & -> & a & Ha & _)%Hmem. eauto.
    + intros h. by rewrite Hmem, Hmem'.
  - eapply Aliases_loop_saturated; [|exact Hrun'].
    intros k a Ha Hp Hr.
    destruct (memo_ext_alias_inv _ _ _ _ Hext Ha) as (a0 & Ha0 & _ & Hd & _).
    apply (Hsat k a Ha Hp). exists a0. split; [done|].
    apply resolves_ends. rewrite <- Hd.
    eapply memo_ext_ends_inv; [done|]. by apply resolves_ends.
Qed.

(** X22. Calling [Aliases()] again gives the same list and changes
    nothing: after a call that returned, in a state the package reaches
    where the lookup of every unresolved alias's destination returns, a
    second call returns, whatever the order of its [range]; it returns
    the list of the first call and leaves the registry as the first
    call left it, and it can return nothing else. *)
Theorem Aliases_twice (st : Registry) (kvs kvs' : list (string * pinAlias))
    (fuel : nat) (s : Registry) (out : list PinIO) :
  reachable st → lookups_return st →
  range_of (byAlias st) kvs →
  Aliases_from fuel kvs.*1 st = Some (s, out) →
  range_of (byAlias s) kvs' →
  (∃ fuel', Aliases_from fuel' kvs'.*1 s = Some (s, out))
  ∧ (∀ fuel' s' out', Aliases_from fuel' kvs'.*1 s = Some (s', out') →
       out' = out ∧ s' = s).
Proof.
  intros Hwf%reachable_wf Hret Hrange Hrun Hrange'.
  assert (∀ fuel' s' out', Aliases_from fuel' kvs'.*1 s = Some (s', out') →
            out' = out ∧ s' = s) as Hsame.
  { intros fuel' s' out'. by eapply Aliases_second_run. }
  split; [|exact Hsame].
  pose proof Hrange as [Hnd Hkeys]%range_of_keys.
  pose proof Hrange' as [_ Hkeys']%range_of_keys.
  destruct (Aliases_run_spec st st _ _ _ _ Hwf Hret (memo_ext_refl st) Hnd Hkeys Hrun)
    as (Hext & _).
  destruct (Aliases_loop_spec st kvs'.*1 Hwf Hret) with (st := s) (out := @nil PinIO)
    as (fuel' & s' & out' & taken & Hrun' & _).
  { intros k Hk%Hkeys'. rewrite <- not_eq_None_Some in *.
    by rewrite (memo_ext_no_alias st s k Hext). }
  { done. }
  { constructor. }
  exists fuel'. destruct (Hsame fuel' s' out' Hrun') as [-> ->]. exact Hrun'.
Qed.

Lemma Aliases_order_independent_witness :
  Aliases_from 2 (map_to_list (byAlias with_dangling)).*1 with_dangling
  = Some (with_dangling_resolved, [AliasPtr "LED"])
  ∧ Aliases_from 2 (reverse (map_to_list (byAlias with_dangling))).*1 with_dangling
    = Some (with_dangling_resolved, [AliasPtr "LED"])
  ∧ [AliasPtr "LED"] = [AliasPtr "LED"].
Proof.
  split; [vm_compute; reflexivity|]. split; [vm_compute; reflexivity|].
  apply (Aliases_order_independent with_dangling
           (map_to_list (byAlias with_dangling))
           (reverse (map_to_list (byAlias with_dangling)))
           2 2 with_dangling_resolved with_dangling_resolved).
  - apply with_dangling_reachable.
  - apply with_dangling_lookups_return.
  - unfold range_of. reflexivity.
  - unfold range_of. apply reverse_Permutation.
  - vm_compute. reflexivity.
  - vm_compute. reflexivity.
Defined.

(** The sample state with its dangling alias: the first call resolves
    [LED], and the second, over the reversed order, returns the same. *)
Lemma Aliases_twice_witness :
  Aliases_from 2 (map_to_list (byAlias with_dangling)).*1 with_dangling
  = Some (with_dangling_resolved, [AliasPtr "LED"])
  ∧ (∃ fuel', Aliases_from fuel'
                (reverse (map_to_list (byAlias with_dangling_resolved))).*1
                with_dangling_resolved
              = Some (with_dangling_resolved, [AliasPtr "LED"]))
  ∧ (∀ fuel' s' out',
       Aliases_from fuel' (reverse (map_to_list (byAlias with_dangling_resolved))).*1
         with_dangling_resolved = Some (s', out') →
       out' = [AliasPtr "LED"] ∧ s' = with_dangling_resolved).
Proof.
  split; [vm_compute; reflexivity|].
  apply (Aliases_twice with_dangling
           (map_to_list (byAlias with_dangling))
           (reverse (map_to_list (byAlias with_dangling_resolved)))
           2 with_dangling_resolved [AliasPtr "LED"]).
  - apply with_dangling_reachable.
  - apply with_dangling_lookups_return.
  - unfold range_of. reflexivity.
  - vm_compute. reflexivity.
  - unfold range_of. apply reverse_Permutation.
Defined.

(** ** Wrappers lead to pins *)

Lemma grounded_Number st h n : grounded st h n → ∃ fuel, Number fuel st h = Some n.
Proof.
  induction 1 as [p i Hp|k a h n Ha Hp _ [fuel IH]].
  - by exists 0%nat.
  - exists (S fuel). cbn. by rewrite Ha, Hp.
Qed.

Lemma grounded_grows st st' h n : grows st st' → grounded st h n → grounded st' h n.
Proof.
  intros [Hpins Hal]. induction 1 as [p i Hp|k a h n Ha Hp _ IH].
  - eapply grounded_driver. by apply Hpins.
  - destruct (Hal k a h Ha Hp) as (a' & Ha' & Hp'). by eapply grounded_alias.
Qed.

Lemma memo_ext_grows st st' : memo_ext st st' → grows st st'.
Proof.
  intros Hext. pose proof Hext as (_ & ES & _). split.
  - intros i s p. by rewrite ES.
  - intros k a h Ha Hp.
    destruct (memo_ext_alias _ _ _ _ Hext Ha) as (a' & Ha' & _ & _ & [HP|(? & _)]).
    + exists a'. by rewrite HP.
    + congruence.
Qed.

(** An alias that a lookup resolves was looked up by it, as an alias. *)
Lemma resolved_was_visited fuel n st st1 r k a :
  getByName fuel n st = Some (st1, r) →
  byAlias st !! k = Some a → pa_PinIO a = None →
  (∃ a1, byAlias st1 !! k = Some a1 ∧ is_Some (pa_PinIO a1)) →
  (byName st).1 !! k = None ∧ (byName st).2 !! k = None
  ∧ ∃ fuel' x, (fuel' ≤ fuel)%nat ∧ getByName fuel' k st = Some x.
Proof.
  revert n st1 r.
  induction fuel as [|fuel IH]; intros n st1 r H Ha Hp (a1 & Ha1 & Hres); [discriminate|].
  assert (st1 = st → False) as Hsame.
  { intros ->. rewrite Ha in Ha1. injection Ha1 as <-. rewrite Hp in Hres.
    by destruct Hres. }
  pose proof H as Hcall. cbn [getByName] in H.
  destruct ((byName st).1 !! n) eqn:H0; [exfalso; apply Hsame; congruence|].
  destruct ((byName st).2 !! n) eqn:H1; [exfalso; apply Hsame; congruence|].
  destruct (byAlias st !! n) as [an|] eqn:Han.
  - destruct (pa_PinIO an) eqn:Hpn; [exfalso; apply Hsame; congruence|].
    destruct (getByName fuel (pa_dest an) st) as [[st2 r2]|] eqn:Hrec; [|discriminate].
    destruct (decide (k = n)) as [->|Hne].
    + split; [done|]. split; [done|]. exists (S fuel), (st1, r). split; [lia|done].
    + assert (st1 = set_PinIO n r2 st2) as -> by (destruct r2; congruence).
      cbn in Ha1. rewrite lookup_alter_ne in Ha1 by done.
      destruct (IH _ _ _ Hrec Ha Hp) as (? & ? & f' & x & ? & ?); [eauto|].
      split; [done|]. split; [done|]. exists f', x. split; [lia|done].
  - exfalso. apply Hsame. destruct (strconv.Atoi n); congruence.
Qed.

(** The lookup of an alias's own destination does not resolve the
    alias: had it come back to the alias, it would not have returned. *)
Lemma own_destination_keeps_unresolved fuel st st1 r k a :
  byAlias st !! k = Some a → pa_PinIO a = None →
  getByName fuel (pa_dest a) st = Some (st1, r) →
  ∃ a1, byAlias st1 !! k = Some a1 ∧ pa_PinIO a1 = None.
Proof.
  intros Ha Hp. revert st1 r.
  induction (lt_wf fuel) as [fuel _ IH]. intros st1 r Hrec.
  destruct (memo_ext_alias _ _ _ _ (getByName_memo_ext _ _ _ _ _ Hrec) Ha)
    as (a1 & Ha1 & _).
  exists a1. split; [done|].
  destruct (pa_PinIO a1) as [h|] eqn:Hp1; [|done]. exfalso.
  destruct (resolved_was_visited _ _ _ _ _ _ _ Hrec Ha Hp)
    as (H0 & H1 & [|fuel'] & x & Hle & Hx); [exists a1; by rewrite Hp1|discriminate|].
  cbn [getByName] in Hx. rewrite H0, H1, Ha, Hp in Hx.
  destruct (getByName fuel' (pa_dest a) st) as [[st2 r2]|] eqn:Hrec'; [|discriminate].
  pose proof (getByName_fuel_mono _ fuel _ _ _ Hrec' ltac:(lia)) as Hsame.
  rewrite Hrec in Hsame. injection Hsame as <- <-.
  destruct (IH fuel' ltac:(lia) _ _ Hrec') as (a1' & Ha1' & Hp1'). congruence.
Qed.

(** Writing a pin that leads somewhere into an unresolved record. *)
Lemma aliases_grounded_set st k a h n :
  aliases_grounded st → byAlias st !! k = Some a → pa_PinIO a = None →
  grounded st h n →
  aliases_grounded (set_PinIO k (Some h) st)
  ∧ grounded (set_PinIO k (Some h) st) (AliasPtr k) n.
Proof.
  intros HG Ha Hp Hh.
  assert (grows st (set_PinIO k (Some h) st)) as Hgrows.
  { split; [done|]. intros k' a' h' Ha' Hp'. cbn.
    destruct (decide (k = k')) as [<-|Hne]; [congruence|].
    rewrite lookup_alter_ne by done. eauto. }
  pose proof (grounded_grows _ _ _ _ Hgrows Hh) as Hh'.
  split.
  - intros k' a' h' Ha' Hp'. cbn in Ha'.
    destruct (decide (k = k')) as [<-|Hne].
    + rewrite lookup_alter_eq, Ha in Ha'. injection Ha' as <-. cbn in Hp'.
      injection Hp' as <-. eauto.
    + rewrite lookup_alter_ne in Ha' by done.
      destruct (HG k' a' h' Ha' Hp') as [n' Hn']. exists n'.
      by eapply grounded_grows.
  - eapply grounded_alias; [by apply set_PinIO_lookup|done|done].
Qed.

Lemma getByNumber_grounded st i h :
  wf st → getByNumber i st = Some h → ∃ n, grounded st h n.
Proof.
  intros Hwf. unfold getByNumber.
  destruct ((byNumber st).1 !! i) as [p|] eqn:H0.
  - intros [= <-]. destruct (wf_number _ Hwf 0%nat _ _ H0) as [_ Hs].
    eexists. by eapply grounded_driver.
  - destruct ((byNumber st).2 !! i) as [p|] eqn:H1; [|done].
    intros [= <-]. destruct (wf_number _ Hwf 1%nat _ _ H1) as [_ Hs].
    eexists. by eapply grounded_driver.
Qed.

(** A lookup keeps the resolved aliases grounded, and returns a handle
    that leads to a pin. *)
Lemma getByName_grounded fuel name st st1 r :
  wf st → aliases_grounded st →
  getByName fuel name st = Some (st1, r) →
  aliases_grounded st1 ∧ ∀ h, r = Some h → ∃ n, grounded st1 h n.
Proof.
  intros Hwf HG. revert name st1 r.
  induction fuel as [|fuel IH]; intros name st1 r H; [discriminate|].
  cbn [getByName] in H.
  destruct ((byName st).1 !! name) as [p|] eqn:H0.
  { injection H as <- <-. split; [done|]. intros h [= <-].
    destruct (wf_name _ Hwf 0%nat _ _ H0) as [<- _].
    eexists. by apply (grounded_driver st p 0). }
  destruct ((byName st).2 !! name) as [p|] eqn:H1.
  { injection H as <- <-. split; [done|]. intros h [= <-].
    destruct (wf_name _ Hwf 1%nat _ _ H1) as [<- _].
    eexists. by apply (grounded_driver st p 1). }
  destruct (byAlias st !! name) as [a|] eqn:Ha.
  - destruct (pa_PinIO a) as [h0|] eqn:Hp.
    { injection H as <- <-. split; [done|]. intros h [= <-].
      destruct (HG name a h0 Ha Hp) as [n Hn]. exists n. by eapply grounded_alias. }
    destruct (getByName fuel (pa_dest a) st) as [[st2 [h2|]]|] eqn:Hrec; try discriminate.
    + injection H as <- <-.
      destruct (IH _ _ _ Hrec) as [HG2 Hr2]. destruct (Hr2 h2 eq_refl) as [n Hn].
      destruct (own_destination_keeps_unresolved _ _ _ _ _ _ Ha Hp Hrec)
        as (a2 & Ha2 & Hp2).
      destruct (aliases_grounded_set st2 name a2 h2 n HG2 Ha2 Hp2 Hn) as [HG' Hn'].
      split; [done|]. intros h [= <-]. eauto.
    + injection H as <- <-.
      apply getByName_absent_unchanged in Hrec as ->.
      rewrite (set_PinIO_None_id _ _ _ Ha Hp). split; [done|]. discriminate.
  - destruct (strconv.Atoi name) as [i|]; injection H as <- <-; (split; [done|]).
    + intros h Hh. by eapply getByNumber_grounded.
    + discriminate.
Qed.

Lemma Aliases_loop_grounded fuel keys out st st' out' :
  wf st → aliases_grounded st →
  Aliases_loop fuel keys out st = Some (st', out') → aliases_grounded st'.
Proof.
  revert out st.
  induction keys as [|k keys IH]; intros out st Hwf HG; cbn [Aliases_loop].
  { by intros [= <- _]. }
  destruct (byAlias st !! k) as [a|] eqn:Ha; [|by apply IH].
  destruct (pa_PinIO a) eqn:Hp; [by apply IH|].
  destruct (getByName fuel (pa_dest a) st) as [[st2 r2]|] eqn:Hrec; [|discriminate].
  pose proof (memo_ext_loop_step _ _ _ _ _ _ Ha Hp Hrec) as Hext.
  assert (aliases_grounded (set_PinIO k r2 st2)) as HG'.
  { destruct (getByName_grounded _ _ _ _ _ Hwf HG Hrec) as [HG2 Hr2].
    destruct r2 as [h2|].
    - destruct (Hr2 h2 eq_refl) as [n Hn].
      destruct (own_destination_keeps_unresolved _ _ _ _ _ _ Ha Hp Hrec)
        as (a2 & Ha2 & Hp2).
      by destruct (aliases_grounded_set st2 k a2 h2 n HG2 Ha2 Hp2 Hn).
    - apply getByName_absent_unchanged in Hrec as ->.
      by rewrite (set_PinIO_None_id _ _ _ Ha Hp). }
  destruct r2; apply IH; try done; by eapply wf_memo_ext.
Qed.

Lemma reachable_grounded st : reachable st → aliases_grounded st.
Proof.
  induction 1 as [|st p preferred Hr IH Hint|st alias dest Hr IH
                 |st fuel name st' r Hr IH Hby|st fuel kvs st' out Hr IH _ Hal].
  - intros k a h Ha. cbn in Ha. by rewrite lookup_empty in Ha.
  - destruct (Register p preferred st) as [st' [e|]] eqn:HR; cbn.
    { by apply Register_error_unchanged in HR as ->. }
    destruct (Register_ok_facts _ _ _ _ HR) as (_ & _ & _ & _ & HfreshS & _ & _ & _ & ->).
    destruct (Register_inserted_tiers p preferred st) as (E0 & E1 & _ & _ & EA).
    assert (grows st (Register_inserted p preferred st)) as Hgrows.
    { split; [|intros k a h; rewrite EA; eauto].
      intros [|i] s q Hq; cbn [at2] in *; rewrite ?E0, ?E1;
        destruct preferred; cbn [tier at2] in HfreshS; try done;
        (rewrite lookup_insert_ne; [done|congruence]). }
    intros k a h. rewrite EA. intros Ha Hp.
    destruct (IH k a h Ha Hp) as [n Hn]. exists n. by eapply grounded_grows.
  - destruct (RegisterAlias_cases alias dest st) as [->|(_ & _ & _ & Hfresh & ->)]; [done|].
    set (st' := {| byNumber := _; byName := _; byAlias := _ |}).
    assert (grows st st') as Hgrows.
    { split; [done|]. intros k a h Ha Hp. exists a. split; [|done].
      cbn. rewrite lookup_insert_ne; [done|congruence]. }
    intros k a h. cbn. destruct (decide (alias = k)) as [<-|Hne].
    + rewrite lookup_insert_eq. by intros [= <-].
    + rewrite lookup_insert_ne by done. intros Ha Hp.
      destruct (IH k a h Ha Hp) as [n Hn]. exists n. by eapply grounded_grows.
  - by destruct (getByName_grounded _ _ _ _ _ (reachable_wf _ Hr) IH Hby).
  - by eapply Aliases_loop_grounded; [apply reachable_wf| |].
Qed.

Lemma grounded_registered st h n :
  grounded st h n → ∃ i p, at2 (byName st) i !! pin_Name p = Some p ∧ pin_Number p = n.
Proof. induction 1 as [p i Hp|k a h n Ha Hp _ IH]; eauto. Qed.

(** X23. A wrapper never dangles and never loops.  In every state the
    package reaches, [Number()] on the wrapper of a resolved alias, and
    on any handle [ByName] returns, follows the embedded handles to a
    registered pin and returns its number, which is not negative: no
    embedded handle on the way is nil and the way does not come back to
    itself. *)
Theorem handles_have_numbers (st : Registry) :
  reachable st →
  (∀ k a h, byAlias st !! k = Some a → pa_PinIO a = Some h →
     ∃ fuel n i p, Number fuel st (AliasPtr k) = Some n
                   ∧ at2 (byNumber st) i !! n = Some p ∧ 0 ≤ n)
  ∧ (∀ fuel name st' h, ByName fuel name st = Some (st', Some h) →
       ∃ fuel' n i p, Number fuel' st' h = Some n
                      ∧ at2 (byNumber st') i !! n = Some p ∧ 0 ≤ n).
Proof.
  intros Hreach.
  assert (∀ st h n, wf st → grounded st h n →
            ∃ fuel i p, Number fuel st h = Some n
                        ∧ at2 (byNumber st) i !! n = Some p ∧ 0 ≤ n) as Hnum.
  { intros st0 h n Hwf Hg.
    destruct (grounded_Number _ _ _ Hg) as [fuel Hf].
    destruct (grounded_registered _ _ _ Hg) as (i & p & Hp & <-).
    destruct (wf_name _ Hwf _ _ _ Hp) as [_ Hn].
    destruct (wf_pin _ Hwf _ _ _ Hp) as (_ & _ & Hpos & _).
    exists fuel, i, p. done. }
  pose proof (reachable_wf _ Hreach) as Hwf.
  pose proof (reachable_grounded _ Hreach) as HG.
  split.
  - intros k a h Ha Hp. destruct (HG k a h Ha Hp) as [n Hn].
    destruct (Hnum st (AliasPtr k) n Hwf) as (fuel & i & p & ?).
    { by eapply grounded_alias. }
    by exists fuel, n, i, p.
  - unfold ByName. intros fuel name st' h Hby.
    destruct (getByName_grounded _ _ _ _ _ Hwf HG Hby) as [_ Hr].
    destruct (Hr h eq_refl) as [n Hn].
    destruct (Hnum st' h n) as (fuel' & i & p & ?); [|done|].
    { eapply wf_memo_ext; [done|]. by eapply getByName_memo_ext. }
    by exists fuel', n, i, p.
Qed.

Lemma handles_have_numbers_witness :
  (∀ k a h, byAlias with_dangling_resolved !! k = Some a → pa_PinIO a = Some h →
     ∃ fuel n i p, Number fuel with_dangling_resolved (AliasPtr k) = Some n
                   ∧ at2 (byNumber with_dangling_resolved) i !! n = Some p ∧ 0 ≤ n)
  ∧ (∀ fuel name st' h, ByName fuel name with_dangling_resolved = Some (st', Some h) →
       ∃ fuel' n i p, Number fuel' st' h = Some n
                      ∧ at2 (byNumber st') i !! n = Some p ∧ 0 ≤ n).
Proof.
  apply (handles_have_numbers with_dangling_resolved).
  apply (reach_Aliases with_dangling 2 (map_to_list (byAlias with_dangling))
           with_dangling_resolved [AliasPtr "LED"]).
  - apply with_dangling_reachable.
  - unfold range_of. reflexivity.
  - vm_compute. reflexivity.
Defined.

Example Number_of_LED :
  Number 1 with_dangling_resolved (AliasPtr "LED") = Some 2.
Proof. reflexivity. Qed.

(** ** Registering an alias, then looking it up *)

Lemma lookup_result_alias_insert alias a st name :
  name ≠ alias →
  lookup_result {| byNumber := byNumber st; byName := byName st;
                   byAlias := <[alias := a]> (byAlias st) |} name true
  = lookup_result st name true.
Proof.
  intros Hne. unfold lookup_result. cbn. by rewrite lookup_insert_ne.
Qed.

(** X24. An alias of something that resolves resolves at once.  When
    [RegisterAlias] adds a new alias, which is no pin name, of a
    destination whose lookup returns a handle, the lookup of the alias
    returns its wrapper, with the alias name as [Name()] and that handle
    as [Real()]. *)
Theorem RegisterAlias_then_ByName (alias dest : string) (st st1 sd : Registry)
    (h : PinIO) :
  byAlias st !! alias = None →
  (byName st).1 !! alias = None → (byName st).2 !! alias = None →
  RegisterAlias alias dest st = (st1, None) →
  ByName_chain st dest sd (Some h) →
  ∃ fuel st2,
    ByName fuel alias st1 = Some (st2, Some (AliasPtr alias))
    ∧ Name st2 (AliasPtr alias) = alias
    ∧ Real st2 (AliasPtr alias) = Some h.
Proof.
  intros Hfresh H0 H1 HR Hchain.
  destruct (RegisterAlias_ok_dest _ _ _ _ HR) as (_ & _ & Hnum & _).
  assert (strconv.Atoi alias = None) as Hnum'.
  { destruct (strconv.Atoi alias); [exfalso; eauto|done]. }
  apply RegisterAlias_fresh in HR; [|done]. subst st1.
  set (ra := {| pa_PinIO := None; pa_name := alias; pa_dest := dest |}).
  set (st1 := {| byNumber := _; byName := _; byAlias := _ |}).
  assert (dest ≠ alias) as Hne.
  { intros ->. pose proof (chain_lookup_result _ _ _ _ Hchain) as Hr.
    unfold lookup_result in Hr. by rewrite H0, H1, Hfresh, Hnum' in Hr. }
  pose proof (chain_ends _ _ _ _ Hchain) as Hends.
  pose proof (lookup_ends_alias_mono alias ra st dest _ Hnum' Hfresh Hends eq_refl) as Hends1.
  fold st1 in Hends1.
  destruct (ends_chain _ _ _ Hends1) as (s2 & r2 & Hchain1 & Hb).
  assert (r2 = Some h) as ->.
  { rewrite (chain_lookup_result _ _ _ _ Hchain1), Hb.
    unfold st1. rewrite lookup_result_alias_insert by done.
    by rewrite (chain_lookup_result _ _ _ _ Hchain). }
  destruct (getByName_complete _ _ _ _ Hchain1) as [fuel Hf].
  assert (byAlias st1 !! alias = Some ra) as Ha by apply lookup_insert_eq.
  destruct (memo_ext_alias _ _ _ _ (chain_memo_ext _ _ _ _ Hchain1) Ha)
    as (a2 & Ha2 & Hn2 & _).
  exists (S fuel), (set_PinIO alias (Some h) s2). unfold ByName.
  split; [|split].
  - rewrite (getByName_unresolved fuel st1 alias ra); try done.
    change (pa_dest ra) with dest. by rewrite Hf.
  - cbn [Name]. rewrite (set_PinIO_lookup _ _ _ _ Ha2). cbn. by rewrite Hn2.
  - cbn [Real]. by rewrite (set_PinIO_lookup _ _ _ _ Ha2).
Qed.

(** An alias of a number: [P7] for the pin number 7. *)
Lemma RegisterAlias_then_ByName_witness :
  ∃ fuel st2,
    ByName fuel "P7" (RegisterAlias "P7" "7" two_tiers).1 = Some (st2, Some (AliasPtr "P7"))
    ∧ Name st2 (AliasPtr "P7") = "P7"
    ∧ Real st2 (AliasPtr "P7") = Some (Driver PWM7).
Proof.
  apply (RegisterAlias_then_ByName "P7" "7" two_tiers
           (RegisterAlias "P7" "7" two_tiers).1 two_tiers (Driver PWM7));
    try reflexivity.
  apply (chain_number two_tiers "7" 7); reflexivity.
Defined.

(** ** An alias is final *)

Lemma step_keeps_alias st st' k a :
  step st st' → byAlias st !! k = Some a →
  ∃ a', byAlias st' !! k = Some a' ∧ pa_name a' = pa_name a ∧ pa_dest a' = pa_dest a.
Proof.
  intros Hs Ha.
  assert (∀ st', memo_ext st st' →
            ∃ a', byAlias st' !! k = Some a' ∧ pa_name a' = pa_name a
                  ∧ pa_dest a' = pa_dest a) as Hext.
  { intros st0 Hext.
    destruct (memo_ext_alias _ _ _ _ Hext Ha) as (a' & ? & ? & ? & _). eauto. }
  destruct Hs as [st p preferred _|st alias dest|st fuel name st' r Hby|st fuel kvs st' out _ Hal].
  - destruct (Register p preferred st) as [st' [e|]] eqn:HR; cbn.
    + apply Register_error_unchanged in HR as ->. eauto.
    + apply Register_ok_inserted in HR as ->.
      destruct (Register_inserted_tiers p preferred st) as (_ & _ & _ & _ & ->). eauto.
  - destruct (RegisterAlias_cases alias dest st) as [->|(_ & _ & _ & Hfresh & ->)]; [eauto|].
    cbn. exists a. rewrite lookup_insert_ne by congruence. eauto.
  - apply Hext. by eapply getByName_memo_ext.
  - apply Hext. by eapply Aliases_loop_memo_ext.
Qed.

(** X25. An alias is final.  Once an alias is registered, after any
    further calls it is still there with its name and its destination;
    no pin of that name is registered any more, in either tier; and
    [RegisterAlias] refuses every other destination for it. *)
Theorem alias_is_final (st st' : Registry) (k : string) (a : pinAlias) :
  byAlias st !! k = Some a → rtc step st st' →
  (∃ a', byAlias st' !! k = Some a' ∧ pa_name a' = pa_name a ∧ pa_dest a' = pa_dest a)
  ∧ (∀ q preferred, pin_Name q = k → ∃ e, Register q preferred st' = (st', Some e))
  ∧ (∀ dest, dest ≠ pa_dest a → ∃ e, RegisterAlias k dest st' = (st', Some e)).
Proof.
  intros Ha Hsteps.
  assert (∃ a', byAlias st' !! k = Some a' ∧ pa_name a' = pa_name a
                ∧ pa_dest a' = pa_dest a) as (a' & Ha' & Hn' & Hd').
  { revert a Ha. induction Hsteps as [st|st st1 st' Hs1 _ IH]; intros a Ha; [eauto|].
    destruct (step_keeps_alias _ _ _ _ Hs1 Ha) as (a1 & Ha1 & Hn1 & Hd1).
    destruct (IH a1 Ha1) as (a' & ? & ? & ?). exists a'. split; [done|]. split; congruence. }
  split; [eauto|]. split.
  - intros q preferred Hq.
    apply (Register_fails_at 6 (ErrPinAliasExists (pin_Name q) (pinAlias_String st' a'))).
    change (Register_steps q preferred st' !! 6%nat)
      with (Some ((λ a0, ErrPinAliasExists (pin_Name q) (pinAlias_String st' a0))
                    <$> byAlias st' !! pin_Name q)).
    by rewrite Hq, Ha'.
  - intros dest Hne. unfold RegisterAlias.
    destruct (Nat.eqb (String.length k) 0); [eauto|].
    destruct (Nat.eqb (String.length dest) 0); [eauto|].
    case_bool_decide; [eauto|].
    rewrite Ha'. rewrite bool_decide_eq_false_2 by congruence. eauto.
Qed.

Lemma alias_is_final_witness :
  (∃ a', byAlias with_dangling !! "LED" = Some a' ∧ pa_name a' = pa_name LED_record
         ∧ pa_dest a' = pa_dest LED_record)
  ∧ (∀ q preferred, pin_Name q = "LED" →
       ∃ e, Register q preferred with_dangling = (with_dangling, Some e))
  ∧ (∀ dest, dest ≠ pa_dest LED_record →
       ∃ e, RegisterAlias "LED" dest with_dangling = (with_dangling, Some e)).
Proof.
  apply (alias_is_final with_LED with_dangling "LED" LED_record).
  - reflexivity.
  - apply rtc_once. apply step_RegisterAlias.
Defined.

(** ** [All] and [ByName] *)

Lemma All_from_elem st kvs0 kvs1 p :
  wf st → range_of (byNumber st).1 kvs0 → range_of (byNumber st).2 kvs1 →
  p ∈ All_from kvs0.*2 kvs1.*2 ↔
    (byNumber st).1 !! pin_Number p = Some p
    ∨ ((byNumber st).1 !! pin_Number p = None ∧ (byNumber st).2 !! pin_Number p = Some p).
Proof.
  intros Hwf Hr0 Hr1.
  destruct (range_of_numbers _ _ (λ n p H, proj1 (wf_number _ Hwf 0%nat n p H)) Hr0)
    as (_ & _ & Hin0 & Hnum0).
  destruct (range_of_numbers _ _ (λ n p H, proj1 (wf_number _ Hwf 1%nat n p H)) Hr1)
    as (_ & _ & Hin1 & _).
  destruct (All_from_spec kvs0.*2 kvs1.*2) as (Hperm & _).
  rewrite Hperm, elem_of_app, list_elem_of_filter, Hin0, Hin1.
  rewrite elem_of_list_to_set, Hnum0, <- eq_None_not_Some. tauto.
Qed.

(** X26. The pins [All()] lists are the pins the lookups return: in
    every state the package reaches, each pin of the list is what
    [ByName] returns both for its name and for the decimal string of its
    number, and every pin [getByNumber] returns is in the list. *)
Theorem All_pins_are_looked_up (st : Registry) (kvs0 kvs1 : list (Z * Pin)) :
  reachable st →
  range_of (byNumber st).1 kvs0 → range_of (byNumber st).2 kvs1 →
  (∀ p, p ∈ All_from kvs0.*2 kvs1.*2 →
     ∀ fuel, ByName (S fuel) (pin_Name p) st = Some (st, Some (Driver p))
             ∧ ByName (S fuel) (strconv.Itoa (pin_Number p)) st
               = Some (st, Some (Driver p)))
  ∧ (∀ n p, getByNumber n st = Some (Driver p) → p ∈ All_from kvs0.*2 kvs1.*2).
Proof.
  intros Hwf%reachable_wf Hr0 Hr1. unfold ByName. split.
  - intros p Hp fuel. apply (All_from_elem st) in Hp; [|done..].
    destruct Hp as [H0|[H0 H1]].
    + destruct (wf_number _ Hwf 0%nat _ _ H0) as [_ Hs]. cbn in Hs.
      destruct (wf_pin _ Hwf 0%nat _ _ Hs) as (_ & _ & _ & Hint & _).
      split; [by apply getByName_tier0|].
      rewrite getByName_number by done. unfold getByNumber. by rewrite H0.
    + destruct (wf_number _ Hwf 1%nat _ _ H1) as [_ Hs]. cbn in Hs.
      destruct (wf_pin _ Hwf 1%nat _ _ Hs) as (_ & _ & _ & Hint & _).
      split.
      * apply getByName_tier1; [|done].
        destruct ((byName st).1 !! pin_Name p) as [q|] eqn:Hq; [|done].
        destruct (wf_name _ Hwf 0%nat _ _ Hq) as [_ Hqn]. cbn in Hqn.
        rewrite (wf_tiers _ Hwf _ _ _ Hq Hs) in Hqn. congruence.
      * rewrite getByName_number by done. unfold getByNumber. by rewrite H0, H1.
  - intros n p. unfold getByNumber.
    destruct ((byNumber st).1 !! n) as [q|] eqn:H0.
    + intros [= ->]. destruct (wf_number _ Hwf 0%nat _ _ H0) as [<- _].
      apply (All_from_elem st); [done..|]. by left.
    + destruct ((byNumber st).2 !! n) as [q|] eqn:H1; [|done].
      intros [= ->]. destruct (wf_number _ Hwf 1%nat _ _ H1) as [<- _].
      apply (All_from_elem st); [done..|]. by right.
Qed.

Lemma All_pins_are_looked_up_witness :
  (∀ p, p ∈ All two_tiers →
     ∀ fuel, ByName (S fuel) (pin_Name p) two_tiers = Some (two_tiers, Some (Driver p))
             ∧ ByName (S fuel) (strconv.Itoa (pin_Number p)) two_tiers
               = Some (two_tiers, Some (Driver p)))
  ∧ (∀ n p, getByNumber n two_tiers = Some (Driver p) → p ∈ All two_tiers).
Proof.
  apply (All_pins_are_looked_up two_tiers
           (map_to_list (byNumber two_tiers).1) (map_to_list (byNumber two_tiers).2)).
  - apply two_tiers_reachable.
  - unfold range_of. reflexivity.
  - unfold range_of. reflexivity.
Defined.
